(** * feishu2md: block-tree renderer, crawl orchestrator and file download

    A shallow embedding of the Go sources of feishu2md:
    - package [core], the parser: [Parser] and its [ParseDocx*] methods,
    - package [main], the download command: [downloadDocuments], [downloadWiki],
    - package [core], the client: [DownloadFile], [createFilePlaceholder],
      [DownloadImage], the paged listings [GetWikiNodeList],
      [GetDriveFolderFileList], [GetDocxContent], and the table contents
      [GetSheetContent], [GetBitableContent],
    - package [main] again: the image loop of [downloadDocument] and
      [downloadFile],
    together with the properties of the specification that were checked
    against them and further properties that the code shows.

    Conventions.  Go strings are byte strings and are modelled by [string];
    a [strings.Builder] is the concatenation of what is written to it.  A nil
    pointer is [None]; dereferencing it is the result [Panic].  A slice of
    pointers is a list of values: its entries are not nil.  The recursion of
    the renderer follows the block map and not the syntax of a term, so it is
    bounded by a fuel argument that stands for the call stack. *)

From stdpp Require Import gmap strings list fin_maps pretty.
From Stdlib Require Import ZArith Ascii String Lia.

Local Open Scope string_scope.
Local Open Scope Z_scope.

(** ** Go strings *)

Module GoStrings.

Definition nl : string := String "010"%char EmptyString.
Definition tab : string := String "009"%char EmptyString.
Definition dquote : string := String "034"%char EmptyString.
Definition backtick : string := String "096"%char EmptyString.

Definition is_nl (c : ascii) : bool := Ascii.eqb c "010"%char.

(** [strings.Repeat s n] for a count that is not negative. *)
Fixpoint Repeat (s : string) (n : nat) : string :=
  match n with
  | O => EmptyString
  | S k => s +:+ Repeat s k
  end.

(** [strings.ReplaceAll] of the newline by the empty string: every newline
    byte is dropped. *)
Fixpoint dropNewlines (s : string) : string :=
  match s with
  | EmptyString => EmptyString
  | String c r => if is_nl c then dropNewlines r else String c (dropNewlines r)
  end.

(** [strings.TrimRight] with the newline as cut set: all trailing newline
    bytes are removed. *)
Fixpoint TrimRightNewlines (s : string) : string :=
  match s with
  | EmptyString => EmptyString
  | String c r =>
      match TrimRightNewlines r with
      | EmptyString => if is_nl c then EmptyString else String c EmptyString
      | r' => String c r'
      end
  end.

(** [strings.TrimSuffix] of the newline: at most one trailing newline is
    removed. *)
Fixpoint TrimSuffixNewline (s : string) : string :=
  match s with
  | EmptyString => EmptyString
  | String c EmptyString => if is_nl c then EmptyString else s
  | String c r => String c (TrimSuffixNewline r)
  end.

(** [strings.Contains s sub]. *)
Fixpoint Contains (s sub : string) : bool :=
  String.prefix sub s ||
  match s with
  | EmptyString => false
  | String _ r => Contains r sub
  end.

(** [strings.HasPrefix s p]. *)
Definition HasPrefix (s p : string) : bool := String.prefix p s.

(** [fmt.Sprintf] of an integer with the verb d. *)
Definition itoa (n : Z) : string := pretty n.

(** Concatenation of a list of written pieces. *)
Definition concat (l : list string) : string :=
  foldr String.append EmptyString l.

End GoStrings.
Import GoStrings.

(** ** What the code takes from outside

    Library functions whose definition is not part of the repository sources
    at hand and which no property below depends on are parameters of the
    development. *)

Class GoRuntime : Type := {
  (** [utils.UnescapeURL] *)
  UnescapeURL : string -> string;
  (** [strings.TrimSpace] (Unicode white space) *)
  TrimSpace : string -> string;
  (** [strings.ToLower] (Unicode case mapping) *)
  ToLower : string -> string;
  (** [filepath.Join] of two elements and [filepath.Dir] *)
  filepath_Join : string -> string -> string;
  filepath_Dir : string -> string;
  (** the operating system refusing a call: [os.MkdirAll], [os.OpenFile],
      the copy into an open file, [os.WriteFile]; [None] is success *)
  os_MkdirAll_err : string -> option string;
  os_OpenFile_err : string -> option string;
  io_Copy_err : string -> option string;
  os_WriteFile_err : string -> option string
}.

(** ** Results of a Go call *)

Inductive Res (A : Type) : Type :=
  | Ok (a : A)
  | Panic        (* nil dereference, index out of range, division by zero *)
  | OutOfFuel.   (* the call stack bound of the model was reached *)
Arguments Ok {A} a.
Arguments Panic {A}.
Arguments OutOfFuel {A}.

(** ** The lark data model used by the parser *)

Module lark.

Inductive DocxCodeLanguage : Type :=
  | DocxCodeLanguagePlainText
  | DocxCodeLanguageABAP
  | DocxCodeLanguageAda
  | DocxCodeLanguageApache
  | DocxCodeLanguageApex
  | DocxCodeLanguageAssembly
  | DocxCodeLanguageBash
  | DocxCodeLanguageCSharp
  | DocxCodeLanguageCPlusPlus
  | DocxCodeLanguageC
  | DocxCodeLanguageCOBOL
  | DocxCodeLanguageCSS
  | DocxCodeLanguageCoffeeScript
  | DocxCodeLanguageD
  | DocxCodeLanguageDart
  | DocxCodeLanguageDelphi
  | DocxCodeLanguageDjango
  | DocxCodeLanguageDockerfile
  | DocxCodeLanguageErlang
  | DocxCodeLanguageFortran
  | DocxCodeLanguageFoxPro
  | DocxCodeLanguageGo
  | DocxCodeLanguageGroovy
  | DocxCodeLanguageHTML
  | DocxCodeLanguageHTMLBars
  | DocxCodeLanguageHTTP
  | DocxCodeLanguageHaskell
  | DocxCodeLanguageJSON
  | DocxCodeLanguageJava
  | DocxCodeLanguageJavaScript
  | DocxCodeLanguageJulia
  | DocxCodeLanguageKotlin
  | DocxCodeLanguageLateX
  | DocxCodeLanguageLisp
  | DocxCodeLanguageLogo
  | DocxCodeLanguageLua
  | DocxCodeLanguageMATLAB
  | DocxCodeLanguageMakefile
  | DocxCodeLanguageMarkdown
  | DocxCodeLanguageNginx
  | DocxCodeLanguageObjective
  | DocxCodeLanguageOpenEdgeABL
  | DocxCodeLanguagePHP
  | DocxCodeLanguagePerl
  | DocxCodeLanguagePostScript
  | DocxCodeLanguagePower
  | DocxCodeLanguageProlog
  | DocxCodeLanguageProtoBuf
  | DocxCodeLanguagePython
  | DocxCodeLanguageR
  | DocxCodeLanguageRPG
  | DocxCodeLanguageRuby
  | DocxCodeLanguageRust
  | DocxCodeLanguageSAS
  | DocxCodeLanguageSCSS
  | DocxCodeLanguageSQL
  | DocxCodeLanguageScala
  | DocxCodeLanguageScheme
  | DocxCodeLanguageScratch
  | DocxCodeLanguageShell
  | DocxCodeLanguageSwift
  | DocxCodeLanguageThrift
  | DocxCodeLanguageTypeScript
  | DocxCodeLanguageVBScript
  | DocxCodeLanguageVisual
  | DocxCodeLanguageXML
  | DocxCodeLanguageYAML
  | DocxCodeLanguageUnlisted (code : Z).

Definition DocxCodeLang2MdStr (l : DocxCodeLanguage) : string :=
  match l with
  | DocxCodeLanguagePlainText => EmptyString
  | DocxCodeLanguageABAP => "abap"
  | DocxCodeLanguageAda => "ada"
  | DocxCodeLanguageApache => "apache"
  | DocxCodeLanguageApex => "apex"
  | DocxCodeLanguageAssembly => "assembly"
  | DocxCodeLanguageBash => "bash"
  | DocxCodeLanguageCSharp => "csharp"
  | DocxCodeLanguageCPlusPlus => "cpp"
  | DocxCodeLanguageC => "c"
  | DocxCodeLanguageCOBOL => "cobol"
  | DocxCodeLanguageCSS => "css"
  | DocxCodeLanguageCoffeeScript => "coffeescript"
  | DocxCodeLanguageD => "d"
  | DocxCodeLanguageDart => "dart"
  | DocxCodeLanguageDelphi => "delphi"
  | DocxCodeLanguageDjango => "django"
  | DocxCodeLanguageDockerfile => "dockerfile"
  | DocxCodeLanguageErlang => "erlang"
  | DocxCodeLanguageFortran => "fortran"
  | DocxCodeLanguageFoxPro => "foxpro"
  | DocxCodeLanguageGo => "go"
  | DocxCodeLanguageGroovy => "groovy"
  | DocxCodeLanguageHTML => "html"
  | DocxCodeLanguageHTMLBars => "htmlbars"
  | DocxCodeLanguageHTTP => "http"
  | DocxCodeLanguageHaskell => "haskell"
  | DocxCodeLanguageJSON => "json"
  | DocxCodeLanguageJava => "java"
  | DocxCodeLanguageJavaScript => "javascript"
  | DocxCodeLanguageJulia => "julia"
  | DocxCodeLanguageKotlin => "kotlin"
  | DocxCodeLanguageLateX => "latex"
  | DocxCodeLanguageLisp => "lisp"
  | DocxCodeLanguageLogo => "logo"
  | DocxCodeLanguageLua => "lua"
  | DocxCodeLanguageMATLAB => "matlab"
  | DocxCodeLanguageMakefile => "makefile"
  | DocxCodeLanguageMarkdown => "markdown"
  | DocxCodeLanguageNginx => "nginx"
  | DocxCodeLanguageObjective => "objectivec"
  | DocxCodeLanguageOpenEdgeABL => "openedge-abl"
  | DocxCodeLanguagePHP => "php"
  | DocxCodeLanguagePerl => "perl"
  | DocxCodeLanguagePostScript => "postscript"
  | DocxCodeLanguagePower => "powershell"
  | DocxCodeLanguageProlog => "prolog"
  | DocxCodeLanguageProtoBuf => "protobuf"
  | DocxCodeLanguagePython => "python"
  | DocxCodeLanguageR => "r"
  | DocxCodeLanguageRPG => "rpg"
  | DocxCodeLanguageRuby => "ruby"
  | DocxCodeLanguageRust => "rust"
  | DocxCodeLanguageSAS => "sas"
  | DocxCodeLanguageSCSS => "scss"
  | DocxCodeLanguageSQL => "sql"
  | DocxCodeLanguageScala => "scala"
  | DocxCodeLanguageScheme => "scheme"
  | DocxCodeLanguageScratch => "scratch"
  | DocxCodeLanguageShell => "shell"
  | DocxCodeLanguageSwift => "swift"
  | DocxCodeLanguageThrift => "thrift"
  | DocxCodeLanguageTypeScript => "typescript"
  | DocxCodeLanguageVBScript => "vbscript"
  | DocxCodeLanguageVisual => "vbnet"
  | DocxCodeLanguageXML => "xml"
  | DocxCodeLanguageYAML => "yaml"
  | DocxCodeLanguageUnlisted _ => EmptyString
  end.

Inductive DocxBlockType : Type :=
  | DocxBlockTypePage | DocxBlockTypeText
  | DocxBlockTypeHeading1 | DocxBlockTypeHeading2 | DocxBlockTypeHeading3
  | DocxBlockTypeHeading4 | DocxBlockTypeHeading5 | DocxBlockTypeHeading6
  | DocxBlockTypeHeading7 | DocxBlockTypeHeading8 | DocxBlockTypeHeading9
  | DocxBlockTypeBullet | DocxBlockTypeOrdered | DocxBlockTypeCode
  | DocxBlockTypeQuote | DocxBlockTypeEquation | DocxBlockTypeTodo
  | DocxBlockTypeBitable | DocxBlockTypeCallout | DocxBlockTypeDiagram
  | DocxBlockTypeDivider | DocxBlockTypeFile | DocxBlockTypeGrid
  | DocxBlockTypeGridColumn | DocxBlockTypeIframe | DocxBlockTypeImage
  | DocxBlockTypeSheet | DocxBlockTypeTable | DocxBlockTypeTableCell
  | DocxBlockTypeQuoteContainer
  | DocxBlockTypeUndefined (tag : Z).  (* any tag without a case of its own *)

#[export] Instance DocxBlockType_eq_dec : EqDecision DocxBlockType.
Proof. solve_decision. Defined.

Record DocxTextElementStyleLink := { URL : string }.

Record DocxTextElementStyle := {
  Bold : bool; Italic : bool; Strikethrough : bool; Underline : bool;
  InlineCode : bool; Link : option DocxTextElementStyleLink
}.

Record DocxTextElementTextRun := {
  Content : string;
  TextElementStyle : option DocxTextElementStyle
}.

Record DocxTextElementMentionUser := { UserID : string }.
Record DocxTextElementMentionDoc := { MentionTitle : string; MentionURL : string }.
Record DocxTextElementEquation := { EquationContent : string }.

Record DocxTextElement := {
  TextRun : option DocxTextElementTextRun;
  MentionUser : option DocxTextElementMentionUser;
  MentionDoc : option DocxTextElementMentionDoc;
  Equation : option DocxTextElementEquation
}.

Record DocxTextStyle := { Done : bool; Language : DocxCodeLanguage }.

Record DocxBlockText := {
  Style : option DocxTextStyle;
  Elements : list DocxTextElement
}.

Record DocxBlockImage := { ImageToken : string }.
Record DocxBlockFile := { FileName : string; FileToken : string }.
Record DocxBlockSheet := { SheetToken : string }.
Record DocxBlockBitable := { BitableToken : string }.
Record DocxBlockDiagram := { DiagramType : Z }.
Record DocxBlockIframeComponent := { IframeType : Z; IframeURL : string }.
Record DocxBlockIframe := { Component : option DocxBlockIframeComponent }.

Record DocxBlockTablePropertyMergeInfo := { RowSpan : Z; ColSpan : Z }.

Record DocxBlockTableProperty := {
  ColumnSize : Z;
  MergeInfo : list (option DocxBlockTablePropertyMergeInfo)
}.

Record DocxBlockTable := {
  Cells : list string;
  Property : option DocxBlockTableProperty
}.

Record DocxBlock := {
  BlockID : string;
  ParentID : string;
  Children : list string;
  BlockType : DocxBlockType;
  Page : option DocxBlockText;
  Text : option DocxBlockText;
  Heading1 : option DocxBlockText;
  Heading2 : option DocxBlockText;
  Heading3 : option DocxBlockText;
  Heading4 : option DocxBlockText;
  Heading5 : option DocxBlockText;
  Heading6 : option DocxBlockText;
  Heading7 : option DocxBlockText;
  Heading8 : option DocxBlockText;
  Heading9 : option DocxBlockText;
  Bullet : option DocxBlockText;
  Ordered : option DocxBlockText;
  Code : option DocxBlockText;
  Quote : option DocxBlockText;
  BlockEquation : option DocxBlockText;
  Todo : option DocxBlockText;
  Image : option DocxBlockImage;
  File : option DocxBlockFile;
  Bitable : option DocxBlockBitable;
  Diagram : option DocxBlockDiagram;
  Iframe : option DocxBlockIframe;
  Table : option DocxBlockTable;
  Sheet : option DocxBlockSheet
}.

Record DocxDocument := { DocumentID : string; RevisionID : Z; Title : string }.

(** A response of a download call: [(resp, err)]. *)
Inductive DownloadResp : Type :=
  | DownloadErr (err : string)
  | DownloadNil                                  (* resp == nil, err == nil *)
  | DownloadOk (Filename : string) (FileBytes : string).

End lark.
Import lark.

(** ** The client and the local file system *)

(** What the parser and [DownloadFile] obtain through [core.Client].  The two
    download fields are the answers of the remote side to the calls of the
    same name; [GetSheetContent] and [GetBitableContent] stand for the methods
    of the same name, of which the parser uses the result only. *)
Record Client := {
  DownloadDriveFile : string -> DownloadResp;
  DownloadDriveMedia : string -> DownloadResp;
  GetSheetContent : string -> string + list (list string);
  GetBitableContent : string -> string + list (list string)
}.

(** Files on disk: path to content. *)
Abbreviation FS := (gmap string string).

(** The merge entries of a table, by row and by column. *)
Abbreviation MergeMap := (gmap Z (gmap Z (option DocxBlockTablePropertyMergeInfo))).

Fixpoint dropBytes (n : nat) (s : string) : string :=
  match n, s with
  | O, _ => s
  | S k, EmptyString => EmptyString
  | S k, String _ r => dropBytes k r
  end.

(** Writing [bytes] from offset 0 into a file opened with [O_CREATE|O_WRONLY]
    (no truncation): what the file held beyond the written length stays. *)
Definition overwrite (old bytes : string) : string :=
  bytes +:+ dropBytes (String.length bytes) old.

(** ** The parser *)

Record Parser := {
  client : option Client;
  useHTMLTags : bool;
  ImgTokens : list string;
  blockMap : gmap string DocxBlock;
  ctx : option unit;
  outputDir : string
}.

Record OutputConfig := { UseHTMLTags : bool }.

Definition NewParser (config : OutputConfig) (c : option Client) : Parser :=
  {| client := c; useHTMLTags := UseHTMLTags config; ImgTokens := [];
     blockMap := ∅; ctx := Some tt; outputDir := EmptyString |}.

Definition SetOutputDir (dir : string) (p : Parser) : Parser :=
  {| client := client p; useHTMLTags := useHTMLTags p;
     ImgTokens := ImgTokens p; blockMap := blockMap p; ctx := ctx p;
     outputDir := dir |}.

Definition setImgTokens (toks : list string) (p : Parser) : Parser :=
  {| client := client p; useHTMLTags := useHTMLTags p;
     ImgTokens := toks; blockMap := blockMap p; ctx := ctx p;
     outputDir := outputDir p |}.

Definition setBlockMap (m : gmap string DocxBlock) (p : Parser) : Parser :=
  {| client := client p; useHTMLTags := useHTMLTags p;
     ImgTokens := ImgTokens p; blockMap := m; ctx := ctx p;
     outputDir := outputDir p |}.

(** A method of [*Parser]: it reads and updates the parser and the disk, and
    returns, panics or exhausts the stack bound. *)
Definition M (A : Type) : Type := Parser * FS -> Res (A * (Parser * FS)).

Definition ret {A} (a : A) : M A := fun s => Ok (a, s).
Definition panic {A} : M A := fun _ => Panic.
Definition outOfFuel {A} : M A := fun _ => OutOfFuel.
Definition bind {A B} (m : M A) (k : A -> M B) : M B :=
  fun s => match m s with
           | Ok (a, s') => k a s'
           | Panic => Panic
           | OutOfFuel => OutOfFuel
           end.
Definition getParser : M Parser := fun s => Ok (fst s, s).
Definition liftRes {A} (r : Res A) : M A :=
  fun s => match r with Ok a => Ok (a, s) | Panic => Panic | OutOfFuel => OutOfFuel end.

Notation "'let*' x ':=' c1 'in' c2" := (bind c1 (fun x => c2))
  (at level 10, x name, c1 at level 100, c2 at level 200).

(** [for _, x := range l { buf.WriteString(f x) }] *)
Fixpoint writeEach {A} (f : A -> M string) (l : list A) : M string :=
  match l with
  | [] => ret EmptyString
  | x :: r => let* s := f x in let* t := writeEach f r in ret (s +:+ t)
  end.

Section WithRuntime.
Context `{GoRuntime}.

(** [os.MkdirAll(filepath.Dir(path))], [os.OpenFile(path, O_CREATE|O_WRONLY)]
    and the copy of [bytes] into the file, as [ParseDocxBlockFile] and
    [DownloadFile] chain them.  Returns the error, or the count written. *)
Definition copyToFile (path bytes : string) (fs : FS) : (string + Z) * FS :=
  match os_MkdirAll_err (filepath_Dir path) with
  | Some e => (inl e, fs)
  | None =>
      match os_OpenFile_err path with
      | Some e => (inl e, fs)
      | None =>
          let old := default EmptyString (fs !! path) in
          match io_Copy_err path with
          | Some e => (inl e, <[path := old]> fs)
          | None =>
              (inr (Z.of_nat (String.length bytes)),
               <[path := overwrite old bytes]> fs)
          end
      end
  end.

(** *** Inline elements *)

Definition ParseDocxTextElementTextRun (p : Parser) (tr : DocxTextElementTextRun) : string :=
  let '(pre, postWrite) :=
    match TextElementStyle tr with
    | Some style =>
        if Bold style then
          if useHTMLTags p then ("<strong>", "</strong>") else ("**", "**")
        else if Italic style then
          if useHTMLTags p then ("<em>", "</em>") else ("_", "_")
        else if Strikethrough style then
          if useHTMLTags p then ("<del>", "</del>") else ("~~", "~~")
        else if Underline style then ("<u>", "</u>")
        else if InlineCode style then (backtick, backtick)
        else match Link style with
             | Some link => ("[", "](" +:+ UnescapeURL (URL link) +:+ ")")
             | None => (EmptyString, EmptyString)
             end
    | None => (EmptyString, EmptyString)
    end in
  pre +:+ Content tr +:+ postWrite.

Definition ParseDocxTextElement (p : Parser) (e : DocxTextElement) (inline : bool) : string :=
  match TextRun e with Some tr => ParseDocxTextElementTextRun p tr | None => EmptyString end
  +:+ match MentionUser e with Some u => UserID u | None => EmptyString end
  +:+ match MentionDoc e with
      | Some d => "[" +:+ MentionTitle d +:+ "](" +:+ UnescapeURL (MentionURL d) +:+ ")"
      | None => EmptyString
      end
  +:+ match Equation e with
      | Some q =>
          let symbol := if inline then "$" else "$$" in
          symbol +:+ TrimSuffixNewline (EquationContent q) +:+ symbol
      | None => EmptyString
      end.

Definition ParseDocxBlockText (p : Parser) (b : option DocxBlockText) : Res string :=
  match b with
  | None => Panic
  | Some b =>
      let numElem := List.length (Elements b) in
      let inline := bool_decide (1 < numElem)%nat in
      Ok (GoStrings.concat (map (fun e => ParseDocxTextElement p e inline) (Elements b)) +:+ nl)
  end.

(** *** Leaf blocks *)

Definition appendImgToken (tok : string) : M unit :=
  fun '(p, fs) => Ok (tt, (setImgTokens (ImgTokens p ++ [tok]) p, fs)).

Definition ParseDocxBlockImage (img : option DocxBlockImage) : M string :=
  match img with
  | None => panic
  | Some img =>
      let* _ := appendImgToken (ImageToken img) in
      ret ("![](" +:+ ImageToken img +:+ ")" +:+ nl)
  end.

Definition fileTypeOf (fileName : string) : string :=
  let lower := ToLower fileName in
  if Contains lower ".mp4" || Contains lower ".mov"
     || Contains lower ".avi" || Contains lower ".mkv" then "视频"
  else if Contains lower ".pdf" then "PDF"
  else if Contains lower ".doc" || Contains lower ".docx" then "Word文档"
  else if Contains lower ".xls" || Contains lower ".xlsx" then "Excel表格"
  else "文件".

(** The attempt of [ParseDocxBlockFile] to fetch and store the attachment:
    the path and the count written when every step succeeded. *)
Definition tryDownloadMedia (p : Parser) (token : string) (fs : FS)
  : option (string * Z) * FS :=
  match ctx p, bool_decide (outputDir p = EmptyString), client p with
  | Some _, false, Some c =>
      match DownloadDriveMedia c token with
      | DownloadOk respFilename bytes =>
          let downloadedFilename :=
            if bool_decide (respFilename = EmptyString) then token else respFilename in
          let filePath := filepath_Join (outputDir p) downloadedFilename in
          match copyToFile filePath bytes fs with
          | (inr written, fs') => (Some (filePath, written), fs')
          | (inl _, fs') => (None, fs')
          end
      | _ => (None, fs)
      end
  | _, _, _ => (None, fs)
  end.

Definition ParseDocxBlockFile (file : option DocxBlockFile) : M string :=
  match file with
  | None => panic
  | Some file =>
      fun '(p, fs) =>
        let fileName :=
          if bool_decide (FileName file = EmptyString) then FileToken file
          else FileName file in
        let fileType := fileTypeOf fileName in
        let head := nl +:+ "**附件**: " +:+ fileName +:+ " (" +:+ fileType +:+ ")" +:+ nl +:+ nl in
        match tryDownloadMedia p (FileToken file) fs with
        | (Some (filePath, written), fs') =>
            Ok (head +:+ "**下载成功**: 文件已保存到 `" +:+ filePath
                     +:+ "` (大小: " +:+ itoa written +:+ " bytes)" +:+ nl +:+ nl,
                (p, fs'))
        | (None, fs') =>
            Ok (head +:+ "**文件Token**: `" +:+ FileToken file +:+ "`" +:+ nl +:+ nl
                     +:+ "**提示**: 这是一个" +:+ fileType
                     +:+ "附件，请访问飞书查看原始文件。" +:+ nl +:+ nl,
                (p, fs'))
        end
  end.

(** The Markdown table that the sheet and bitable blocks print. *)
Definition markdownRow (row : list string) : string :=
  "|" +:+ GoStrings.concat (map (fun cell => " " +:+ cell +:+ " |") row) +:+ nl.

Definition markdownTable (values : list (list string)) : string :=
  match values with
  | [] => EmptyString
  | header :: rows =>
      nl +:+ nl +:+ markdownRow header
      +:+ "|" +:+ GoStrings.concat (map (fun _ => " --- |") header) +:+ nl
      +:+ GoStrings.concat (map markdownRow rows)
      +:+ nl
  end.

Definition tokenLine (token : string) : string :=
  if bool_decide (token = EmptyString) then EmptyString
  else "> Token: `" +:+ token +:+ "`" +:+ nl.

Definition placeholder (title token note : string) : string :=
  nl +:+ nl +:+ title +:+ nl +:+ ">" +:+ nl +:+ tokenLine token
  +:+ ">" +:+ nl +:+ note +:+ nl +:+ nl +:+ nl.

Definition ParseDocxBlockSheet (p : Parser) (s : option DocxBlockSheet) : Res string :=
  match s with
  | None => Panic  (* [s.Token] is read on every path *)
  | Some s =>
      let title := "> **📊 嵌入的电子表格**" in
      match client p, bool_decide (SheetToken s = EmptyString) with
      | Some c, false =>
          match GetSheetContent c (SheetToken s) with
          | inl err =>
              let note :=
                if Contains err "invalid spreadsheet token format" then
                  "> *注：此电子表格使用了不支持的嵌入方式，无法获取内容*"
                else if Contains err "91402" || Contains err "NOTEXIST" then
                  "> *注：无法访问电子表格（可能没有权限或电子表格不存在）*"
                else "> *获取电子表格内容失败: " +:+ err +:+ "*" in
              Ok (placeholder title (SheetToken s) note)
          | inr [] => Ok (placeholder title (SheetToken s) "> *电子表格为空*")
          | inr values => Ok (markdownTable values)
          end
      | _, _ =>
          Ok (placeholder title (SheetToken s)
                "> *注：无法获取电子表格内容（缺少 client 或 token）*")
      end
  end.

Definition ParseDocxBlockBitable (p : Parser) (bitable : option DocxBlockBitable) : Res string :=
  match bitable with
  | None => Panic
  | Some bitable =>
      let title := "> **📊 多维表格**" in
      match client p, bool_decide (BitableToken bitable = EmptyString) with
      | Some c, false =>
          match GetBitableContent c (BitableToken bitable) with
          | inl err =>
              Ok (placeholder title (BitableToken bitable)
                    ("> *获取多维表格内容失败: " +:+ err +:+ "*"))
          | inr [] => Ok (placeholder title (BitableToken bitable) "> *多维表格为空*")
          | inr values => Ok (markdownTable values)
          end
      | _, _ =>
          Ok (placeholder title (BitableToken bitable)
                "> *注：无法获取多维表格内容（缺少 client 或 token）*")
      end
  end.

Definition ParseDocxBlockDiagram (diagram : option DocxBlockDiagram) : Res string :=
  match diagram with
  | None => Panic
  | Some diagram =>
      let diagramType := if bool_decide (DiagramType diagram = 2) then "UML图" else "流程图" in
      Ok (nl +:+ nl +:+ "**📈 " +:+ diagramType +:+ "**" +:+ nl +:+ nl
          +:+ "> *注：流程图/UML图无法直接转换为 Markdown，建议导出为图片或使用 Mermaid 语法*" +:+ nl
          +:+ nl +:+ nl)
  end.

Definition iframeTypeNames (t : Z) : option string :=
  if bool_decide (t = 1) then Some "哔哩哔哩"
  else if bool_decide (t = 2) then Some "西瓜视频"
  else if bool_decide (t = 3) then Some "优酷"
  else if bool_decide (t = 4) then Some "Airtable"
  else if bool_decide (t = 5) then Some "百度地图"
  else if bool_decide (t = 6) then Some "高德地图"
  else if bool_decide (t = 7) then Some "TikTok"
  else if bool_decide (t = 8) then Some "Figma"
  else if bool_decide (t = 9) then Some "墨刀"
  else if bool_decide (t = 10) then Some "Canva"
  else if bool_decide (t = 11) then Some "CodePen"
  else if bool_decide (t = 12) then Some "飞书问卷"
  else if bool_decide (t = 13) then Some "金数据"
  else if bool_decide (t = 14) then Some "谷歌地图"
  else if bool_decide (t = 15) then Some "YouTube"
  else if bool_decide (t = 99) then Some "其他"
  else None.

Definition ParseDocxBlockIframe (iframe : option DocxBlockIframe) : Res string :=
  match iframe with
  | None => Panic
  | Some iframe =>
      Ok (nl +:+ nl +:+ "**🔗 嵌入内容**" +:+ nl +:+ nl
          +:+ match Component iframe with
              | Some comp =>
                  let typeName := default "未知类型" (iframeTypeNames (IframeType comp)) in
                  "> 类型: " +:+ typeName +:+ nl
                  +:+ (if bool_decide (IframeURL comp = EmptyString) then EmptyString
                       else ">" +:+ nl +:+ "> 链接: " +:+ IframeURL comp +:+ nl)
              | None => EmptyString
              end
          +:+ ">" +:+ nl
          +:+ "> *注：嵌入内容无法直接在 Markdown 中显示，请访问飞书查看原始内容*" +:+ nl
          +:+ nl +:+ nl)
  end.

(** *** Blocks with children

    The methods below call [ParseDocxBlock] on the children they resolve in
    the block map; [rec] is that recursive call. *)

Section Children.
Variable rec : option DocxBlock -> nat -> M string.

(** [childBlock := p.blockMap[childId]; p.ParseDocxBlock(childBlock, indent)] *)
Definition renderChild (indentLevel : nat) (childId : string) : M string :=
  let* p := getParser in
  rec (blockMap p !! childId) indentLevel.

Definition blockText (t : option DocxBlockText) : M string :=
  let* p := getParser in liftRes (ParseDocxBlockText p t).

Definition ParseDocxBlockPage (b : DocxBlock) : M string :=
  let* t := blockText (Page b) in
  let* cs := writeEach (fun childId =>
                          let* s := renderChild 0 childId in ret (s +:+ nl))
                       (Children b) in
  ret ("# " +:+ t +:+ nl +:+ cs).

Definition ParseDocxBlockCallout (b : DocxBlock) : M string :=
  let* cs := writeEach (renderChild 0) (Children b) in
  ret (">[!TIP] " +:+ nl +:+ cs).

(** [reflect.ValueOf(b).Elem().FieldByName(fmt.Sprintf("Heading%d", level))] *)
Definition headingField (b : DocxBlock) (headingLevel : nat) : Res (option DocxBlockText) :=
  match headingLevel with
  | 1%nat => Ok (Heading1 b) | 2%nat => Ok (Heading2 b) | 3%nat => Ok (Heading3 b)
  | 4%nat => Ok (Heading4 b) | 5%nat => Ok (Heading5 b) | 6%nat => Ok (Heading6 b)
  | 7%nat => Ok (Heading7 b) | 8%nat => Ok (Heading8 b) | 9%nat => Ok (Heading9 b)
  | _ => Panic
  end.

Definition ParseDocxBlockHeading (b : DocxBlock) (headingLevel : nat) : M string :=
  let* headingText := liftRes (headingField b headingLevel) in
  let* t := blockText headingText in
  let* cs := writeEach (renderChild 0) (Children b) in
  ret (Repeat "#" headingLevel +:+ " " +:+ t +:+ cs).

Definition ParseDocxBlockBullet (b : DocxBlock) (indentLevel : nat) : M string :=
  let* t := blockText (Bullet b) in
  let* cs := writeEach (renderChild (indentLevel + 1)) (Children b) in
  ret ("- " +:+ t +:+ cs).

(** The inner loop of the numbering: [for i := idx - 1; i >= 0; i--], with
    [i + 1] iterations left. *)
Fixpoint countOrderedBack (p : Parser) (children : list string) (i : nat) (order : Z) : Res Z :=
  match i with
  | O => Ok order
  | S j =>
      match children !! j with
      | None => Panic
      | Some sibling =>
          match blockMap p !! sibling with
          | None => Panic
          | Some sb =>
              if decide (BlockType sb = DocxBlockTypeOrdered)
              then countOrderedBack p children j (order + 1)
              else Ok order
          end
      end
  end.

(** The outer loop: [for idx, child := range parent.Children], entered at
    [idx] with [rest] still to visit. *)
Fixpoint findOrder (p : Parser) (b : DocxBlock) (children : list string)
    (idx : nat) (rest : list string) : Res Z :=
  match rest with
  | [] => Ok 1
  | child :: rest' =>
      if decide (child = BlockID b)
      then countOrderedBack p children idx 1
      else findOrder p b children (S idx) rest'
  end.

Definition orderOf (p : Parser) (b : DocxBlock) : Res Z :=
  match blockMap p !! ParentID b with
  | None => Panic
  | Some parent => findOrder p b (Children parent) 0 (Children parent)
  end.

Definition ParseDocxBlockOrdered (b : DocxBlock) (indentLevel : nat) : M string :=
  let* p := getParser in
  let* order := liftRes (orderOf p b) in
  let* t := blockText (Ordered b) in
  let* cs := writeEach (renderChild (indentLevel + 1)) (Children b) in
  ret (itoa order +:+ ". " +:+ t +:+ cs).

Definition ParseDocxBlockTableCell (b : DocxBlock) : M string :=
  writeEach (fun child => let* content := renderChild 0 child in
                          ret (content +:+ "<br/>"))
            (Children b).

(** [for i, child := range b.Children], entered at index [i]; [n] is
    [len(b.Children)]. *)
Fixpoint quoteLoop (n : nat) (i : nat) (rest : list string) : M string :=
  match rest with
  | [] => ret EmptyString
  | child :: rest' =>
      let* content := renderChild 0 child in
      let piece := "> " +:+ TrimRightNewlines content +:+ "  "
                   +:+ (if bool_decide (Z.of_nat i < Z.of_nat n - 1) then nl else EmptyString) in
      let* t := quoteLoop n (S i) rest' in
      ret (piece +:+ t)
  end.

Definition ParseDocxBlockQuoteContainer (b : DocxBlock) : M string :=
  quoteLoop (List.length (Children b)) 0 (Children b).

Definition ParseDocxBlockGrid (b : DocxBlock) (indentLevel : nat) : M string :=
  writeEach (fun child =>
               let* p := getParser in
               match blockMap p !! child with
               | None => panic
               | Some columnBlock =>
                   writeEach (renderChild indentLevel) (Children columnBlock)
               end)
            (Children b).

(** *** Tables *)

(** [mergeInfoMap[int64(rowIndex)][int64(colIndex)]]; a missing row, a missing
    entry and a stored nil pointer all read as nil. *)
Definition lookupMerge (m : MergeMap) (rowIndex colIndex : Z)
  : option DocxBlockTablePropertyMergeInfo :=
  match m !! rowIndex with
  | Some row => default None (row !! colIndex)
  | None => None
  end.

(** [for i, merge := range t.Property.MergeInfo], entered at index [i]. *)
Fixpoint mergeLoop (columnSize : Z) (i : Z)
    (l : list (option DocxBlockTablePropertyMergeInfo)) (m : MergeMap) : Res MergeMap :=
  match l with
  | [] => Ok m
  | merge :: l' =>
      if decide (columnSize = 0) then Panic   (* integer divide by zero *)
      else
        let rowIndex := Z.quot i columnSize in
        let colIndex := Z.rem i columnSize in
        let m1 := match m !! rowIndex with
                  | Some _ => m
                  | None => <[rowIndex := ∅]> m
                  end in
        mergeLoop columnSize (i + 1) l'
          (<[rowIndex := <[colIndex := merge]> (default ∅ (m1 !! rowIndex))]> m1)
  end.

(** [for len(l) <= int(index) { l = append(l, zero) }] *)
Definition growTo {A} (zero : A) (l : list A) (index : Z) : list A :=
  l ++ replicate (Z.to_nat (index + 1 - Z.of_nat (List.length l))) zero.

(** An index expression [l[i]]: out of range panics. *)
Definition index {A} (l : list A) (i : Z) : option A :=
  if decide (i < 0) then None else l !! Z.to_nat i.

(** [for i, blockId := range t.Cells], entered at index [i]. *)
Fixpoint cellLoop (columnSize : Z) (i : Z) (cells : list string)
    (rows : list (list string)) : M (list (list string)) :=
  match cells with
  | [] => ret rows
  | blockId :: rest =>
      let* rendered := renderChild 0 blockId in
      let cellContent := dropNewlines rendered in
      if decide (columnSize = 0) then panic   (* integer divide by zero *)
      else
        let rowIndex := Z.quot i columnSize in
        let colIndex := Z.rem i columnSize in
        let rows1 := growTo [] rows rowIndex in
        match index rows1 rowIndex with
        | None => panic
        | Some row =>
            let row1 := growTo EmptyString row colIndex in
            match index row1 colIndex with
            | None => panic
            | Some _ =>
                cellLoop columnSize (i + 1) rest
                  (<[Z.to_nat rowIndex := <[Z.to_nat colIndex := cellContent]> row1]> rows1)
            end
        end
  end.

(** [fmt.Sprintf("%d-%d", rowIndex, colIndex)] *)
Definition cellKey (rowIndex colIndex : Z) : string :=
  itoa rowIndex +:+ "-" +:+ itoa colIndex.

(** The two marking loops over the span of a merge. *)
Definition markSpan (processedCells : gset string) (rowIndex colIndex : Z)
    (mergeInfo : DocxBlockTablePropertyMergeInfo) : gset string :=
  foldl (fun acc r =>
           foldl (fun acc c => {[cellKey r c]} ∪ acc) acc
                 (seqZ colIndex (ColSpan mergeInfo)))
        processedCells (seqZ rowIndex (RowSpan mergeInfo)).

Definition spanAttributes (mergeInfo : DocxBlockTablePropertyMergeInfo) : string :=
  (if decide (1 < RowSpan mergeInfo)
   then " rowspan=" +:+ dquote +:+ itoa (RowSpan mergeInfo) +:+ dquote
   else EmptyString)
  +:+
  (if decide (1 < ColSpan mergeInfo)
   then " colspan=" +:+ dquote +:+ itoa (ColSpan mergeInfo) +:+ dquote
   else EmptyString).

(** [for colIndex, cellContent := range row], entered at [colIndex]. *)
Fixpoint emitRow (m : MergeMap) (rowIndex colIndex : Z) (row : list string)
    (processedCells : gset string) : string * gset string :=
  match row with
  | [] => (EmptyString, processedCells)
  | cellContent :: rest =>
      if decide (cellKey rowIndex colIndex ∈ processedCells)
      then emitRow m rowIndex (colIndex + 1) rest processedCells
      else
        match lookupMerge m rowIndex colIndex with
        | Some mergeInfo =>
            let td := "<td" +:+ spanAttributes mergeInfo +:+ ">" +:+ cellContent +:+ "</td>" in
            let '(out, pc) := emitRow m rowIndex (colIndex + 1) rest
                                (markSpan processedCells rowIndex colIndex mergeInfo) in
            (td +:+ out, pc)
        | None =>
            let '(out, pc) := emitRow m rowIndex (colIndex + 1) rest processedCells in
            ("<td>" +:+ cellContent +:+ "</td>" +:+ out, pc)
        end
  end.

(** [for rowIndex, row := range rows], entered at [rowIndex]. *)
Fixpoint emitRows (m : MergeMap) (rowIndex : Z) (rows : list (list string))
    (processedCells : gset string) : string :=
  match rows with
  | [] => EmptyString
  | row :: rest =>
      let '(out, pc) := emitRow m rowIndex 0 row processedCells in
      "<tr>" +:+ nl +:+ out +:+ "</tr>" +:+ nl +:+ emitRows m (rowIndex + 1) rest pc
  end.

Definition renderHTMLTable (m : MergeMap) (rows : list (list string)) : string :=
  "<table>" +:+ nl +:+ emitRows m 0 rows ∅ +:+ "</table>" +:+ nl.

Definition ParseDocxBlockTable (t : option DocxBlockTable) : M string :=
  match t with
  | None => panic
  | Some t =>
      match Property t with
      | None => panic
      | Some prop =>
          let* mergeInfoMap := liftRes (mergeLoop (ColumnSize prop) 0 (MergeInfo prop) ∅) in
          let* rows := cellLoop (ColumnSize prop) 0 (Cells t) [] in
          ret (renderHTMLTable mergeInfoMap rows)
      end
  end.

(** *** The dispatcher *)

Definition ParseDocxBlockBody (b : DocxBlock) (indentLevel : nat) : M string :=
  match BlockType b with
  | DocxBlockTypePage => ParseDocxBlockPage b
  | DocxBlockTypeText => blockText (Text b)
  | DocxBlockTypeCallout => ParseDocxBlockCallout b
  | DocxBlockTypeHeading1 => ParseDocxBlockHeading b 1
  | DocxBlockTypeHeading2 => ParseDocxBlockHeading b 2
  | DocxBlockTypeHeading3 => ParseDocxBlockHeading b 3
  | DocxBlockTypeHeading4 => ParseDocxBlockHeading b 4
  | DocxBlockTypeHeading5 => ParseDocxBlockHeading b 5
  | DocxBlockTypeHeading6 => ParseDocxBlockHeading b 6
  | DocxBlockTypeHeading7 => ParseDocxBlockHeading b 7
  | DocxBlockTypeHeading8 => ParseDocxBlockHeading b 8
  | DocxBlockTypeHeading9 => ParseDocxBlockHeading b 9
  | DocxBlockTypeBullet => ParseDocxBlockBullet b indentLevel
  | DocxBlockTypeOrdered => ParseDocxBlockOrdered b indentLevel
  | DocxBlockTypeCode =>
      match Code b with
      | None => panic
      | Some code =>
          match Style code with
          | None => panic
          | Some style =>
              let* t := blockText (Code b) in
              ret ("```" +:+ DocxCodeLang2MdStr (Language style) +:+ nl
                   +:+ TrimSpace t +:+ nl +:+ "```" +:+ nl)
          end
      end
  | DocxBlockTypeQuote =>
      let* t := blockText (Quote b) in ret ("> " +:+ t)
  | DocxBlockTypeEquation =>
      let* t := blockText (BlockEquation b) in
      ret ("$$" +:+ nl +:+ t +:+ nl +:+ "$$" +:+ nl)
  | DocxBlockTypeTodo =>
      match Todo b with
      | None => panic
      | Some todo =>
          match Style todo with
          | None => panic
          | Some style =>
              let* t := blockText (Todo b) in
              ret ((if Done style then "- [x] " else "- [ ] ") +:+ t)
          end
      end
  | DocxBlockTypeDivider => ret ("---" +:+ nl)
  | DocxBlockTypeImage => ParseDocxBlockImage (Image b)
  | DocxBlockTypeFile => ParseDocxBlockFile (File b)
  | DocxBlockTypeBitable =>
      let* p := getParser in liftRes (ParseDocxBlockBitable p (Bitable b))
  | DocxBlockTypeDiagram => liftRes (ParseDocxBlockDiagram (Diagram b))
  | DocxBlockTypeIframe => liftRes (ParseDocxBlockIframe (Iframe b))
  | DocxBlockTypeTableCell => ParseDocxBlockTableCell b
  | DocxBlockTypeTable => ParseDocxBlockTable (Table b)
  | DocxBlockTypeSheet =>
      let* p := getParser in liftRes (ParseDocxBlockSheet p (Sheet b))
  | DocxBlockTypeQuoteContainer => ParseDocxBlockQuoteContainer b
  | DocxBlockTypeGrid => ParseDocxBlockGrid b indentLevel
  | DocxBlockTypeGridColumn | DocxBlockTypeUndefined _ =>
      (* an unsupported block type still has its children processed *)
      writeEach (renderChild indentLevel) (Children b)
  end.

End Children.

(** [ParseDocxBlock]: the indent prefix, then the case of the block type.
    [fuel] bounds the depth of the calls.  The indent level is a natural
    number: the program starts at 0 and only ever adds 1. *)
Fixpoint ParseDocxBlock (fuel : nat) (b : option DocxBlock) (indentLevel : nat) : M string :=
  match fuel with
  | O => outOfFuel
  | S fuel' =>
      match b with
      | None => panic   (* [b.BlockType] on a nil block *)
      | Some b =>
          let* body := ParseDocxBlockBody (ParseDocxBlock fuel') b indentLevel in
          ret (Repeat tab indentLevel +:+ body)
      end
  end.

(** [for _, block := range blocks { p.blockMap[block.BlockID] = block }],
    for a list of blocks without nil pointers. *)
Definition indexBlocks (m : gmap string DocxBlock) (blocks : list DocxBlock)
  : gmap string DocxBlock :=
  foldl (fun m block => <[BlockID block := block]> m) m blocks.

Definition ParseDocxContent (fuel : nat) (doc : DocxDocument) (blocks : list DocxBlock)
  : M string :=
  fun '(p, fs) =>
    let p' := setBlockMap (indexBlocks (blockMap p) blocks) p in
    ParseDocxBlock fuel (blockMap p' !! DocumentID doc) 0 (p', fs).

End WithRuntime.

(** ** Specification-side vocabulary *)

(** The visual wrappers of a text run, in the order of the specification. *)
Inductive Wrapper : Type :=
  | WBold | WItalic | WStrikethrough | WUnderline | WInlineCode
  | WLink (url : string).

(** Position in the priority order: bold, italic, strikethrough, underline,
    inline code, link. *)
Definition priority (w : Wrapper) : nat :=
  match w with
  | WBold => 0 | WItalic => 1 | WStrikethrough => 2
  | WUnderline => 3 | WInlineCode => 4 | WLink _ => 5
  end.

(** The flags that a style sets, as a collection. *)
Definition flagsOf (style : DocxTextElementStyle) : list Wrapper :=
  (if InlineCode style then [WInlineCode] else [])
  ++ (match Link style with Some l => [WLink (URL l)] | None => [] end)
  ++ (if Underline style then [WUnderline] else [])
  ++ (if Bold style then [WBold] else [])
  ++ (if Strikethrough style then [WStrikethrough] else [])
  ++ (if Italic style then [WItalic] else []).

Section Delimiters.
Context `{GoRuntime}.

(** The delimiters of a wrapper.  The mode selects between Markdown and HTML
    for bold, italic and strikethrough only: underline is the tag [<u>] in
    both modes (Markdown has no underline), inline code is a pair of
    backticks in both modes and a link is [[content](url)], with the URL
    unescaped, in both modes. *)
Definition openDelim (html : bool) (w : Wrapper) : string :=
  match w with
  | WBold => if html then "<strong>" else "**"
  | WItalic => if html then "<em>" else "_"
  | WStrikethrough => if html then "<del>" else "~~"
  | WUnderline => "<u>"
  | WInlineCode => backtick
  | WLink _ => "["
  end.

Definition closeDelim (html : bool) (w : Wrapper) : string :=
  match w with
  | WBold => if html then "</strong>" else "**"
  | WItalic => if html then "</em>" else "_"
  | WStrikethrough => if html then "</del>" else "~~"
  | WUnderline => "</u>"
  | WInlineCode => backtick
  | WLink url => "](" +:+ UnescapeURL url +:+ ")"
  end.

End Delimiters.

(** The names under which a placeholder file shows the type of the remote
    file to its reader: a mind map, a file, a sheet, a multi-dimensional
    table; a type that is not listed is shown as a file. *)
Definition fileTypeNames : gmap string string :=
  list_to_map [ ("mindnote", "思维导图"); ("file", "文件"); ("sheet", "表格");
                ("bitable", "多维表格") ].
Definition fileTypeName (objType : string) : string :=
  default "文件" (fileTypeNames !! objType).

(** Text that begins like an HTML tag. *)
Definition isHTMLTag (s : string) : bool := HasPrefix s "<".

(** The mode of a wrapped run as the specification words it for every flag:
    Markdown delimiters normally, HTML tags when the HTML-tag mode is
    configured, so that a wrapped run begins with a tag in that mode and in
    that mode only. *)
Definition wrappedAsSpecified (html : bool) (out : string) : Prop :=
  isHTMLTag out = html.

(** ** Package [core], the client: downloading a standalone file *)

Section ClientDownload.
Context `{GoRuntime}.

(** What a Go function of type [(string, error)] returns; [None] is the nil
    error. *)
Definition PathResult : Type := string * option string.

Definition fileTypeDescription (objType : string) : string :=
  if bool_decide (objType = "mindnote") then "思维导图"
  else if bool_decide (objType = "file") then "文件"
  else if bool_decide (objType = "sheet") then "表格"
  else if bool_decide (objType = "bitable") then "多维表格"
  else "文件".

Definition placeholderContent (fileToken objType title : string) : string :=
  let fileType := fileTypeDescription objType in
  ("# " +:+ title +:+ nl +:+ nl +:+ "**文件类型**: " +:+ fileType +:+ nl +:+ nl)
  +:+ ("**文件Token**: `" +:+ fileToken +:+ "`" +:+ nl +:+ nl)
  +:+ ("**提示**: 这是一个" +:+ fileType +:+ "文件，无法直接转换为Markdown。" +:+ nl +:+ nl)
  +:+ ("请访问飞书查看原始文件: [点击打开](" +:+ "https://jinniuai.feishu.cn/"
       +:+ objType +:+ "/" +:+ fileToken +:+ ")" +:+ nl).

(** [createFilePlaceholder]: a Markdown file named after the title, with a
    link to the original file. *)
Definition createFilePlaceholder (fileToken outDir objType title : string) (fs : FS)
  : PathResult * FS :=
  let mdFilename := title +:+ ".md" in
  let mdPath := filepath_Join outDir mdFilename in
  match os_MkdirAll_err outDir with
  | Some err => ((EmptyString, Some err), fs)
  | None =>
      let content := placeholderContent fileToken objType title in
      match os_WriteFile_err mdPath with
      | Some err => ((EmptyString, Some err), fs)
      | None => ((mdPath, None), <[mdPath := content]> fs)
      end
  end.

(** The end of [DownloadFile], once a response with a file was obtained. *)
Definition saveDownloaded (fileToken outDir respFilename bytes : string) (fs : FS)
  : PathResult * FS :=
  let filename :=
    if bool_decide (respFilename = EmptyString) then fileToken else respFilename in
  let filePath := filepath_Join outDir filename in
  match copyToFile filePath bytes fs with
  | (inl err, fs') => ((EmptyString, Some err), fs')
  | (inr _, fs') => ((filePath, None), fs')
  end.

(** [DownloadFile]: [DownloadDriveFile] first, [DownloadDriveMedia] as the
    fallback, the placeholder when neither gives a file. *)
Definition DownloadFile (c : Client) (fileToken outDir objType title : string) (fs : FS)
  : PathResult * FS :=
  match DownloadDriveFile c fileToken with
  | DownloadErr _ =>
      match DownloadDriveMedia c fileToken with
      | DownloadErr _ => createFilePlaceholder fileToken outDir objType title fs
      | DownloadNil => createFilePlaceholder fileToken outDir objType title fs
      | DownloadOk filename bytes => saveDownloaded fileToken outDir filename bytes fs
      end
  | DownloadNil => createFilePlaceholder fileToken outDir objType title fs
  | DownloadOk filename bytes => saveDownloaded fileToken outDir filename bytes fs
  end.

End ClientDownload.

(** ** Package [main]: the crawl

    [downloadDocuments] and [downloadWiki] list a remote hierarchy on the main
    goroutine and start one goroutine per leaf.  The listing is a function of
    what the remote side answers; the goroutines, the unbuffered error
    channel, the wait group and the semaphore are a transition system whose
    steps interleave freely. *)

Module Crawl.

(** A leaf task: the arguments of [downloadDocument] or of [downloadFile]. *)
Inductive Job : Type :=
  | DocJob (url outputDir : string)
  | FileJob (objToken title outputDir objType : string).

#[export] Instance Job_eq_dec : EqDecision Job.
Proof. solve_decision. Defined.

(** A drive folder as the remote side lists it: the answer of
    [GetDriveFolderFileList] for the folder, and for each file of type
    folder the answer for that folder. *)
Inductive FolderListing : Type :=
  | ListingErr (err : string)
  | ListingOk (files : list DriveFile)
with DriveFile : Type :=
  | mkDriveFile (Type_ Name Token URL : string) (contents : FolderListing).

(** A wiki as the remote side lists it: the answer of [GetWikiNodeList] for a
    parent, and for each node the answer for its children. *)
Inductive NodeListing : Type :=
  | NodesErr (err : string)
  | NodesOk (nodes : list WikiNode)
with WikiNode : Type :=
  | mkWikiNode (ObjType NodeToken ObjToken Title : string) (HasChild : bool)
               (children : NodeListing).

(** What a listing does on the main goroutine: the leaf tasks it dispatches,
    in order, and the error it returns, if any. *)
Definition Listed : Type := list Job * option string.

Section Listing.
Context `{GoRuntime}.

(** [processFolder]: a sub-folder is processed before the files after it, and
    its error ends the listing. *)
Fixpoint processFolder (folderPath : string) (listing : FolderListing) : Listed :=
  match listing with
  | ListingErr err => ([], Some err)
  | ListingOk files =>
      (fix range (files : list DriveFile) : Listed :=
         match files with
         | [] => ([], None)
         | mkDriveFile ty name token url contents :: rest =>
             if bool_decide (ty = "folder") then
               match processFolder (filepath_Join folderPath name) contents with
               | (jobs, Some err) => (jobs, Some err)
               | (jobs, None) =>
                   let '(jobs', r) := range rest in ((jobs ++ jobs')%list, r)
               end
             else if bool_decide (ty = "docx") then
               let '(jobs', r) := range rest in (DocJob url folderPath :: jobs', r)
             else range rest
         end) files
  end.

(** [downloadWikiNode]: the node's own document or file first, then its
    children. *)
Fixpoint downloadWikiNode (prefixURL folderPath : string) (listing : NodeListing)
  : Listed :=
  match listing with
  | NodesErr err => ([], Some err)
  | NodesOk nodes =>
      (fix range (nodes : list WikiNode) : Listed :=
         match nodes with
         | [] => ([], None)
         | mkWikiNode objType nodeToken objToken title hasChild children :: rest =>
             let own :=
               if bool_decide (objType = "docx") then
                 [DocJob (prefixURL +:+ "/wiki/" +:+ nodeToken) folderPath]
               else if bool_decide (objType = "mindnote") || bool_decide (objType = "file")
                       || bool_decide (objType = "sheet") || bool_decide (objType = "bitable")
               then [FileJob objToken title folderPath objType]
               else [] in
             let '(below, r) :=
               if hasChild
               then downloadWikiNode prefixURL (filepath_Join folderPath title) children
               else ([], None) in
             match r with
             | Some err => ((own ++ below)%list, Some err)
             | None =>
                 let '(jobs', r') := range rest in
                 ((own ++ below ++ jobs')%list, r')
             end
         end) nodes
  end.

End Listing.

(** *** The goroutines *)

Inductive Phase : Type :=
  | Running                    (* in [downloadDocument] or [downloadFile] *)
  | Sending (err : string)     (* blocked in [errChan <- err] *)
  | Finishing                  (* before [wg.Done()] *)
  | Releasing                  (* before [<-semaphore] *)
  | Finished.

Inductive MainPc : Type :=
  | Listing (todo : list Job) (result : option string)
  | Ranging                    (* in [for err := range errChan] *)
  | Returned (r : option string).

Inductive CloserPc : Type :=
  | NotStarted
  | AwaitingWg                 (* in [wg.Wait()] *)
  | Exited.                    (* after [close(errChan)] *)

Record State : Type := {
  main : MainPc;
  tasks : list (Job * Phase);
  wg : nat;
  semaphore : nat;             (* elements in the buffered channel *)
  closer : CloserPc;
  received : list string;      (* what the main goroutine took from [errChan] *)
  disk : list Job              (* the outputs written by the tasks *)
}.

Definition maxConcurrency : nat := 10.

Section Steps.
(** [bound] is the capacity of the semaphore; the folder walk has none. *)
Variable bound : option nat.
(** What [downloadDocument] or [downloadFile] returns for a leaf task: [None]
    is the nil error.  A task that returns nil has written its output. *)
Variable outcome : Job -> option string.

Definition setTask (i : nat) (t : Job * Phase) (s : State) : State :=
  {| main := main s; tasks := <[i := t]> (tasks s); wg := wg s;
     semaphore := semaphore s; closer := closer s; received := received s;
     disk := disk s |}.

Inductive step : State -> State -> Prop :=
  | step_dispatch s j todo result :
      main s = Listing (j :: todo) result ->
      (* [semaphore <- struct{}{}] waits while the channel is full *)
      (match bound with Some cap => (semaphore s < cap)%nat | None => True end) ->
      step s {| main := Listing todo result;
                tasks := tasks s ++ [(j, Running)];
                wg := S (wg s);
                semaphore := match bound with
                             | Some _ => S (semaphore s)
                             | None => semaphore s
                             end;
                closer := closer s; received := received s; disk := disk s |}
  | step_listing_failed s err :
      main s = Listing [] (Some err) ->
      step s {| main := Returned (Some err); tasks := tasks s; wg := wg s;
                semaphore := semaphore s; closer := closer s;
                received := received s; disk := disk s |}
  | step_listing_done s :
      main s = Listing [] None ->
      step s {| main := Ranging; tasks := tasks s; wg := wg s;
                semaphore := semaphore s; closer := AwaitingWg;
                received := received s; disk := disk s |}
  | step_task_succeeds s i j :
      tasks s !! i = Some (j, Running) ->
      outcome j = None ->
      step s {| main := main s; tasks := <[i := (j, Finishing)]> (tasks s);
                wg := wg s; semaphore := semaphore s; closer := closer s;
                received := received s; disk := disk s ++ [j] |}
  | step_task_fails s i j err :
      tasks s !! i = Some (j, Running) ->
      outcome j = Some err ->
      step s (setTask i (j, Sending err) s)
  | step_receive s i j err :
      tasks s !! i = Some (j, Sending err) ->
      main s = Ranging ->
      step s {| main := Returned (Some err);
                tasks := <[i := (j, Finishing)]> (tasks s);
                wg := wg s; semaphore := semaphore s; closer := closer s;
                received := received s ++ [err]; disk := disk s |}
  | step_done s i j :
      tasks s !! i = Some (j, Finishing) ->
      step s {| main := main s;
                tasks := <[i := (j, match bound with
                                    | Some _ => Releasing
                                    | None => Finished
                                    end)]> (tasks s);
                wg := pred (wg s); semaphore := semaphore s; closer := closer s;
                received := received s; disk := disk s |}
  | step_release s i j :
      tasks s !! i = Some (j, Releasing) ->
      step s {| main := main s; tasks := <[i := (j, Finished)]> (tasks s);
                wg := wg s; semaphore := pred (semaphore s); closer := closer s;
                received := received s; disk := disk s |}
  | step_close s :
      closer s = AwaitingWg ->
      wg s = 0%nat ->
      step s {| main := main s; tasks := tasks s; wg := wg s;
                semaphore := semaphore s; closer := Exited;
                received := received s; disk := disk s |}
  | step_range_closed s :
      main s = Ranging ->
      closer s = Exited ->
      step s {| main := Returned None; tasks := tasks s; wg := wg s;
                semaphore := semaphore s; closer := closer s;
                received := received s; disk := disk s |}.

(** The state in which the listing starts. *)
Definition start (listed : Listed) (disk0 : list Job) : State :=
  {| main := Listing listed.1 listed.2; tasks := []; wg := 0; semaphore := 0;
     closer := NotStarted; received := []; disk := disk0 |}.

Definition reachable (listed : Listed) (disk0 : list Job) (s : State) : Prop :=
  rtc step (start listed disk0) s.

End Steps.

(** A task that holds a slot of the semaphore, from its dispatch to its
    release: a task that is running in the sense of the concurrency bound. *)
Definition inFlight (t : Job * Phase) : bool :=
  match t.2 with
  | Finished => false
  | _ => true
  end.

(** A task that has not called [wg.Done()] yet. *)
Definition pending (t : Job * Phase) : bool :=
  match t.2 with
  | Running | Sending _ | Finishing => true
  | _ => false
  end.

(** A task that is past its send on the error channel, or never had one. *)
Definition pastSend (t : Job * Phase) : bool :=
  match t.2 with
  | Finishing | Releasing | Finished => true
  | _ => false
  end.

Fixpoint countIf {A} (f : A -> bool) (l : list A) : nat :=
  match l with
  | [] => 0
  | x :: r => (if f x then 1 else 0) + countIf f r
  end.

(** *** The two walks, from the URL *)

(** What the remote side and the URL checks of [utils] answer. *)
Record WikiNodeInfo : Type := { SpaceID : string }.

Record Remote : Type := {
  ValidateFolderURL : string -> string + string;
  GetDriveFolderFileList : string -> FolderListing;
  ValidateWikiURL : string -> string + string * string;
  GetWikiName : string -> string + string;
  GetWikiNodeInfo : string -> string + WikiNodeInfo;
  GetWikiNodeList : string -> NodeListing
}.

Section Walks.
Context `{GoRuntime}.
Variable remote : Remote.
(** [dlOpts.outputDir] *)
Variable outputDir : string.

(** [downloadDocuments] up to the end of the listing: an error of the URL
    check is returned before any task is dispatched, like an error of the
    first listing. *)
Definition downloadDocuments (url : string) : Listed :=
  match ValidateFolderURL remote url with
  | inl err => ([], Some err)
  | inr folderToken =>
      processFolder outputDir (GetDriveFolderFileList remote folderToken)
  end.

(** [downloadWiki] up to the end of the listing. *)
Definition downloadWiki (url : string) : Listed :=
  match ValidateWikiURL remote url with
  | inl err => ([], Some err)
  | inr (prefixURL, wikiToken) =>
      let space :=
        match GetWikiName remote wikiToken with
        | inr _ => inr wikiToken
        | inl _ =>
            match GetWikiNodeInfo remote wikiToken with
            | inl err => inl ("failed to get wiki node info: " +:+ err)
            | inr node =>
                if bool_decide (SpaceID node = EmptyString)
                then inl "node does not have a space_id"
                else inr (SpaceID node)
            end
        end in
      match space with
      | inl err => ([], Some err)
      | inr spaceID =>
          match GetWikiName remote spaceID with
          | inl err => ([], Some err)
          | inr folderPath =>
              if bool_decide (folderPath = EmptyString)
              then ([], Some "failed to GetWikiName")
              else downloadWikiNode prefixURL (filepath_Join outputDir folderPath)
                     (GetWikiNodeList remote spaceID)
          end
      end
  end.

End Walks.

(** *** Invariants of the walk *)

(** A task past its send either succeeded, and its output is on disk, or
    failed, and then an error was received. *)
Definition settled (outcome : Job -> option string) (s : State) (t : Job * Phase)
  : Prop :=
  match t.2 with
  | Running => True
  | Sending err => outcome t.1 = Some err
  | Finishing | Releasing | Finished =>
      (outcome t.1 = None ∧ t.1 ∈ disk s)
      ∨ (outcome t.1 ≠ None ∧ received s ≠ [])
  end.

Record Inv (bound : option nat) (outcome : Job -> option string) (listed : Listed)
    (s : State) : Prop := {
  inv_main :
    match main s with
    | Listing todo r =>
        ((tasks s).*1 ++ todo)%list = listed.1 ∧ r = listed.2
        ∧ closer s = NotStarted ∧ received s = []
    | Ranging =>
        (tasks s).*1 = listed.1 ∧ listed.2 = None
        ∧ closer s ≠ NotStarted ∧ received s = []
    | Returned r =>
        (∃ err, listed.2 = Some err ∧ r = Some err ∧ received s = []
                ∧ closer s = NotStarted)
        ∨ (listed.2 = None ∧ (tasks s).*1 = listed.1 ∧ closer s ≠ NotStarted
           ∧ ((∃ err j, r = Some err ∧ received s = [err]
                        ∧ j ∈ listed.1 ∧ outcome j = Some err)
              ∨ (r = None ∧ received s = [] ∧ closer s = Exited)))
    end;
  inv_wg : wg s = countIf pending (tasks s);
  inv_semaphore :
    match bound with
    | Some cap =>
        semaphore s = countIf inFlight (tasks s) ∧ (semaphore s ≤ cap)%nat
    | None => semaphore s = 0%nat
    end;
  inv_settled : Forall (settled outcome s) (tasks s);
  inv_closed : closer s = Exited → wg s = 0%nat
}.

(** A task that is executing [downloadDocument] or [downloadFile]. *)
Definition isRunning (t : Job * Phase) : bool :=
  match t.2 with
  | Running => true
  | _ => false
  end.

Section WalkStates.
Context `{GoRuntime}.
Variable remote : Remote.
Variable outputDir : string.
Variable outcome : Job -> option string.

(** The states that the wiki walk reaches: the semaphore has
    [maxConcurrency] slots. *)
Definition wikiWalk (url : string) (disk0 : list Job) (s : State) : Prop :=
  reachable (Some maxConcurrency) outcome (downloadWiki remote outputDir url) disk0 s.

(** The states that the folder walk reaches: there is no semaphore. *)
Definition folderWalk (url : string) (disk0 : list Job) (s : State) : Prop :=
  reachable None outcome (downloadDocuments remote outputDir url) disk0 s.

End WalkStates.

(** *** Remote hierarchies used to exercise the walks *)

(** A document in a drive folder. *)
Definition docFile (url : string) : DriveFile :=
  mkDriveFile "docx" "d" "t" url (ListingOk []).

(** A drive whose root folder holds [n] documents. *)
Definition flatFolder (url : string) (n : nat) : Remote :=
  {| ValidateFolderURL := fun _ => inr "root";
     GetDriveFolderFileList := fun _ => ListingOk (replicate n (docFile url));
     ValidateWikiURL := fun _ => inl "not a wiki";
     GetWikiName := fun _ => inl "not a wiki";
     GetWikiNodeInfo := fun _ => inl "not a wiki";
     GetWikiNodeList := fun _ => NodesOk [] |}.

(** A drive whose root folder holds one document and one sub-folder that
    cannot be listed. *)
Definition brokenFolder : Remote :=
  {| ValidateFolderURL := fun _ => inr "root";
     GetDriveFolderFileList := fun _ =>
       ListingOk [ docFile "a";
                   mkDriveFile "folder" "sub" "f" EmptyString
                     (ListingErr "listing failed") ];
     ValidateWikiURL := fun _ => inl "not a wiki";
     GetWikiName := fun _ => inl "not a wiki";
     GetWikiNodeInfo := fun _ => inl "not a wiki";
     GetWikiNodeList := fun _ => NodesOk [] |}.

(** A wiki space with [n] document nodes without children. *)
Definition flatWiki (n : nat) : Remote :=
  {| ValidateFolderURL := fun _ => inl "not a folder";
     GetDriveFolderFileList := fun _ => ListingErr "not a folder";
     ValidateWikiURL := fun _ => inr ("https://x", "space");
     GetWikiName := fun _ => inr "Wiki";
     GetWikiNodeInfo := fun _ => inl "unused";
     GetWikiNodeList := fun _ =>
       NodesOk (replicate n (mkWikiNode "docx" "n" "o" "t" false (NodesOk []))) |}.

(** Five leaf tasks of which the third fails. *)
Definition job (k : string) : Job := DocJob k "out".
Definition fiveJobs : list Job := [job "1"; job "2"; job "3"; job "4"; job "5"].
Definition thirdFails (j : Job) : option string :=
  if decide (j = job "3") then Some "task 3 failed" else None.
Definition fiveDocs : Remote :=
  {| ValidateFolderURL := fun _ => inr "root";
     GetDriveFolderFileList := fun _ =>
       ListingOk [docFile "1"; docFile "2"; docFile "3"; docFile "4"; docFile "5"];
     ValidateWikiURL := fun _ => inl "not a wiki";
     GetWikiName := fun _ => inl "not a wiki";
     GetWikiNodeInfo := fun _ => inl "not a wiki";
     GetWikiNodeList := fun _ => NodesOk [] |}.

(** The state in which the walk over [fiveDocs] has returned the error of
    the third task after the four others wrote their outputs. *)
Definition afterFive : State :=
  {| main := Returned (Some "task 3 failed");
     tasks := [ (job "1", Finished); (job "2", Finished); (job "3", Finishing);
                (job "4", Finished); (job "5", Finished) ];
     wg := 1; semaphore := 0; closer := AwaitingWg;
     received := ["task 3 failed"];
     disk := [job "1"; job "2"; job "4"; job "5"] |}.

(** The state in which the walk over [brokenFolder] has returned. *)
Definition afterBroken : State :=
  {| main := Returned (Some "listing failed");
     tasks := [ (job "a", Sending "download failed") ];
     wg := 1; semaphore := 0; closer := NotStarted;
     received := []; disk := [] |}.

(** Ten tasks blocked in their send while the listing waits for a slot. *)
Definition wikiJob : Job := DocJob "https://x/wiki/n" "out/Wiki".
Definition stuck : State :=
  {| main := Listing [wikiJob] None;
     tasks := replicate 10 (wikiJob, Sending "download failed");
     wg := 10; semaphore := 10; closer := NotStarted;
     received := []; disk := [] |}.

End Crawl.

(** ** Vocabulary for stating the renderer's properties *)

(** The renderings of a list of items, in order. *)
Fixpoint collect {A} (f : A -> M string) (l : list A) : M (list string) :=
  match l with
  | [] => ret []
  | x :: r =>
      let* s := f x in
      let* t := collect f r in
      ret (s :: t)
  end.

(** Pieces joined by a separator: after every piece except the last. *)
Fixpoint joinStr (sep : string) (l : list string) : string :=
  match l with
  | [] => EmptyString
  | [x] => x
  | x :: r => x +:+ sep +:+ joinStr sep r
  end.

(** One line of a quote container: the quote marker, the child's rendering
    without its trailing newlines, and the two spaces of a hard break. *)
Definition quoteLine (content : string) : string :=
  "> " +:+ TrimRightNewlines content +:+ "  ".

(** The same line as the specification words it, without the marker. *)
Definition quoteLineAsSpecified (content : string) : string :=
  TrimRightNewlines content +:+ "  ".

(** The identifiers on which the rendering of a block calls [ParseDocxBlock],
    in the order of the calls. *)
Definition renderedChildren (p : Parser) (b : DocxBlock) : list string :=
  match BlockType b with
  | DocxBlockTypePage | DocxBlockTypeCallout
  | DocxBlockTypeHeading1 | DocxBlockTypeHeading2 | DocxBlockTypeHeading3
  | DocxBlockTypeHeading4 | DocxBlockTypeHeading5 | DocxBlockTypeHeading6
  | DocxBlockTypeHeading7 | DocxBlockTypeHeading8 | DocxBlockTypeHeading9
  | DocxBlockTypeBullet | DocxBlockTypeOrdered | DocxBlockTypeTableCell
  | DocxBlockTypeQuoteContainer | DocxBlockTypeGridColumn
  | DocxBlockTypeUndefined _ => Children b
  | DocxBlockTypeGrid =>
      flat_map (fun column =>
                  match blockMap p !! column with
                  | Some columnBlock => Children columnBlock
                  | None => []
                  end)
               (Children b)
  | DocxBlockTypeTable =>
      match Table b with
      | Some t => Cells t
      | None => []
      end
  | _ => []
  end.

(** The order in which a rendering reaches blocks: a block, then what is
    reached from each block that its case renders, depth first, as deep as
    [fuel] calls go.  This is not the whole document tree: the children of a
    block whose case renders none (text, todo, quote, code, image, ...) are
    not reached. *)
Fixpoint renderingOrder (fuel : nat) (p : Parser) (b : DocxBlock) : list DocxBlock :=
  match fuel with
  | O => []
  | S fuel' =>
      b :: flat_map (fun id =>
                       match blockMap p !! id with
                       | Some child => renderingOrder fuel' p child
                       | None => []
                       end)
                    (renderedChildren p b)
  end.

(** Document traversal order, as the specification words it: a block, then
    the traversals of all the blocks listed in its [Children], depth first. *)
Fixpoint documentOrder (fuel : nat) (p : Parser) (b : DocxBlock) : list DocxBlock :=
  match fuel with
  | O => []
  | S fuel' =>
      b :: flat_map (fun id =>
                       match blockMap p !! id with
                       | Some child => documentOrder fuel' p child
                       | None => []
                       end)
                    (Children b)
  end.

Definition imageTokenOf (b : DocxBlock) : list string :=
  match BlockType b, Image b with
  | DocxBlockTypeImage, Some img => [ImageToken img]
  | _, _ => []
  end.

(** The resource tokens of the image blocks of a list of blocks, one token per
    image block, in the order of the list. *)
Definition imageTokens (l : list DocxBlock) : list string :=
  flat_map imageTokenOf l.

(** The tokens of the image blocks that the rendering of an entry block
    reaches; a nil entry reaches none. *)
Definition entryTokens (fuel : nat) (cfg : Parser) (b : option DocxBlock) : list string :=
  match b with
  | Some b => imageTokens (renderingOrder fuel cfg b)
  | None => []
  end.

(** Two parsers that differ at most in the image tokens they have collected. *)
Definition sameConfiguration (p q : Parser) : Prop :=
  client q = client p ∧ useHTMLTags q = useHTMLTags p
  ∧ blockMap q = blockMap p ∧ ctx q = ctx p ∧ outputDir q = outputDir p.

(** A computation that, on every state of the parser with the configuration
    [cfg] (client, HTML mode, block map, context, output directory), ends the
    same way, returns the same value, changes nothing of the parser but the
    image tokens and appends exactly [new] to them. *)
Definition emits {A} (cfg : Parser) (m : M A) (new : list string) : Prop :=
  ∃ out : Res A, ∀ (toks : list string) (fs : FS),
    match out with
    | Ok a =>
        ∃ fs', m (setImgTokens toks cfg, fs)
               = Ok (a, (setImgTokens (toks ++ new) cfg, fs'))
    | Panic => m (setImgTokens toks cfg, fs) = Panic
    | OutOfFuel => m (setImgTokens toks cfg, fs) = OutOfFuel
    end.

(** A computation that returns on no state with the configuration [cfg]. *)
Definition fails {A} (cfg : Parser) (m : M A) : Prop :=
  ∀ (toks : list string) (fs : FS) r, m (setImgTokens toks cfg, fs) ≠ Ok r.

(** The block types whose case renders the blocks listed in [Children]. *)
Definition rendersChildren (ty : DocxBlockType) : bool :=
  match ty with
  | DocxBlockTypePage | DocxBlockTypeCallout
  | DocxBlockTypeHeading1 | DocxBlockTypeHeading2 | DocxBlockTypeHeading3
  | DocxBlockTypeHeading4 | DocxBlockTypeHeading5 | DocxBlockTypeHeading6
  | DocxBlockTypeHeading7 | DocxBlockTypeHeading8 | DocxBlockTypeHeading9
  | DocxBlockTypeBullet | DocxBlockTypeOrdered | DocxBlockTypeTableCell
  | DocxBlockTypeQuoteContainer | DocxBlockTypeGrid | DocxBlockTypeGridColumn
  | DocxBlockTypeUndefined _ => true
  | _ => false
  end.

(** The list items whose children are rendered one level deeper. *)
Definition nestsChildren (ty : DocxBlockType) : bool :=
  match ty with
  | DocxBlockTypeBullet | DocxBlockTypeOrdered => true
  | _ => false
  end.

(** Whether an identifier resolves to a block of the ordered type. *)
Definition isOrderedId (p : Parser) (id : string) : bool :=
  match blockMap p !! id with
  | Some sb => bool_decide (BlockType sb = DocxBlockTypeOrdered)
  | None => false
  end.

(** How many elements at the head of a list satisfy a test, up to the first
    that does not. *)
Fixpoint leadingRun {A} (f : A -> bool) (l : list A) : nat :=
  match l with
  | [] => 0
  | x :: r => if f x then S (leadingRun f r) else 0
  end.

(** The consecutive ordered siblings immediately before a block, given the
    siblings [pre] that precede it: the scan goes backwards from the block
    and stops at the first sibling that is not ordered. *)
Definition precedingOrdered (p : Parser) (pre : list string) : nat :=
  leadingRun (isOrderedId p) (reverse pre).

(** *** The table layout, as the specification words it *)

(** Row [r] of the grid holds the cells [r * cols], ..., [r * cols + cols - 1]:
    the [i]-th cell is at position ([i] div [cols], [i] mod [cols]). *)
Definition gridRows (cols : nat) (contents : list string) : list (list string) :=
  (fun r => take cols (drop (r * cols) contents))
    <$> seq 0 ((List.length contents + cols - 1) / cols).

(** A cell that was emitted with a merge entry, and the span it covers. *)
Definition Anchor : Type := Z * Z * DocxBlockTablePropertyMergeInfo.

Definition inSpan (a : Anchor) (r c : Z) : bool :=
  let '(r0, c0, mergeInfo) := a in
  bool_decide (r0 ≤ r < r0 + RowSpan mergeInfo)
  && bool_decide (c0 ≤ c < c0 + ColSpan mergeInfo).

(** A position is covered when it lies in the span of an earlier merge. *)
Definition covered (anchors : list Anchor) (r c : Z) : bool :=
  existsb (fun a => inSpan a r c) anchors.

Section SpecTable.
Variable merge : Z -> Z -> option DocxBlockTablePropertyMergeInfo.

Fixpoint specRow (r c : Z) (row : list string) (anchors : list Anchor)
  : string * list Anchor :=
  match row with
  | [] => (EmptyString, anchors)
  | cellContent :: rest =>
      if covered anchors r c then specRow r (c + 1) rest anchors
      else
        match merge r c with
        | Some mergeInfo =>
            let '(out, anchors') := specRow r (c + 1) rest ((r, c, mergeInfo) :: anchors) in
            ("<td" +:+ spanAttributes mergeInfo +:+ ">" +:+ cellContent +:+ "</td>" +:+ out,
             anchors')
        | None =>
            let '(out, anchors') := specRow r (c + 1) rest anchors in
            ("<td>" +:+ cellContent +:+ "</td>" +:+ out, anchors')
        end
  end.

Fixpoint specRows (r : Z) (rows : list (list string)) (anchors : list Anchor) : string :=
  match rows with
  | [] => EmptyString
  | row :: rest =>
      let '(out, anchors') := specRow r 0 row anchors in
      "<tr>" +:+ nl +:+ out +:+ "</tr>" +:+ nl +:+ specRows (r + 1) rest anchors'
  end.

Definition specTable (rows : list (list string)) : string :=
  "<table>" +:+ nl +:+ specRows 0 rows [] +:+ "</table>" +:+ nl.

End SpecTable.

(** A string without the separator of the cell keys. *)
Fixpoint noDash (s : string) : Prop :=
  match s with
  | EmptyString => True
  | String c r => c ≠ "-"%char ∧ noDash r
  end.

(** The processed keys are the positions covered by the anchors. *)
Definition tracksCover (processedCells : gset string) (anchors : list Anchor) : Prop :=
  Forall (fun a => 0 ≤ a.1.1) anchors
  ∧ ∀ r c, 0 ≤ r → cellKey r c ∈ processedCells ↔ covered anchors r c = true.

(** The merge entry of a grid position, read from the flat list of the table
    property: entry [r * cols + c]. *)
Definition mergeAt (prop : DocxBlockTableProperty) (r c : Z)
  : option DocxBlockTablePropertyMergeInfo :=
  if decide (0 ≤ r ∧ 0 ≤ c < ColumnSize prop)
  then default None (MergeInfo prop !! Z.to_nat (r * ColumnSize prop + c))
  else None.

(** The content of a table cell: its rendering at indent 0 without the
    newlines. *)
Definition cellContentOf (rec : option DocxBlock -> nat -> M string) (blockId : string)
  : M string :=
  let* rendered := renderChild rec 0 blockId in
  ret (dropNewlines rendered).

(** The last, partly filled row of a grid under construction. *)
Definition tailRow (part : list string) : list (list string) :=
  match part with [] => [] | _ => [part] end.

(** ** Vocabulary for the stack bound and for well-formed documents *)

(** [m'] ends as [m] does wherever [m] does not stop at the stack bound. *)
Definition refines {A} (m m' : M A) : Prop :=
  ∀ st, m st ≠ OutOfFuel → m' st = m st.

(** A computation that returns on every state with the configuration. *)
Definition succeeds {A} (cfg : Parser) (m : M A) : Prop :=
  ∀ (toks : list string) (fs : FS), ∃ r, m (setImgTokens toks cfg, fs) = Ok r.

(** The payload that the case of the block's type reads from the block is
    there: the text of a block with text (with its style for code and todo,
    which the case reads), the image, file, sheet, ... of the other types,
    the table with its property. *)
Definition payloadPresent (b : DocxBlock) : Prop :=
  match BlockType b with
  | DocxBlockTypePage => is_Some (Page b)
  | DocxBlockTypeText => is_Some (Text b)
  | DocxBlockTypeHeading1 => is_Some (Heading1 b)
  | DocxBlockTypeHeading2 => is_Some (Heading2 b)
  | DocxBlockTypeHeading3 => is_Some (Heading3 b)
  | DocxBlockTypeHeading4 => is_Some (Heading4 b)
  | DocxBlockTypeHeading5 => is_Some (Heading5 b)
  | DocxBlockTypeHeading6 => is_Some (Heading6 b)
  | DocxBlockTypeHeading7 => is_Some (Heading7 b)
  | DocxBlockTypeHeading8 => is_Some (Heading8 b)
  | DocxBlockTypeHeading9 => is_Some (Heading9 b)
  | DocxBlockTypeBullet => is_Some (Bullet b)
  | DocxBlockTypeOrdered => is_Some (Ordered b)
  | DocxBlockTypeCode => ∃ t, Code b = Some t ∧ is_Some (Style t)
  | DocxBlockTypeQuote => is_Some (Quote b)
  | DocxBlockTypeEquation => is_Some (BlockEquation b)
  | DocxBlockTypeTodo => ∃ t, Todo b = Some t ∧ is_Some (Style t)
  | DocxBlockTypeImage => is_Some (Image b)
  | DocxBlockTypeFile => is_Some (File b)
  | DocxBlockTypeBitable => is_Some (Bitable b)
  | DocxBlockTypeDiagram => is_Some (Diagram b)
  | DocxBlockTypeIframe => is_Some (Iframe b)
  | DocxBlockTypeSheet => is_Some (Sheet b)
  | DocxBlockTypeTable => ∃ t, Table b = Some t ∧ is_Some (Property t)
  | _ => True
  end.

(** What the case of three block types needs beyond the payload.  The
    numbering of an ordered item reads its parent and the siblings before
    it: the parent is in the index and the identifiers that the parent lists
    resolve.  A table divides by its column count: the count is positive.
    A grid reads its columns: they resolve. *)
Definition caseNeeds (p : Parser) (b : DocxBlock) : Prop :=
  match BlockType b with
  | DocxBlockTypeOrdered =>
      ∃ parent, blockMap p !! ParentID b = Some parent
                ∧ Forall (fun id => is_Some (blockMap p !! id)) (Children parent)
  | DocxBlockTypeTable =>
      ∀ t prop, Table b = Some t → Property t = Some prop → 0 < ColumnSize prop
  | DocxBlockTypeGrid =>
      Forall (fun column => is_Some (blockMap p !! column)) (Children b)
  | _ => True
  end.

(** A well-formed block: its payload is there, its case has what it needs,
    and every identifier that its case renders resolves to a well-formed
    block.  The definition is inductive: the blocks reached from a
    well-formed block form a finite tree. *)
Inductive WellFormed (p : Parser) : DocxBlock → Prop :=
  | WellFormed_block (b : DocxBlock) :
      payloadPresent b →
      caseNeeds p b →
      AllWellFormed p (renderedChildren p b) →
      WellFormed p b
with AllWellFormed (p : Parser) : list string → Prop :=
  | AllWellFormed_nil : AllWellFormed p []
  | AllWellFormed_cons (id : string) (child : DocxBlock) (rest : list string) :
      blockMap p !! id = Some child →
      WellFormed p child →
      AllWellFormed p rest →
      AllWellFormed p (id :: rest).

Scheme WellFormed_mut := Minimality for WellFormed Sort Prop
  with AllWellFormed_mut := Minimality for AllWellFormed Sort Prop.

(** The same down to a depth: the block and what is reached from it within
    [depth] nested calls. *)
Fixpoint wellFormedWithin (depth : nat) (p : Parser) (b : DocxBlock) : Prop :=
  match depth with
  | O => False
  | S depth' =>
      payloadPresent b
      ∧ caseNeeds p b
      ∧ Forall (fun id => match blockMap p !! id with
                          | Some child => wellFormedWithin depth' p child
                          | None => False
                          end)
               (renderedChildren p b)
  end.



(** ** Concrete documents

    The documents on which the properties are exercised.  [plainRuntime] is a
    runtime in which no operating-system call fails and the string helpers
    leave plain ASCII text as it is. *)

Module Fixtures.

Definition plainRuntime : GoRuntime :=
  {| UnescapeURL := fun s => s; TrimSpace := fun s => s; ToLower := fun s => s;
     filepath_Join := fun a b => a +:+ "/" +:+ b; filepath_Dir := fun s => s;
     os_MkdirAll_err := fun _ => None; os_OpenFile_err := fun _ => None;
     io_Copy_err := fun _ => None; os_WriteFile_err := fun _ => None |}.

Definition sel (ty ty' : DocxBlockType) (t : option DocxBlockText)
  : option DocxBlockText :=
  if decide (ty = ty') then t else None.

(** A block of type [ty] whose text payload, if the type has one, is [t]. *)
Definition mkBlock (id parent : string) (children : list string)
    (ty : DocxBlockType) (t : option DocxBlockText) : DocxBlock :=
  {| BlockID := id; ParentID := parent; Children := children; BlockType := ty;
     Page := sel ty DocxBlockTypePage t; Text := sel ty DocxBlockTypeText t;
     Heading1 := sel ty DocxBlockTypeHeading1 t;
     Heading2 := sel ty DocxBlockTypeHeading2 t;
     Heading3 := sel ty DocxBlockTypeHeading3 t;
     Heading4 := sel ty DocxBlockTypeHeading4 t;
     Heading5 := sel ty DocxBlockTypeHeading5 t;
     Heading6 := sel ty DocxBlockTypeHeading6 t;
     Heading7 := sel ty DocxBlockTypeHeading7 t;
     Heading8 := sel ty DocxBlockTypeHeading8 t;
     Heading9 := sel ty DocxBlockTypeHeading9 t;
     Bullet := sel ty DocxBlockTypeBullet t;
     Ordered := sel ty DocxBlockTypeOrdered t;
     Code := sel ty DocxBlockTypeCode t;
     Quote := sel ty DocxBlockTypeQuote t;
     BlockEquation := sel ty DocxBlockTypeEquation t;
     Todo := sel ty DocxBlockTypeTodo t;
     Image := None; File := None; Bitable := None; Diagram := None;
     Iframe := None; Table := None; Sheet := None |}.

Definition tableBlock (id parent : string) (t : DocxBlockTable) : DocxBlock :=
  {| BlockID := id; ParentID := parent; Children := Cells t;
     BlockType := DocxBlockTypeTable;
     Page := None; Text := None; Heading1 := None; Heading2 := None;
     Heading3 := None; Heading4 := None; Heading5 := None; Heading6 := None;
     Heading7 := None; Heading8 := None; Heading9 := None; Bullet := None;
     Ordered := None; Code := None; Quote := None; BlockEquation := None;
     Todo := None; Image := None; File := None; Bitable := None;
     Diagram := None; Iframe := None; Table := Some t; Sheet := None |}.

Definition run (s : string) : DocxTextElement :=
  {| TextRun := Some {| Content := s; TextElementStyle := None |};
     MentionUser := None; MentionDoc := None; Equation := None |}.

Definition txt (s : string) : option DocxBlockText :=
  Some {| Style := Some {| Done := false; Language := DocxCodeLanguagePlainText |};
          Elements := [run s] |}.

Definition parserOf (blocks : list DocxBlock) : Parser :=
  setBlockMap (indexBlocks ∅ blocks) (NewParser {| UseHTMLTags := false |} None).

(** A page whose first child identifier does not resolve. *)
Definition danglingPage : DocxBlock :=
  mkBlock "doc" EmptyString ["missing"; "c"] DocxBlockTypePage (txt "T").
Definition danglingBlocks : list DocxBlock :=
  [ danglingPage; mkBlock "c" "doc" [] DocxBlockTypeText (txt "kept") ].

(** Siblings ordered, ordered, bullet, ordered under one page. *)
Definition o1 := mkBlock "o1" "doc" [] DocxBlockTypeOrdered (txt "one").
Definition o2 := mkBlock "o2" "doc" [] DocxBlockTypeOrdered (txt "two").
Definition u3 := mkBlock "u3" "doc" [] DocxBlockTypeBullet (txt "dot").
Definition o4 := mkBlock "o4" "doc" [] DocxBlockTypeOrdered (txt "again").
Definition listPage : DocxBlock :=
  mkBlock "doc" EmptyString ["o1"; "o2"; "u3"; "o4"] DocxBlockTypePage (txt "T").
Definition listBlocks : list DocxBlock := [listPage; o1; o2; u3; o4].

(** A bullet with one text child; a todo with one text child; a block of a
    type without a case, with one text child. *)
Definition bulletItem := mkBlock "b" "doc" ["c"] DocxBlockTypeBullet (txt "Item").
Definition todoItem := mkBlock "t" "doc" ["c"] DocxBlockTypeTodo (txt "task").
Definition unknownItem := mkBlock "x" "b" ["c"] (DocxBlockTypeUndefined 999) None.
Definition childText := mkBlock "c" "b" [] DocxBlockTypeText (txt "child").
Definition nestedBlocks : list DocxBlock :=
  [bulletItem; todoItem; unknownItem; childText].

(** A quote container with one text child. *)
Definition quoteBox := mkBlock "q" "doc" ["c"] DocxBlockTypeQuoteContainer None.
Definition quoteBlocks : list DocxBlock :=
  [quoteBox; mkBlock "c" "q" [] DocxBlockTypeText (txt "a")].

(** A 2 x 2 table whose cell (0, 0) spans both rows. *)
Definition span (r c : Z) : option DocxBlockTablePropertyMergeInfo :=
  Some {| RowSpan := r; ColSpan := c |}.
Definition table22Property : DocxBlockTableProperty :=
  {| ColumnSize := 2; MergeInfo := [span 2 1; span 1 1; span 1 1; span 1 1] |}.
Definition table22 : DocxBlockTable :=
  {| Cells := ["ca"; "cb"; "cc"; "cd"]; Property := Some table22Property |}.
Definition cell (id child : string) : DocxBlock :=
  mkBlock id "tbl" [child] DocxBlockTypeTableCell None.
Definition tableBlocks : list DocxBlock :=
  [ tableBlock "tbl" "doc" table22;
    cell "ca" "ta"; cell "cb" "tb"; cell "cc" "tc"; cell "cd" "td";
    mkBlock "ta" "ca" [] DocxBlockTypeText (txt "A");
    mkBlock "tb" "cb" [] DocxBlockTypeText (txt "B");
    mkBlock "tc" "cc" [] DocxBlockTypeText (txt "C");
    mkBlock "td" "cd" [] DocxBlockTypeText (txt "D") ].
Definition table22Expected : string :=
  "<table>" +:+ nl +:+ "<tr>" +:+ nl
  +:+ "<td rowspan=" +:+ dquote +:+ "2" +:+ dquote +:+ ">A<br/></td>"
  +:+ "<td>B<br/></td>" +:+ "</tr>" +:+ nl
  +:+ "<tr>" +:+ nl +:+ "<td>D<br/></td>" +:+ "</tr>" +:+ nl
  +:+ "</table>" +:+ nl.

(** A parser in HTML-tag mode, and text runs that set two flags: inline code
    with a link, and underline with inline code. *)
Definition htmlParser : Parser := NewParser {| UseHTMLTags := true |} None.
Definition codeLinkStyle : DocxTextElementStyle :=
  {| Bold := false; Italic := false; Strikethrough := false; Underline := false;
     InlineCode := true; Link := Some {| URL := "u" |} |}.
Definition underlinedCodeStyle : DocxTextElementStyle :=
  {| Bold := false; Italic := false; Strikethrough := false; Underline := true;
     InlineCode := true; Link := None |}.
(** The run [x] whose style sets the flag of one wrapper only. *)
Definition runWith (w : Wrapper) : DocxTextElementTextRun :=
  {| Content := "x";
     TextElementStyle :=
       Some {| Bold := match w with WBold => true | _ => false end;
               Italic := match w with WItalic => true | _ => false end;
               Strikethrough := match w with WStrikethrough => true | _ => false end;
               Underline := match w with WUnderline => true | _ => false end;
               InlineCode := match w with WInlineCode => true | _ => false end;
               Link := match w with
                       | WLink url => Some {| URL := url |}
                       | _ => None
                       end |} |}.
Definition codeLinkRun : DocxTextElementTextRun :=
  {| Content := "x"; TextElementStyle := Some codeLinkStyle |}.
Definition underlinedCodeRun : DocxTextElementTextRun :=
  {| Content := "x"; TextElementStyle := Some underlinedCodeStyle |}.

(** A page with an image, and a todo that lists a second image among its
    children. *)
Definition imageBlock (id parent token : string) : DocxBlock :=
  {| BlockID := id; ParentID := parent; Children := [];
     BlockType := DocxBlockTypeImage;
     Page := None; Text := None; Heading1 := None; Heading2 := None;
     Heading3 := None; Heading4 := None; Heading5 := None; Heading6 := None;
     Heading7 := None; Heading8 := None; Heading9 := None; Bullet := None;
     Ordered := None; Code := None; Quote := None; BlockEquation := None;
     Todo := None; Image := Some {| ImageToken := token |}; File := None;
     Bitable := None; Diagram := None; Iframe := None; Table := None;
     Sheet := None |}.
Definition picturePage : DocxBlock :=
  mkBlock "doc" EmptyString ["i1"; "t"] DocxBlockTypePage (txt "T").
Definition pictureBlocks : list DocxBlock :=
  [ picturePage; imageBlock "i1" "doc" "I1";
    mkBlock "t" "doc" ["i2"] DocxBlockTypeTodo (txt "task");
    imageBlock "i2" "t" "I2" ].
Definition pictureDocument : DocxDocument :=
  {| DocumentID := "doc"; RevisionID := 1; Title := "T" |}.
Definition newParser : Parser := NewParser {| UseHTMLTags := false |} None.

(** A client for which both download calls fail. *)
Definition failingClient : Client :=
  {| DownloadDriveFile := fun _ => DownloadErr "403 forbidden";
     DownloadDriveMedia := fun _ => DownloadErr "404 not found";
     GetSheetContent := fun _ => inl "unavailable";
     GetBitableContent := fun _ => inl "unavailable" |}.

End Fixtures.


(** * The rest of the client and of the download command

    The methods of [core.Client] that page through a remote listing or
    convert a remote table, [Client.DownloadImage], and the loop of
    [downloadDocument] that rewrites the image links. *)

(** ** More of Go's [strings] *)

Module GoStringsExt.

(** [strings.Replace s old new 1]: the leftmost occurrence of [old] becomes
    [new]; an empty [old] matches at the beginning of the string. *)
Fixpoint Replace1 (s old new : string) : string :=
  if String.prefix old s then new +:+ dropBytes (String.length old) s
  else
    match s with
    | EmptyString => EmptyString
    | String c r => String c (Replace1 r old new)
    end.

(** [strings.ReplaceAll s "\n" "<br>"] *)
Fixpoint newlinesToBr (s : string) : string :=
  match s with
  | EmptyString => EmptyString
  | String c r =>
      if is_nl c then "<br>" +:+ newlinesToBr r else String c (newlinesToBr r)
  end.

Definition is_underscore (c : ascii) : bool := Ascii.eqb c "_"%char.

(** [strings.LastIndex s "_"]: the offset of the last underscore, or -1. *)
Fixpoint LastIndexUnderscore (s : string) : Z :=
  match s with
  | EmptyString => -1
  | String c r =>
      let i := LastIndexUnderscore r in
      if decide (i = -1) then (if is_underscore c then 0 else -1) else i + 1
  end.

(** The slice [s[:n]]. *)
Fixpoint takeBytes (n : nat) (s : string) : string :=
  match n, s with
  | O, _ => EmptyString
  | S k, EmptyString => EmptyString
  | S k, String c r => String c (takeBytes k r)
  end.

(** [fmt.Sprintf] of a boolean with the verb t. *)
Definition btoa (b : bool) : string := if b then "true" else "false".

End GoStringsExt.
Import GoStringsExt.

(** Further library calls that are parameters of the development. *)
Class GoLibrary : Type := {
  (** [filepath.Ext] *)
  filepath_Ext : string -> string;
  (** [http.NewRequestWithContext] refusing a URL; [None] is success *)
  http_NewRequest_err : string -> option string;
  (** [float64], and [fmt.Sprintf] with the verb g *)
  float64 : Type;
  Sprintf_g : float64 -> string;
  (** a value behind [interface{}], and [fmt.Sprintf] with the verb v *)
  any : Type;
  Sprintf_v : any -> string
}.

(** ** Package [core], the client: listings and tables

    A call of the lark SDK answers with a response or with an error; the
    answer is a function of the request.  A response that comes without an
    error is not nil. *)

Module CoreClient.

(** One page of a listing: its items ([Files] in the drive listing), whether
    more pages follow, and the token of the next page ([NextPageToken] in the
    drive listing). *)
Record Page (A : Type) : Type := {
  Items : list A;
  HasMore : bool;
  PageToken : string
}.
Arguments Items {A} _.
Arguments HasMore {A} _.
Arguments PageToken {A} _.

(** What a method of type [([]T, error)] returns. *)
Definition ListResult (A : Type) : Type := string + list A.

Section GetWikiNodeList.
Context {Node : Type}.
(** [c.larkClient.Drive.GetWikiNodeList] by [SpaceID], [PageToken] and
    [ParentNodeToken]. *)
Variable Drive_GetWikiNodeList :
  string -> option string -> option string -> string + Page Node.

(** The loop of [GetWikiNodeList].  Its body declares a response and an error
    of its own with [:=]; the [resp] that the loop condition reads and whose
    page token is sent is the first response, in every iteration. *)
Fixpoint wikiNodePages (fuel : nat) (spaceID : string) (parentNodeToken : option string)
    (resp : Page Node) (nodes : list Node) (previousPageToken : string)
  : Res (ListResult Node) :=
  if HasMore resp && negb (bool_decide (previousPageToken = PageToken resp)) then
    match fuel with
    | O => OutOfFuel
    | S fuel' =>
        let previousPageToken := PageToken resp in
        match Drive_GetWikiNodeList spaceID (Some (PageToken resp)) parentNodeToken with
        | inl err => Ok (inl err)
        | inr resp' =>
            wikiNodePages fuel' spaceID parentNodeToken resp
              (nodes ++ Items resp') previousPageToken
        end
    end
  else Ok (inr nodes).

Definition GetWikiNodeList (fuel : nat) (spaceID : string)
    (parentNodeToken : option string) : Res (ListResult Node) :=
  match Drive_GetWikiNodeList spaceID None parentNodeToken with
  | inl err => Ok (inl err)
  | inr resp =>
      wikiNodePages fuel spaceID parentNodeToken resp (Items resp) EmptyString
  end.

End GetWikiNodeList.

Section GetDriveFolderFileList.
Context {File : Type}.
(** [c.larkClient.Drive.GetDriveFileList] by [PageToken] and [FolderToken]. *)
Variable Drive_GetDriveFileList :
  option string -> option string -> string + Page File.

(** [for resp.HasMore]: here the response is assigned with [=], so every
    iteration reads the page it fetched. *)
Fixpoint fileListPages (fuel : nat) (folderToken : option string)
    (resp : Page File) (files : list File) : Res (ListResult File) :=
  if HasMore resp then
    match fuel with
    | O => OutOfFuel
    | S fuel' =>
        match Drive_GetDriveFileList (Some (PageToken resp)) folderToken with
        | inl err => Ok (inl err)
        | inr resp' => fileListPages fuel' folderToken resp' (files ++ Items resp')
        end
    end
  else Ok (inr files).

Definition GetDriveFolderFileList (fuel : nat) (pageToken folderToken : option string)
  : Res (ListResult File) :=
  match Drive_GetDriveFileList pageToken folderToken with
  | inl err => Ok (inl err)
  | inr resp => fileListPages fuel folderToken resp (Items resp)
  end.

End GetDriveFolderFileList.

Section GetDocxContent.
(** [c.larkClient.Drive.GetDocxDocument] by [DocumentID]: the document of the
    response. *)
Variable Drive_GetDocxDocument : string -> string + DocxDocument.
(** [c.larkClient.Drive.GetDocxBlockListOfDocument] by [DocumentID] and
    [PageToken]. *)
Variable Drive_GetDocxBlockListOfDocument :
  string -> option string -> string + Page DocxBlock.

(** The loop [for { ... if !resp2.HasMore { break } }]. *)
Fixpoint docxBlockPages (fuel : nat) (documentID : string) (pageToken : option string)
    (blocks : list DocxBlock) : Res (ListResult DocxBlock) :=
  match fuel with
  | O => OutOfFuel
  | S fuel' =>
      match Drive_GetDocxBlockListOfDocument documentID pageToken with
      | inl err => Ok (inl err)
      | inr resp2 =>
          let blocks := (blocks ++ Items resp2)%list in
          if HasMore resp2
          then docxBlockPages fuel' documentID (Some (PageToken resp2)) blocks
          else Ok (inr blocks)
      end
  end.

(** What [GetDocxContent] returns: the document or nil, the blocks or nil,
    and the error or nil. *)
Definition DocxContent : Type := option DocxDocument * list DocxBlock * option string.

Definition GetDocxContent (fuel : nat) (docToken : string) : Res DocxContent :=
  match Drive_GetDocxDocument docToken with
  | inl err => Ok (None, [], Some err)
  | inr document =>
      let docx := {| DocumentID := DocumentID document;
                     RevisionID := RevisionID document;
                     Title := Title document |} in
      match docxBlockPages fuel (DocumentID docx) None [] with
      | Ok (inl err) => Ok (Some docx, [], Some err)
      | Ok (inr blocks) => Ok (Some docx, blocks, None)
      | Panic => Panic
      | OutOfFuel => OutOfFuel
      end
  end.

End GetDocxContent.

(** *** The content of an embedded sheet *)

Section Tables.
Context `{GoLibrary}.

(** An element of the values of a drop-down cell, by its dynamic type. *)
Inductive MultiValueItem : Type :=
  | ItemString (val : string)
  | ItemBool (val : bool)
  | ItemFloat64 (val : float64)
  | ItemInt (val : Z)
  | ItemInt64 (val : Z)
  | ItemOther (val : any).

(** [lark.SheetContent]: the fields that [GetSheetContent] reads; the link,
    formula and mention fields are given by their [Text]. *)
Record SheetContent : Type := {
  CellString : option string;
  CellInt : option Z;
  CellFloat : option float64;
  CellLink : option string;
  CellFormula : option string;
  CellAtUser : option string;
  CellAtDoc : option string;
  CellMultiValue : option (list MultiValueItem)
}.

Record SheetValueRange : Type := { Values : list (list SheetContent) }.

Definition itemText (v : MultiValueItem) : string :=
  match v with
  | ItemString val => val
  | ItemBool val => btoa val
  | ItemFloat64 val => Sprintf_g val
  | ItemInt val => itoa val
  | ItemInt64 val => itoa val
  | ItemOther val => Sprintf_v val
  end.

(** The chain of tests on a cell; the first field that is set decides. *)
Definition cellText (cell : SheetContent) : string :=
  match CellString cell with
  | Some s => newlinesToBr s
  | None =>
  match CellInt cell with
  | Some n => itoa n
  | None =>
  match CellFloat cell with
  | Some f => Sprintf_g f
  | None =>
  match CellLink cell with
  | Some text => text
  | None =>
  match CellFormula cell with
  | Some text => text
  | None =>
  match CellAtUser cell with
  | Some text => text
  | None =>
  match CellAtDoc cell with
  | Some text => text
  | None =>
  match CellMultiValue cell with
  | Some (v :: vs) => joinStr ", " (map itemText (v :: vs))
  | _ => EmptyString
  end end end end end end end end.

(** [c.larkClient.Drive.BatchGetSheetValue] by [SpreadSheetToken] and
    [Ranges]: the value ranges of the response. *)
Variable Drive_BatchGetSheetValue :
  string -> list string -> string + list SheetValueRange.

(** [GetSheetContent] after the token was split. *)
Definition sheetValues (spreadsheetToken sheetID : string) : string + list (list string) :=
  let url := "https://open.feishu.cn/open-apis/sheets/v4/spreadsheets/"
             +:+ spreadsheetToken +:+ "/values:batchGet" in
  match http_NewRequest_err url with
  | Some err => inl ("failed to create request: " +:+ err)
  | None =>
      match Drive_BatchGetSheetValue spreadsheetToken [sheetID] with
      | inl err => inl ("failed to get sheet values: " +:+ err)
      | inr [] => inl "no value ranges found"
      | inr (range0 :: _) =>
          match Values range0 with
          | [] => inl "sheet is empty"
          | values => inr (map (map cellText) values)
          end
      end
  end.

(** [GetSheetContent]: the token is the spreadsheet token, an underscore and
    the sheet id.  (The request body is a map of strings, whose encoding does
    not fail.) *)
Definition GetSheetContent (sheetToken : string) : string + list (list string) :=
  let lastUnderscore := LastIndexUnderscore sheetToken in
  if decide (lastUnderscore = -1) then
    inl ("invalid sheet token format (missing underscore separator): " +:+ sheetToken)
  else
    let spreadsheetToken := takeBytes (Z.to_nat lastUnderscore) sheetToken in
    let sheetID := dropBytes (Z.to_nat (lastUnderscore + 1)) sheetToken in
    sheetValues spreadsheetToken sheetID.

(** *** The content of a bitable *)

Record BitableField : Type := { FieldName : string; FieldID : string }.
Record BitableRecord : Type := { Fields : gmap string any }.

(** [c.larkClient.Bitable.GetBitableFieldList] and [GetBitableRecordList] by
    [AppToken] and [TableID]: the items of the response. *)
Variable Bitable_GetBitableFieldList : string -> string -> string + list BitableField.
Variable Bitable_GetBitableRecordList : string -> string -> string + list BitableRecord.

(** One data row: a cell per field, empty where the record has no value. *)
Definition recordRow (fields : list BitableField) (record : BitableRecord) : list string :=
  map (fun field =>
         match Fields record !! FieldID field with
         | Some value => Sprintf_v value
         | None => EmptyString
         end)
      fields.

Definition GetBitableContent (bitableToken : string) : string + list (list string) :=
  let lastUnderscore := LastIndexUnderscore bitableToken in
  if decide (lastUnderscore = -1) then
    inl ("invalid bitable token format (missing underscore separator): " +:+ bitableToken)
  else
    let appToken := takeBytes (Z.to_nat lastUnderscore) bitableToken in
    let tableID := dropBytes (Z.to_nat (lastUnderscore + 1)) bitableToken in
    match Bitable_GetBitableFieldList appToken tableID with
    | inl err => inl ("failed to get bitable fields: " +:+ err)
    | inr fieldItems =>
        match Bitable_GetBitableRecordList appToken tableID with
        | inl err => inl ("failed to get bitable records: " +:+ err)
        | inr recordItems =>
            let result :=
              match fieldItems with
              | [] => []
              | _ => [map FieldName fieldItems]
              end in
            inr (result ++ map (recordRow fieldItems) recordItems)%list
        end
    end.

End Tables.

(** *** Images *)

Section Images.
Context `{GoRuntime} `{GoLibrary}.

(** [DownloadImage]: the media is stored as the token with the extension of
    the remote file name.  The response is read without a test for nil. *)
Definition DownloadImage (c : Client) (imgToken outDir : string) (fs : FS)
  : Res (PathResult * FS) :=
  match DownloadDriveMedia c imgToken with
  | DownloadErr err => Ok ((imgToken, Some err), fs)
  | DownloadNil => Panic
  | DownloadOk respFilename bytes =>
      let fileext := filepath_Ext respFilename in
      let filename := outDir +:+ "/" +:+ imgToken +:+ fileext in
      match copyToFile filename bytes fs with
      | (inl err, fs') => Ok ((imgToken, Some err), fs')
      | (inr _, fs') => Ok ((filename, None), fs')
      end
  end.

End Images.

End CoreClient.

(** ** Package [main]: the image links of a document, and [downloadFile] *)

Section DownloadDocument.
Context `{GoRuntime} `{GoLibrary}.

(** The loop of [downloadDocument] over [parser.ImgTokens]: each image is
    downloaded into [imageDir] and the first occurrence of its token in the
    Markdown becomes the local path.  The result is the error that
    [downloadDocument] returns ([inl]) or the Markdown after the loop
    ([inr]). *)
Fixpoint localizeImages (c : Client) (imageDir : string) (ImgTokens : list string)
    (markdown : string) (fs : FS) : Res ((string + string) * FS) :=
  match ImgTokens with
  | [] => Ok (inr markdown, fs)
  | imgToken :: rest =>
      match CoreClient.DownloadImage c imgToken imageDir fs with
      | Ok ((localLink, None), fs') =>
          localizeImages c imageDir rest (Replace1 markdown imgToken localLink) fs'
      | Ok ((_, Some err), fs') => Ok (inl err, fs')
      | Panic => Panic
      | OutOfFuel => OutOfFuel
      end
  end.

(** [downloadFile]: the error of [DownloadFile] is wrapped with the title;
    the path is only printed. *)
Definition downloadFile (c : Client) (nodeToken title outputDir objType : string)
    (fs : FS) : option string * FS :=
  match DownloadFile c nodeToken outputDir objType title fs with
  | ((_, Some err), fs') =>
      (Some ("failed to download file " +:+ title +:+ ": " +:+ err), fs')
  | ((_, None), fs') => (None, fs')
  end.

End DownloadDocument.

(** ** Vocabulary for the properties of the client and of the image loop *)

(** The pages that the remote side answers from a page token on, each page
    naming the next, up to a page after which no more follow ([None]) or up
    to an error ([Some err]). *)
Inductive pagesFrom {A : Type} (ask : option string -> string + CoreClient.Page A)
  : option string -> list (CoreClient.Page A) -> option string -> Prop :=
  | pages_err tok err :
      ask tok = inl err →
      pagesFrom ask tok [] (Some err)
  | pages_last tok resp :
      ask tok = inr resp →
      CoreClient.HasMore resp = false →
      pagesFrom ask tok [resp] None
  | pages_more tok resp rest e :
      ask tok = inr resp →
      CoreClient.HasMore resp = true →
      pagesFrom ask (Some (CoreClient.PageToken resp)) rest e →
      pagesFrom ask tok (resp :: rest) e.

(** The items of a list of pages, in order. *)
Definition itemsOf {A : Type} (pages : list (CoreClient.Page A)) : list A :=
  List.concat (map CoreClient.Items pages).

(** No occurrence of [old] in [s +:+ rest] begins inside [s]. *)
Fixpoint clearOf (old s rest : string) : bool :=
  match s with
  | EmptyString => true
  | String c r => negb (String.prefix old (s +:+ rest)) && clearOf old r rest
  end.

(** A string without underscore. *)
Fixpoint noUnderscore (s : string) : bool :=
  match s with
  | EmptyString => true
  | String c r => negb (is_underscore c) && noUnderscore r
  end.

(** The number of newline bytes of a string. *)
Fixpoint countNl (s : string) : nat :=
  match s with
  | EmptyString => 0
  | String c r => (if is_nl c then 1 else 0) + countNl r
  end.

(** The last block of a list that carries an identifier. *)
Definition lastWithID (id : string) (blocks : list DocxBlock) : option DocxBlock :=
  last (filter (fun block => BlockID block = id) blocks).

(** A parser that cannot store an attachment: it has no context, no output
    directory or no client. *)
Definition offline (p : Parser) : Prop :=
  ctx p = None ∨ outputDir p = EmptyString ∨ client p = None.

(** A computation that keeps an invariant of the parser and the disk on
    every run that returns. *)
Definition keeps {A} (I : Parser * FS → Prop) (m : M A) : Prop :=
  ∀ st a st', I st → m st = Ok (a, st') → I st'.

(** The parser is offline and the disk is [fs0]. *)
Definition undisturbed (fs0 : FS) (st : Parser * FS) : Prop :=
  offline st.1 ∧ st.2 = fs0.

(** A state of the walk in which the listing is still going on, within the
    slots of the semaphore, and every task dispatched so far is in its
    download or blocked in its send. *)
Definition listingBlocked (listed : Crawl.Listed) (disk0 : list Crawl.Job)
    (s : Crawl.State) : Prop :=
  ∃ todo,
    Crawl.main s = Crawl.Listing todo listed.2
    ∧ ((Crawl.tasks s).*1 ++ todo)%list = listed.1
    ∧ (List.length (Crawl.tasks s) ≤ Crawl.maxConcurrency)%nat
    ∧ Crawl.semaphore s = List.length (Crawl.tasks s)
    ∧ Forall (fun t => t.2 = Crawl.Running ∨ ∃ err, t.2 = Crawl.Sending err)
        (Crawl.tasks s)
    ∧ Crawl.closer s = Crawl.NotStarted
    ∧ Crawl.received s = []
    ∧ Crawl.disk s = disk0.

(** A task that is blocked in its send on the error channel. *)
Definition isSending (t : Crawl.Job * Crawl.Phase) : bool :=
  match t.2 with
  | Crawl.Sending _ => true
  | _ => false
  end.

(** An error that the operating system gave for some path. *)
Definition localError `{GoRuntime} (err : string) : Prop :=
  ∃ path, os_MkdirAll_err path = Some err ∨ os_OpenFile_err path = Some err
          ∨ io_Copy_err path = Some err ∨ os_WriteFile_err path = Some err.

(** The rows of a bitable's content that precede the data rows: the header,
    if there are fields. *)
Definition headerRows `{GoLibrary} (fields : list CoreClient.BitableField) : nat :=
  match fields with [] => 0 | _ => 1 end.

(** The operating system accepts the creation of a file at [path] and the
    copy into it. *)
Definition writable `{GoRuntime} (path : string) : Prop :=
  os_MkdirAll_err (filepath_Dir path) = None
  ∧ os_OpenFile_err path = None
  ∧ io_Copy_err path = None.

(** ** More concrete inputs *)

Module Samples.
Import Fixtures.

Definition plainLibrary : GoLibrary :=
  {| filepath_Ext := fun _ => ".png";
     http_NewRequest_err := fun _ => None;
     float64 := Z; Sprintf_g := itoa;
     any := string; Sprintf_v := fun s => s |}.
#[local] Existing Instance plainRuntime.
#[local] Existing Instance plainLibrary.

(** A listing of three pages, each naming the next. *)
Definition listingPage (items : list string) (more : bool) (next : string)
  : CoreClient.Page string :=
  {| CoreClient.Items := items; CoreClient.HasMore := more;
     CoreClient.PageToken := next |}.

Definition threePages (pageToken : option string) : string + CoreClient.Page string :=
  match pageToken with
  | None => inr (listingPage ["a"; "b"] true "p2")
  | Some tok =>
      if bool_decide (tok = "p2") then inr (listingPage ["c"] true "p3")
      else if bool_decide (tok = "p3") then inr (listingPage ["d"] false EmptyString)
      else inl "unknown page"
  end.

Definition askWiki (spaceID : string) (pageToken parentNodeToken : option string)
  : string + CoreClient.Page string := threePages pageToken.

Definition askDrive (pageToken folderToken : option string)
  : string + CoreClient.Page string := threePages pageToken.

(** A listing whose pages all announce more pages under the same token. *)
Definition askAgain (pageToken folderToken : option string)
  : string + CoreClient.Page string := inr (listingPage ["a"] true "again").

(** A document whose blocks come in two pages. *)
Definition theDocument : DocxDocument :=
  {| DocumentID := "doc"; RevisionID := 1; Title := "T" |}.

Definition askDocument (docToken : string) : string + DocxDocument := inr theDocument.

Definition askBlocks (documentID : string) (pageToken : option string)
  : string + CoreClient.Page DocxBlock :=
  match pageToken with
  | None => inr {| CoreClient.Items := [listPage; o1]; CoreClient.HasMore := true;
                   CoreClient.PageToken := "next" |}
  | Some _ => inr {| CoreClient.Items := [o2; u3; o4]; CoreClient.HasMore := false;
                     CoreClient.PageToken := EmptyString |}
  end.

(** A client that serves one image. *)
Definition imageClient : Client :=
  {| DownloadDriveFile := fun _ => DownloadErr "not a file";
     DownloadDriveMedia := fun tok =>
       if bool_decide (tok = "T") then DownloadOk "photo.png" "PNG"
       else DownloadErr "no such media";
     GetSheetContent := fun _ => inl "unavailable";
     GetBitableContent := fun _ => inl "unavailable" |}.

(** A client whose media call returns neither a response nor an error. *)
Definition silentClient : Client :=
  {| DownloadDriveFile := fun _ => DownloadErr "not a file";
     DownloadDriveMedia := fun _ => DownloadNil;
     GetSheetContent := fun _ => inl "unavailable";
     GetBitableContent := fun _ => inl "unavailable" |}.

(** A client that serves one file. *)
Definition fileClient : Client :=
  {| DownloadDriveFile := fun _ => DownloadOk "a.bin" "NEW";
     DownloadDriveMedia := fun _ => DownloadOk "a.bin" "NEW";
     GetSheetContent := fun _ => inl "unavailable";
     GetBitableContent := fun _ => inl "unavailable" |}.

(** A sheet of string cells behind the token [sht_id1]. *)
Definition stringCell (s : string) : CoreClient.SheetContent :=
  {| CoreClient.CellString := Some s; CoreClient.CellInt := None;
     CoreClient.CellFloat := None; CoreClient.CellLink := None;
     CoreClient.CellFormula := None; CoreClient.CellAtUser := None;
     CoreClient.CellAtDoc := None; CoreClient.CellMultiValue := None |}.

Definition sheetBatch (values : list (list CoreClient.SheetContent))
    (spreadsheetToken : string) (ranges : list string)
  : string + list CoreClient.SheetValueRange :=
  inr [ {| CoreClient.Values := values |} ].

Definition sheetClient (values : list (list CoreClient.SheetContent)) : Client :=
  {| DownloadDriveFile := fun _ => DownloadErr "not a file";
     DownloadDriveMedia := fun _ => DownloadErr "no such media";
     GetSheetContent := CoreClient.GetSheetContent (sheetBatch values);
     GetBitableContent := fun _ => inl "unavailable" |}.

Definition sheetParser (values : list (list CoreClient.SheetContent)) : Parser :=
  NewParser {| UseHTMLTags := false |} (Some (sheetClient values)).

Definition theSheet : DocxBlockSheet := {| SheetToken := "sht_id1" |}.

Definition twoRows : list (list CoreClient.SheetContent) :=
  [ [stringCell "h1"; stringCell "h2"];
    [stringCell ("a" +:+ nl +:+ "b"); stringCell "c"] ].

(** A bitable with two fields and one record that has a value for the first
    field only. *)
Definition twoFields : list CoreClient.BitableField :=
  [ {| CoreClient.FieldName := "Name"; CoreClient.FieldID := "f1" |};
    {| CoreClient.FieldName := "Age"; CoreClient.FieldID := "f2" |} ].

Definition oneRecord : list CoreClient.BitableRecord :=
  [ {| CoreClient.Fields := {[ "f1" := "Ann" ]} |} ].

Definition bitableClient (fields : list CoreClient.BitableField)
    (records : list CoreClient.BitableRecord) : Client :=
  {| DownloadDriveFile := fun _ => DownloadErr "not a file";
     DownloadDriveMedia := fun _ => DownloadErr "no such media";
     GetSheetContent := fun _ => inl "unavailable";
     GetBitableContent :=
       CoreClient.GetBitableContent (fun _ _ => inr fields) (fun _ _ => inr records) |}.

Definition theBitable : DocxBlockBitable := {| BitableToken := "app_tbl" |}.

(** A document that is one file block. *)
Definition attachment : DocxBlock :=
  {| BlockID := "doc"; ParentID := EmptyString; Children := [];
     BlockType := DocxBlockTypeFile;
     Page := None; Text := None; Heading1 := None; Heading2 := None;
     Heading3 := None; Heading4 := None; Heading5 := None; Heading6 := None;
     Heading7 := None; Heading8 := None; Heading9 := None; Bullet := None;
     Ordered := None; Code := None; Quote := None; BlockEquation := None;
     Todo := None; Image := None;
     File := Some {| FileName := "a.bin"; FileToken := "tok" |};
     Bitable := None; Diagram := None; Iframe := None; Table := None;
     Sheet := None |}.

(** An ordered item that names the page as its parent and is not among the
    page's children. *)
Definition strayItem : DocxBlock :=
  mkBlock "stray" "doc" [] DocxBlockTypeOrdered (txt "x").

(** A table without columns, with one cell and one merge entry. *)
Definition noColumns : DocxBlockTable :=
  {| Cells := ["ca"];
     Property := Some {| ColumnSize := 0; MergeInfo := [span 1 1] |} |}.

End Samples.

(** States of the walk over the folder with five documents. *)
Module WalkSamples.
Import Crawl.

(** During the listing: three tasks are dispatched, the first has written its
    output, the third has failed and waits in its send; two documents are
    still to be dispatched and nobody receives yet. *)
Definition senderWaitsForListing : State :=
  {| main := Listing [job "4"; job "5"] None;
     tasks := [ (job "1", Finishing); (job "2", Running);
                (job "3", Sending "task 3 failed") ];
     wg := 3; semaphore := 0; closer := NotStarted;
     received := []; disk := [job "1"] |}.

(** After the listing: the third task waits in its send, the four others are
    done, the closer waits for the last task. *)
Definition senderWaitsForRange : State :=
  {| main := Ranging;
     tasks := [ (job "1", Finished); (job "2", Finished);
                (job "3", Sending "task 3 failed");
                (job "4", Finished); (job "5", Finished) ];
     wg := 1; semaphore := 0; closer := AwaitingWg;
     received := []; disk := [job "1"; job "2"; job "4"; job "5"] |}.

(** No task fails: every task is done, the channel is still open and the main
    goroutine waits in its range. *)
Definition allDone : State :=
  {| main := Ranging;
     tasks := [ (job "1", Finished); (job "2", Finished); (job "3", Finished);
                (job "4", Finished); (job "5", Finished) ];
     wg := 0; semaphore := 0; closer := AwaitingWg;
     received := []; disk := fiveJobs |}.

End WalkSamples.
(** * Facts about Go strings *)

Module GoStringsFacts.

Lemma append_nil_l (s : string) : EmptyString +:+ s = s.
Proof. reflexivity. Qed.

Lemma append_cons (c : ascii) (s t : string) :
  String c s +:+ t = String c (s +:+ t).
Proof. reflexivity. Qed.

Lemma append_nil_r (s : string) : s +:+ EmptyString = s.
Proof.
  induction s as [|c s IH]; [done|]. by rewrite append_cons, IH.
Qed.

Lemma append_assoc (a b c : string) : (a +:+ b) +:+ c = a +:+ (b +:+ c).
Proof.
  induction a as [|x a IH]; [done|]. by rewrite !append_cons, IH.
Qed.

Lemma prefix_append (p s : string) : String.prefix p (p +:+ s) = true.
Proof.
  induction p as [|c p IH]; [by destruct s|].
  rewrite append_cons. simpl. by destruct (ascii_dec c c).
Qed.

Lemma HasPrefix_append (p s : string) : HasPrefix (p +:+ s) p = true.
Proof. apply prefix_append. Qed.

Lemma Repeat_add (s : string) (n m : nat) :
  Repeat s (n + m) = Repeat s n +:+ Repeat s m.
Proof.
  induction n as [|n IH]; [done|]. simpl. by rewrite IH, append_assoc.
Qed.

Lemma concat_cons (x : string) (l : list string) :
  GoStrings.concat (x :: l) = x +:+ GoStrings.concat l.
Proof. reflexivity. Qed.

Lemma concat_app (l1 l2 : list string) :
  GoStrings.concat (l1 ++ l2) = GoStrings.concat l1 +:+ GoStrings.concat l2.
Proof.
  induction l1 as [|x l1 IH]; [done|].
  rewrite <- app_comm_cons, !concat_cons, IH. by rewrite append_assoc.
Qed.

End GoStringsFacts.
Import GoStringsFacts.

(** * Properties of the renderer *)

Section InlineStyler.
Context `{GoRuntime}.

(** C5 (as amended).  A text run is wrapped by exactly one pair of
    delimiters, the one of the flag that comes first in the order bold,
    italic, strikethrough, underline, inline code, link among the flags its
    style sets.  The HTML-tag mode selects the delimiters of bold, italic and
    strikethrough only ([**], [_], [~~], or [<strong>], [<em>], [<del>]);
    underline is [<u>], inline code a pair of backticks and a link
    [[content](url)] in both modes.  A run without a style or without any
    flag is written as its raw content. *)
Theorem text_run_single_wrapper (p : Parser) (tr : DocxTextElementTextRun) :
  match TextElementStyle tr with
  | None => ParseDocxTextElementTextRun p tr = Content tr
  | Some style =>
      (flagsOf style = [] ∧ ParseDocxTextElementTextRun p tr = Content tr)
      ∨ (∃ w, w ∈ flagsOf style
              ∧ (∀ w', w' ∈ flagsOf style → (priority w ≤ priority w')%nat)
              ∧ ParseDocxTextElementTextRun p tr
                = openDelim (useHTMLTags p) w +:+ Content tr
                  +:+ closeDelim (useHTMLTags p) w)
  end.
Proof.
  unfold ParseDocxTextElementTextRun.
  destruct (TextElementStyle tr) as [style|]; [|simpl; by rewrite append_nil_r].
  unfold flagsOf.
  destruct style as [[] [] [] [] [] [l|]]; simpl;
    first
      [ left; split; [done|]; by rewrite append_nil_r
      | right;
        first
          [ exists WBold; split; [solve [repeat constructor]|]
          | exists WItalic; split; [solve [repeat constructor]|]
          | exists WStrikethrough; split; [solve [repeat constructor]|]
          | exists WUnderline; split; [solve [repeat constructor]|]
          | exists WInlineCode; split; [solve [repeat constructor]|]
          | exists (WLink (URL l)); split; [solve [repeat constructor]|] ];
        (split;
         [ intros w' Hw';
           repeat (apply elem_of_cons in Hw' as [->|Hw']; [simpl; lia|]);
           by apply elem_of_nil in Hw'
         | by destruct (useHTMLTags p) ]) ].
Qed.

End InlineStyler.

(** * The monad of the parser methods *)

Section MonadFacts.

Lemma bind_Ok {A B} (m : M A) (k : A -> M B) st a st' :
  m st = Ok (a, st') → bind m k st = k a st'.
Proof. unfold bind. by intros ->. Qed.

Lemma bind_inv {A B} (m : M A) (k : A -> M B) st b st'' :
  bind m k st = Ok (b, st'') →
  ∃ a st', m st = Ok (a, st') ∧ k a st' = Ok (b, st'').
Proof.
  unfold bind. destruct (m st) as [[a st']| |]; [|done..]. eauto.
Qed.

Lemma bind_inv_gen {A B} (m : M A) (k : A -> M B) st r :
  bind m k st = Ok r → ∃ a st', m st = Ok (a, st') ∧ k a st' = Ok r.
Proof.
  unfold bind. destruct (m st) as [[a st']| |]; [|done..]. eauto.
Qed.

Lemma liftRes_inv {A} (r : Res A) st a st' :
  liftRes r st = Ok (a, st') → r = Ok a ∧ st' = st.
Proof. unfold liftRes. destruct r; naive_solver. Qed.

Lemma collect_length {A} (f : A -> M string) l st pieces st' :
  collect f l st = Ok (pieces, st') → List.length pieces = List.length l.
Proof.
  revert st pieces st'. induction l as [|x l IH]; intros st pieces st'; simpl.
  - unfold ret. by intros [= <- _].
  - intros (s & st1 & _ & Hk)%bind_inv.
    apply bind_inv in Hk as (t & st2 & Ht & Hr).
    unfold ret in Hr. injection Hr as <- _. simpl. f_equal. eauto.
Qed.

(** Writing each rendering to the buffer is the concatenation of the
    collected renderings. *)
Lemma writeEach_collect {A} (f : A -> M string) l st :
  writeEach f l st = (let* pieces := collect f l in ret (GoStrings.concat pieces)) st.
Proof.
  revert st. induction l as [|x l IH]; intros st; [done|].
  simpl. unfold bind. destruct (f x st) as [[s st1]| |]; [|done..].
  rewrite IH. unfold bind.
  by destruct (collect f l st1) as [[t st2]| |].
Qed.

End MonadFacts.

Section QuoteContainer.
Context `{GoRuntime}.
Variable rec : option DocxBlock -> nat -> M string.

Lemma joinStr_cons sep x r :
  joinStr sep (x :: r)
  = x +:+ (if bool_decide (r = []) then EmptyString else sep +:+ joinStr sep r).
Proof. destruct r; simpl; [by rewrite append_nil_r|done]. Qed.

Lemma quoteLoop_collect n i rest st :
  (i + List.length rest = n)%nat →
  quoteLoop rec n i rest st
  = (let* pieces := collect (renderChild rec 0) rest in
     ret (joinStr nl (map quoteLine pieces))) st.
Proof.
  revert i st. induction rest as [|child rest IH]; intros i st Hn; [done|].
  simpl in *. unfold bind.
  destruct (renderChild rec 0 child st) as [[content st1]| |]; [|done..].
  rewrite (IH (S i)) by lia. unfold bind.
  destruct (collect (renderChild rec 0) rest st1) as [[pieces st2]| |] eqn:Hc;
    [|done..].
  unfold ret. cbn beta iota. do 2 f_equal.
  change (map quoteLine (content :: pieces))
    with (quoteLine content :: map quoteLine pieces).
  rewrite joinStr_cons.
  apply collect_length in Hc. unfold quoteLine at 2.
  rewrite !append_assoc. do 3 f_equal.
  destruct rest as [|c' rest], pieces as [|p' pieces]; simplify_eq/=.
  - rewrite bool_decide_eq_false_2 by lia. done.
  - rewrite bool_decide_eq_true_2 by lia. done.
Qed.

(** C8 (as amended).  The output of a quote container is, for each child in
    order, the quote marker, the child's rendering at indent 0 with its
    trailing newlines trimmed, and two spaces; the pieces are joined by a
    newline after every child except the last.  The container fails exactly
    when the rendering of a child fails. *)
Theorem quote_container_lines (b : DocxBlock) (st : Parser * FS) :
  ParseDocxBlockQuoteContainer rec b st
  = (let* pieces := collect (renderChild rec 0) (Children b) in
     ret (joinStr nl (map quoteLine pieces))) st.
Proof. apply quoteLoop_collect. lia. Qed.

End QuoteContainer.

(** * State independence of the parser methods *)

Section Emits.

Lemma setImgTokens_twice toks toks' cfg :
  setImgTokens toks (setImgTokens toks' cfg) = setImgTokens toks cfg.
Proof. reflexivity. Qed.

Lemma setImgTokens_self (p : Parser) : setImgTokens (ImgTokens p) p = p.
Proof. by destruct p. Qed.

Lemma emits_eq {A} cfg (m : M A) n n' : emits cfg m n' → n' = n → emits cfg m n.
Proof. by intros ? <-. Qed.

Lemma emits_ret {A} cfg (a : A) : emits cfg (ret a) [].
Proof. exists (Ok a). intros toks fs. exists fs. by rewrite app_nil_r. Qed.

Lemma emits_panic {A} cfg n : emits cfg (@panic A) n.
Proof. by exists Panic. Qed.

Lemma emits_outOfFuel {A} cfg n : emits cfg (@outOfFuel A) n.
Proof. by exists OutOfFuel. Qed.

Lemma emits_liftRes {A} cfg (r : Res A) : emits cfg (liftRes r) [].
Proof.
  exists r. intros toks fs. destruct r; simpl; [|done..].
  exists fs. by rewrite app_nil_r.
Qed.

Lemma emits_bind {A B} cfg (m : M A) (k : A -> M B) n1 n2 :
  emits cfg m n1 → (∀ a, emits cfg (k a) n2) → emits cfg (bind m k) (n1 ++ n2).
Proof.
  intros [om Hm] Hk. destruct om as [a| |].
  - destruct (Hk a) as [ok Hka]. exists ok. intros toks fs.
    destruct (Hm toks fs) as [fs1 Hm1]. unfold bind. rewrite Hm1.
    specialize (Hka (toks ++ n1)%list fs1). rewrite app_assoc. apply Hka.
  - exists Panic. intros toks fs. unfold bind. by rewrite (Hm toks fs).
  - exists OutOfFuel. intros toks fs. unfold bind. by rewrite (Hm toks fs).
Qed.

Lemma emits_fmap {A B} cfg (m : M A) (h : A -> B) n :
  emits cfg m n → emits cfg (let* a := m in ret (h a)) n.
Proof.
  intros Hm. eapply emits_eq.
  - apply emits_bind; [done|]. intros a. apply emits_ret.
  - apply app_nil_r.
Qed.

(** Reading the parser: the continuation may use its configuration only. *)
Lemma emits_getParser {A} cfg (k : Parser -> M A) n :
  (∀ toks, emits cfg (k (setImgTokens toks cfg)) n) →
  (∀ toks st, k (setImgTokens toks cfg) st = k cfg st) →
  emits cfg (bind getParser k) n.
Proof.
  intros Hk Hind. destruct (Hk []) as [out Hout]. exists out. intros toks fs.
  unfold bind, getParser. simpl. rewrite Hind.
  rewrite <- (Hind [] (setImgTokens toks cfg, fs)). apply Hout.
Qed.

Lemma emits_writeEach {A} cfg (f : A -> M string) (g : A -> list string) l :
  (∀ x, emits cfg (f x) (g x)) → emits cfg (writeEach f l) (flat_map g l).
Proof.
  intros Hf. induction l as [|x l IH]; simpl; [apply emits_ret|].
  apply emits_bind; [done|]. intros s. by apply emits_fmap.
Qed.

End Emits.

Section EmitsMethods.
Context `{GoRuntime}.
Variable cfg : Parser.
Variable rec : option DocxBlock -> nat -> M string.
Variable recTok : option DocxBlock -> list string.
Hypothesis rec_emits : ∀ b indentLevel, emits cfg (rec b indentLevel) (recTok b).

Let childTok (id : string) : list string := recTok (blockMap cfg !! id).

Lemma emits_renderChild indentLevel id :
  emits cfg (renderChild rec indentLevel id) (childTok id).
Proof.
  unfold renderChild. apply emits_getParser; [|done].
  intros toks. apply rec_emits.
Qed.

Lemma emits_blockText t : emits cfg (blockText t) [].
Proof.
  unfold blockText. apply emits_getParser; [|done].
  intros toks. apply emits_liftRes.
Qed.

Lemma emits_children indentLevel l :
  emits cfg (writeEach (renderChild rec indentLevel) l) (flat_map childTok l).
Proof. apply emits_writeEach. intros id. apply emits_renderChild. Qed.

Lemma emits_ParseDocxBlockImage img :
  emits cfg (ParseDocxBlockImage img)
        (match img with Some i => [ImageToken i] | None => [] end).
Proof.
  destruct img as [img|]; [|apply emits_panic].
  exists (Ok ("![](" +:+ ImageToken img +:+ ")" +:+ nl)). intros toks fs.
  by exists fs.
Qed.

Lemma copyToFile_result path bytes fs :
  (copyToFile path bytes fs).1 = (copyToFile path bytes ∅).1.
Proof.
  unfold copyToFile.
  destruct (os_MkdirAll_err (filepath_Dir path)); [done|].
  destruct (os_OpenFile_err path); [done|].
  by destruct (io_Copy_err path).
Qed.

Lemma tryDownloadMedia_result toks token fs :
  (tryDownloadMedia (setImgTokens toks cfg) token fs).1
  = (tryDownloadMedia cfg token ∅).1.
Proof.
  unfold tryDownloadMedia. simpl.
  destruct (ctx cfg); [|done].
  destruct (bool_decide _); [done|].
  destruct (client cfg) as [c|]; [|done].
  destruct (DownloadDriveMedia c token) as [| |name bytes]; [done..|].
  pose proof (copyToFile_result
                (filepath_Join (outputDir cfg)
                   (if bool_decide (name = EmptyString) then token else name))
                bytes fs) as Heq.
  destruct (copyToFile _ _ fs) as [[e|w] fs1], (copyToFile _ _ ∅) as [[e'|w'] fs2];
    simpl in *; congruence.
Qed.

Lemma emits_ParseDocxBlockFile file : emits cfg (ParseDocxBlockFile file) [].
Proof.
  destruct file as [file|]; [|apply emits_panic].
  unfold emits, ParseDocxBlockFile.
  destruct (tryDownloadMedia cfg (FileToken file) ∅) as [r0 fs0] eqn:H0.
  destruct r0 as [[filePath written]|]; eexists (Ok _); intros toks fs;
    pose proof (tryDownloadMedia_result toks (FileToken file) fs) as Heq;
    rewrite H0 in Heq; simpl in Heq;
    destruct (tryDownloadMedia (setImgTokens toks cfg) (FileToken file) fs)
      as [r1 fs1]; simpl in Heq; subst r1; rewrite app_nil_r;
    exists fs1; reflexivity.
Qed.

Ltac emits_list := simpl; rewrite ?app_nil_r; try done.

Lemma emits_ParseDocxBlockPage b :
  emits cfg (ParseDocxBlockPage rec b) (flat_map childTok (Children b)).
Proof.
  unfold ParseDocxBlockPage. eapply emits_eq.
  - apply emits_bind; [apply emits_blockText|]. intros t.
    apply emits_fmap. apply (emits_writeEach _ _ childTok). intros id.
    apply emits_fmap, emits_renderChild.
  - emits_list.
Qed.

Lemma emits_ParseDocxBlockCallout b :
  emits cfg (ParseDocxBlockCallout rec b) (flat_map childTok (Children b)).
Proof. unfold ParseDocxBlockCallout. apply emits_fmap, emits_children. Qed.

Lemma emits_ParseDocxBlockHeading b level :
  emits cfg (ParseDocxBlockHeading rec b level) (flat_map childTok (Children b)).
Proof.
  unfold ParseDocxBlockHeading. eapply emits_eq.
  - apply emits_bind; [apply emits_liftRes|]. intros ht.
    apply emits_bind; [apply emits_blockText|]. intros t.
    apply emits_fmap, emits_children.
  - emits_list.
Qed.

Lemma emits_ParseDocxBlockBullet b indentLevel :
  emits cfg (ParseDocxBlockBullet rec b indentLevel) (flat_map childTok (Children b)).
Proof.
  unfold ParseDocxBlockBullet. eapply emits_eq.
  - apply emits_bind; [apply emits_blockText|]. intros t.
    apply emits_fmap, emits_children.
  - emits_list.
Qed.

Lemma countOrderedBack_setImgTokens toks p children i order :
  countOrderedBack (setImgTokens toks p) children i order
  = countOrderedBack p children i order.
Proof.
  revert order. induction i as [|j IH]; intros order; simpl; [done|].
  destruct (children !! j) as [sibling|]; [|done].
  destruct (blockMap p !! sibling) as [sb|]; [|done].
  by destruct (decide _).
Qed.

Lemma findOrder_setImgTokens toks p b children idx rest :
  findOrder (setImgTokens toks p) b children idx rest
  = findOrder p b children idx rest.
Proof.
  revert idx. induction rest as [|child rest IH]; intros idx; simpl; [done|].
  destruct (decide _); [apply countOrderedBack_setImgTokens|apply IH].
Qed.

Lemma orderOf_setImgTokens toks p b :
  orderOf (setImgTokens toks p) b = orderOf p b.
Proof.
  unfold orderOf. simpl. destruct (blockMap p !! ParentID b); [|done].
  apply findOrder_setImgTokens.
Qed.

Lemma emits_ParseDocxBlockOrdered b indentLevel :
  emits cfg (ParseDocxBlockOrdered rec b indentLevel) (flat_map childTok (Children b)).
Proof.
  unfold ParseDocxBlockOrdered. apply emits_getParser;
    [|by intros; rewrite orderOf_setImgTokens].
  intros toks. eapply emits_eq.
  - apply emits_bind; [apply emits_liftRes|]. intros order.
    apply emits_bind; [apply emits_blockText|]. intros t.
    apply emits_fmap, emits_children.
  - emits_list.
Qed.

Lemma emits_ParseDocxBlockTableCell b :
  emits cfg (ParseDocxBlockTableCell rec b) (flat_map childTok (Children b)).
Proof.
  unfold ParseDocxBlockTableCell. apply emits_writeEach. intros id.
  apply emits_fmap, emits_renderChild.
Qed.

Lemma emits_quoteLoop n i rest :
  emits cfg (quoteLoop rec n i rest) (flat_map childTok rest).
Proof.
  revert i. induction rest as [|child rest IH]; intros i; simpl;
    [apply emits_ret|].
  apply emits_bind; [apply emits_renderChild|]. intros content.
  apply emits_fmap, IH.
Qed.

Lemma emits_ParseDocxBlockGrid b indentLevel :
  emits cfg (ParseDocxBlockGrid rec b indentLevel)
        (flat_map (fun column =>
                     flat_map childTok
                       (match blockMap cfg !! column with
                        | Some columnBlock => Children columnBlock
                        | None => []
                        end))
                  (Children b)).
Proof.
  unfold ParseDocxBlockGrid. apply emits_writeEach. intros column.
  apply emits_getParser; [|done]. intros toks. simpl.
  destruct (blockMap cfg !! column) as [columnBlock|];
    [apply emits_children|apply emits_panic].
Qed.

Lemma emits_cellLoop columnSize i cells rows :
  emits cfg (cellLoop rec columnSize i cells rows) (flat_map childTok cells).
Proof.
  revert i rows. induction cells as [|blockId cells IH]; intros i rows; simpl;
    [apply emits_ret|].
  apply emits_bind; [apply emits_renderChild|]. intros rendered.
  destruct (decide (columnSize = 0)); [apply emits_panic|].
  destruct (index _ _); [|apply emits_panic].
  destruct (index _ _); [|apply emits_panic].
  apply IH.
Qed.

Lemma emits_ParseDocxBlockTable t :
  emits cfg (ParseDocxBlockTable rec t)
        (flat_map childTok (match t with Some t => Cells t | None => [] end)).
Proof.
  destruct t as [t|]; [|apply emits_panic]. unfold ParseDocxBlockTable.
  destruct (Property t) as [prop|]; [|apply emits_panic].
  eapply emits_eq.
  - apply emits_bind; [apply emits_liftRes|]. intros m.
    apply emits_fmap, emits_cellLoop.
  - emits_list.
Qed.

Lemma flat_map_flat_map {A B C} (g : B -> list C) (h : A -> list B) l :
  flat_map g (flat_map h l) = flat_map (fun x => flat_map g (h x)) l.
Proof.
  induction l as [|x l IH]; simpl; [done|]. by rewrite flat_map_app, IH.
Qed.

Lemma emits_ParseDocxBlockBody b indentLevel :
  emits cfg (ParseDocxBlockBody rec b indentLevel)
        (imageTokenOf b ++ flat_map childTok (renderedChildren cfg b)).
Proof.
  unfold ParseDocxBlockBody, renderedChildren, imageTokenOf.
  destruct (BlockType b) eqn:Hty; simpl;
    try first
      [ apply emits_ParseDocxBlockPage
      | apply emits_blockText
      | apply emits_ParseDocxBlockCallout
      | apply emits_ParseDocxBlockHeading
      | apply emits_ParseDocxBlockBullet
      | apply emits_ParseDocxBlockOrdered
      | apply emits_ParseDocxBlockTableCell
      | apply emits_quoteLoop
      | apply emits_ParseDocxBlockTable
      | apply emits_children
      | apply emits_ParseDocxBlockFile
      | apply emits_liftRes
      | apply emits_ret
      | apply (emits_fmap cfg _ _ []), emits_blockText
      | apply emits_getParser; [intros; apply emits_liftRes|done] ].
  - (* code *)
    destruct (Code b) as [code|] eqn:Hc; [|apply emits_panic].
    destruct (Style code); [|apply emits_panic].
    apply (emits_fmap cfg _ _ []), emits_blockText.
  - (* todo *)
    destruct (Todo b) as [todo|] eqn:Ht; [|apply emits_panic].
    destruct (Style todo); [|apply emits_panic].
    apply (emits_fmap cfg _ _ []), emits_blockText.
  - (* grid *)
    rewrite flat_map_flat_map. apply emits_ParseDocxBlockGrid.
  - (* image *)
    eapply emits_eq; [apply emits_ParseDocxBlockImage|].
    destruct (Image b); emits_list.
Qed.

End EmitsMethods.

Section Determinism.
Context `{GoRuntime}.

Lemma emits_ParseDocxBlock fuel cfg b indentLevel :
  emits cfg (ParseDocxBlock fuel b indentLevel) (entryTokens fuel cfg b).
Proof.
  revert b indentLevel. induction fuel as [|fuel IH]; intros b indentLevel;
    simpl; [apply emits_outOfFuel|].
  destruct b as [b|]; [|apply emits_panic].
  apply emits_fmap. eapply emits_eq.
  - apply (emits_ParseDocxBlockBody cfg _ (entryTokens fuel cfg)). apply IH.
  - unfold entryTokens at 2. unfold imageTokens. simpl. f_equal.
    rewrite flat_map_flat_map.
    apply flat_map_ext. intros id. unfold entryTokens, imageTokens.
    by destruct (blockMap cfg !! id).
Qed.

Lemma indexBlocks_snoc m blocks x :
  indexBlocks m (blocks ++ [x]) = <[BlockID x := x]> (indexBlocks m blocks).
Proof. unfold indexBlocks. by rewrite foldl_app. Qed.

Lemma indexBlocks_absorb blocks m x :
  <[BlockID x := x]> (indexBlocks (<[BlockID x := x]> m) blocks)
  = <[BlockID x := x]> (indexBlocks m blocks).
Proof.
  revert m. induction blocks as [|y blocks IH]; intros m; simpl.
  - by rewrite insert_insert_eq.
  - destruct (decide (BlockID y = BlockID x)) as [Heq|Hne].
    + by rewrite Heq, insert_insert_eq.
    + rewrite insert_insert_ne by done. apply IH.
Qed.

(** Indexing the same blocks a second time changes nothing. *)
Lemma indexBlocks_idem blocks m :
  indexBlocks (indexBlocks m blocks) blocks = indexBlocks m blocks.
Proof.
  revert m. induction blocks as [|x blocks IH] using rev_ind; intros m; [done|].
  rewrite !indexBlocks_snoc, indexBlocks_absorb. by rewrite IH.
Qed.

Lemma sameConfiguration_eq (p q : Parser) :
  sameConfiguration p q → q = setImgTokens (ImgTokens q) p.
Proof.
  destruct p, q. unfold sameConfiguration, setImgTokens. simpl.
  intros (-> & -> & -> & -> & ->). reflexivity.
Qed.


End Determinism.

(** * Unresolved children *)

Section Fails.

Lemma fails_panic {A} cfg : fails cfg (@panic A).
Proof. by intros toks fs r. Qed.

Lemma fails_outOfFuel {A} cfg : fails cfg (@outOfFuel A).
Proof. by intros toks fs r. Qed.

Lemma fails_bind_l {A B} cfg (m : M A) (k : A -> M B) :
  fails cfg m → fails cfg (bind m k).
Proof.
  intros Hm toks fs r Hb. apply bind_inv_gen in Hb as (a & st' & Hma & _).
  by apply Hm in Hma.
Qed.

Lemma fails_bind_r {A B} cfg (m : M A) (k : A -> M B) n :
  emits cfg m n → (∀ a, fails cfg (k a)) → fails cfg (bind m k).
Proof.
  intros [out Hout] Hk toks fs r Hb. unfold bind in Hb.
  specialize (Hout toks fs). destruct out as [a| |].
  - destruct Hout as [fs' Hm]. rewrite Hm in Hb. by apply Hk in Hb.
  - by rewrite Hout in Hb.
  - by rewrite Hout in Hb.
Qed.

Lemma fails_getParser {A} cfg (k : Parser -> M A) :
  (∀ toks, fails cfg (k (setImgTokens toks cfg))) → fails cfg (bind getParser k).
Proof. intros Hk toks fs r. unfold bind, getParser. simpl. apply Hk. Qed.

Lemma fails_writeEach {A} cfg (f : A -> M string) (g : A -> list string) l x :
  (∀ y, emits cfg (f y) (g y)) → x ∈ l → fails cfg (f x) →
  fails cfg (writeEach f l).
Proof.
  intros Hf Hx Hfail. induction l as [|y l IH]; [by apply elem_of_nil in Hx|].
  simpl. apply elem_of_cons in Hx as [<-|Hx].
  - by apply fails_bind_l.
  - eapply fails_bind_r; [apply Hf|]. intros s. apply fails_bind_l. by apply IH.
Qed.

End Fails.

Section FailsMethods.
Context `{GoRuntime}.
Variable cfg : Parser.
Variable rec : option DocxBlock -> nat -> M string.
Variable recTok : option DocxBlock -> list string.
Hypothesis rec_emits : ∀ b indentLevel, emits cfg (rec b indentLevel) (recTok b).
Hypothesis rec_nil : ∀ indentLevel, fails cfg (rec None indentLevel).
Variable missing : string.
Hypothesis missing_unresolved : blockMap cfg !! missing = None.

Lemma fails_renderChild indentLevel :
  fails cfg (renderChild rec indentLevel missing).
Proof.
  unfold renderChild. apply fails_getParser. intros toks. simpl.
  rewrite missing_unresolved. apply rec_nil.
Qed.

Lemma fails_children indentLevel l :
  missing ∈ l → fails cfg (writeEach (renderChild rec indentLevel) l).
Proof.
  intros Hin.
  eapply (fails_writeEach _ _ (fun id => recTok (blockMap cfg !! id)));
    [|done|apply fails_renderChild].
  intros y. apply (emits_renderChild cfg rec recTok rec_emits).
Qed.

Lemma fails_quoteLoop n i rest :
  missing ∈ rest → fails cfg (quoteLoop rec n i rest).
Proof.
  revert i. induction rest as [|child rest IH]; intros i Hin;
    [by apply elem_of_nil in Hin|].
  simpl. apply elem_of_cons in Hin as [<-|Hin].
  - apply fails_bind_l, fails_renderChild.
  - eapply fails_bind_r;
      [apply (emits_renderChild cfg rec recTok rec_emits)|]. intros content.
    apply fails_bind_l. by apply IH.
Qed.

Lemma fails_ParseDocxBlockHeading b level :
  missing ∈ Children b → fails cfg (ParseDocxBlockHeading rec b level).
Proof.
  intros Hin. unfold ParseDocxBlockHeading.
  eapply fails_bind_r; [apply emits_liftRes|]. intros ht.
  eapply fails_bind_r; [apply emits_blockText|]. intros t.
  by apply fails_bind_l, fails_children.
Qed.

Lemma fails_ParseDocxBlockBody b indentLevel :
  rendersChildren (BlockType b) = true → missing ∈ Children b →
  fails cfg (ParseDocxBlockBody rec b indentLevel).
Proof.
  intros Hty Hin. unfold ParseDocxBlockBody.
  destruct (BlockType b); try discriminate Hty; clear Hty.
  - (* page *)
    unfold ParseDocxBlockPage.
    eapply fails_bind_r; [apply emits_blockText|]. intros t.
    apply fails_bind_l.
    eapply (fails_writeEach _ _ (fun id => recTok (blockMap cfg !! id)));
      [|done|apply fails_bind_l, fails_renderChild].
    intros y. apply emits_fmap, (emits_renderChild cfg rec recTok rec_emits).
  - (* heading 1 to heading 9 *)
    apply fails_ParseDocxBlockHeading; done.
  - apply fails_ParseDocxBlockHeading; done.
  - apply fails_ParseDocxBlockHeading; done.
  - apply fails_ParseDocxBlockHeading; done.
  - apply fails_ParseDocxBlockHeading; done.
  - apply fails_ParseDocxBlockHeading; done.
  - apply fails_ParseDocxBlockHeading; done.
  - apply fails_ParseDocxBlockHeading; done.
  - apply fails_ParseDocxBlockHeading; done.
  - (* bullet *)
    unfold ParseDocxBlockBullet.
    eapply fails_bind_r; [apply emits_blockText|]. intros t.
    by apply fails_bind_l, fails_children.
  - (* ordered *)
    unfold ParseDocxBlockOrdered. apply fails_getParser. intros toks.
    eapply fails_bind_r; [apply emits_liftRes|]. intros order.
    eapply fails_bind_r; [apply emits_blockText|]. intros t.
    by apply fails_bind_l, fails_children.
  - (* callout *)
    unfold ParseDocxBlockCallout. by apply fails_bind_l, fails_children.
  - (* grid: a column that does not resolve *)
    unfold ParseDocxBlockGrid.
    eapply (fails_writeEach _ _
              (fun column => flat_map (fun id => recTok (blockMap cfg !! id))
                 (match blockMap cfg !! column with
                  | Some columnBlock => Children columnBlock
                  | None => []
                  end))); [|done|].
    + intros column. apply emits_getParser; [|done]. intros toks. simpl.
      destruct (blockMap cfg !! column);
        [apply (emits_children cfg rec recTok rec_emits)|apply emits_panic].
    + apply fails_getParser. intros toks. simpl.
      rewrite missing_unresolved. apply fails_panic.
  - (* grid column, rendered by the default case *)
    by apply fails_children.
  - (* table cell *)
    unfold ParseDocxBlockTableCell.
    eapply (fails_writeEach _ _ (fun id => recTok (blockMap cfg !! id)));
      [|done|apply fails_bind_l, fails_renderChild].
    intros y. apply emits_fmap, (emits_renderChild cfg rec recTok rec_emits).
  - (* quote container *)
    by apply fails_quoteLoop.
  - (* a type without a case *)
    by apply fails_children.
Qed.

End FailsMethods.

Section UnresolvedChild.
Context `{GoRuntime}.

Lemma fails_ParseDocxBlock_nil fuel cfg indentLevel :
  fails cfg (ParseDocxBlock fuel None indentLevel).
Proof. destruct fuel; [apply fails_outOfFuel|apply fails_panic]. Qed.


End UnresolvedChild.

(** * Indentation *)

Section Indent.
Context `{GoRuntime}.

(** What a rendering leaves of the parser: the same parser with more image
    tokens. *)
Lemma ParseDocxBlock_frame fuel b indentLevel p fs s p' fs' :
  ParseDocxBlock fuel b indentLevel (p, fs) = Ok (s, (p', fs')) →
  p' = setImgTokens (ImgTokens p ++ entryTokens fuel p b) p.
Proof.
  intros Hrun. destruct (emits_ParseDocxBlock fuel p b indentLevel) as [out Hout].
  specialize (Hout (ImgTokens p) fs). rewrite setImgTokens_self in Hout.
  destruct out as [a| |]; [|congruence..].
  destruct Hout as [fs1 Hrun']. congruence.
Qed.

Lemma ParseDocxBlock_blockMap fuel b indentLevel st s st' :
  ParseDocxBlock fuel b indentLevel st = Ok (s, st') →
  blockMap st'.1 = blockMap st.1.
Proof.
  destruct st as [p fs], st' as [p' fs']. intros ->%ParseDocxBlock_frame. done.
Qed.

Lemma ParseDocxBlock_prefix fuel b indentLevel st s st' :
  ParseDocxBlock fuel b indentLevel st = Ok (s, st') →
  HasPrefix s (Repeat tab indentLevel) = true.
Proof.
  destruct fuel as [|fuel]; [done|]. simpl. destruct b as [b|]; [|done].
  intros (body & st1 & _ & Hret)%bind_inv. injection Hret as <- _.
  apply HasPrefix_append.
Qed.

(** The pieces written by a loop over identifiers, under an invariant of the
    state that every iteration keeps. *)
Lemma writeEach_pieces {A} (I : Parser * FS → Prop) (f : A -> M string) l st s st' :
  (∀ x st1 a st2, I st1 → f x st1 = Ok (a, st2) → I st2) →
  I st →
  writeEach f l st = Ok (s, st') →
  ∃ pieces,
    s = GoStrings.concat pieces
    ∧ Forall2 (fun x piece => ∃ st1 st2, I st1 ∧ f x st1 = Ok (piece, st2)) l pieces
    ∧ I st'.
Proof.
  intros Hkeep. revert st s. induction l as [|x l IH]; intros st s HI; simpl.
  - intros [= <- <-]. by exists [].
  - intros (a & st1 & Hfx & Hk)%bind_inv.
    apply bind_inv in Hk as (t & st2 & Hrest & Hret). injection Hret as <- <-.
    destruct (IH st1 t) as (pieces & -> & Hall & HI'); [by eapply Hkeep|done|].
    exists (a :: pieces). split; [done|]. split; [|done].
    constructor; [|done]. by exists st, st1.
Qed.

Lemma blockText_inv t st s st' :
  blockText t st = Ok (s, st') → st' = st.
Proof.
  unfold blockText. intros (p & st1 & [= <- <-] & Hl)%bind_inv.
  by apply liftRes_inv in Hl as [_ ->].
Qed.

Lemma nested_children fuel indentLevel l st s st' :
  writeEach (renderChild (ParseDocxBlock fuel) indentLevel) l st = Ok (s, st') →
  ∃ pieces,
    s = GoStrings.concat pieces
    ∧ Forall2 (fun id piece =>
                 ∃ st1 st2, ParseDocxBlock fuel (blockMap st.1 !! id) indentLevel st1
                            = Ok (piece, st2))
              l pieces
    ∧ Forall (fun piece => HasPrefix piece (Repeat tab indentLevel) = true) pieces.
Proof.
  intros Hrun.
  eapply (writeEach_pieces (fun st1 => blockMap st1.1 = blockMap st.1)) in Hrun
    as (pieces & -> & Hall & _); [|  |done].
  - exists pieces. split; [done|]. split.
    + eapply Forall2_impl; [exact Hall|]. simpl.
      intros id piece (st1 & st2 & Hmap & Hr). exists st1, st2.
      unfold renderChild, bind, getParser in Hr. simpl in Hr. by rewrite <- Hmap.
    + clear -Hall. induction Hall as [|id piece l pieces (st1 & st2 & _ & Hr) _ IH];
        constructor; [|done].
      unfold renderChild, bind, getParser in Hr. simpl in Hr.
      by eapply ParseDocxBlock_prefix.
  - intros id st1 a st2 Hmap Hr.
    unfold renderChild, bind, getParser in Hr. simpl in Hr.
    apply ParseDocxBlock_blockMap in Hr. congruence.
Qed.

(** C7 (as amended).  The output of rendering a block at indent level [L]
    begins with [L] repetitions of the indent unit, written once for the
    block; and the output of a bullet or an ordered item is that prefix, the
    item's own line, and then the renderings of its children, in order, each
    at indent level [L + 1] and so each beginning with [L + 1] repetitions
    of the indent unit. *)
Theorem indent_prefix_and_nesting (fuel : nat) (b : DocxBlock) (L : nat)
    (st st' : Parser * FS) (s : string) :
  ParseDocxBlock (S fuel) (Some b) L st = Ok (s, st') →
  HasPrefix s (Repeat tab L) = true
  ∧ (nestsChildren (BlockType b) = true →
     ∃ line pieces,
       s = Repeat tab L +:+ line +:+ GoStrings.concat pieces
       ∧ Forall2 (fun id piece =>
                    ∃ st1 st2, ParseDocxBlock fuel (blockMap st.1 !! id) (L + 1) st1
                               = Ok (piece, st2))
                 (Children b) pieces
       ∧ Forall (fun piece => HasPrefix piece (Repeat tab (L + 1)) = true) pieces).
Proof.
  intros Hrun. split; [by eapply ParseDocxBlock_prefix|].
  intros Hty. simpl in Hrun.
  apply bind_inv in Hrun as (body & st1 & Hbody & Hret). injection Hret as <- <-.
  unfold ParseDocxBlockBody in Hbody.
  destruct (BlockType b); try discriminate Hty; clear Hty.
  - unfold ParseDocxBlockBullet in Hbody.
    apply bind_inv in Hbody as (t & st2 & Ht & Hbody).
    apply blockText_inv in Ht as ->.
    apply bind_inv in Hbody as (cs & st3 & Hcs & Hret). injection Hret as <- <-.
    apply nested_children in Hcs as (pieces & -> & Hall & Hpre).
    exists ("- " +:+ t), pieces. by rewrite !append_assoc.
  - unfold ParseDocxBlockOrdered in Hbody.
    apply bind_inv in Hbody as (p & st2 & [= <- <-] & Hbody).
    apply bind_inv in Hbody as (order & st2 & [_ ->]%liftRes_inv & Hbody).
    apply bind_inv in Hbody as (t & st2 & Ht & Hbody).
    apply blockText_inv in Ht as ->.
    apply bind_inv in Hbody as (cs & st3 & Hcs & Hret). injection Hret as <- <-.
    apply nested_children in Hcs as (pieces & -> & Hall & Hpre).
    exists (itoa order +:+ ". " +:+ t), pieces. by rewrite !append_assoc.
Qed.

End Indent.

(** * Numbering of ordered items *)

Section OrderedNumbering.
Context `{GoRuntime}.

Lemma countOrderedBack_run p children i order :
  (i ≤ List.length children)%nat →
  (∀ id, id ∈ take i children → is_Some (blockMap p !! id)) →
  countOrderedBack p children i order
  = Ok (order + Z.of_nat (leadingRun (isOrderedId p) (reverse (take i children)))).
Proof.
  revert order. induction i as [|j IH]; intros order Hle Hres.
  - simpl. f_equal. lia.
  - simpl. destruct (lookup_lt_is_Some_2 children j) as [sibling Hsib]; [lia|].
    rewrite Hsib. rewrite (take_S_r _ _ _ Hsib), reverse_snoc. simpl.
    destruct (Hres sibling) as [sb Hsb].
    { rewrite (take_S_r _ _ _ Hsib). set_solver. }
    unfold isOrderedId at 1. rewrite Hsb.
    destruct (decide (BlockType sb = DocxBlockTypeOrdered)) as [Ho|Ho].
    + rewrite bool_decide_eq_true_2 by done. rewrite IH.
      * f_equal. lia.
      * lia.
      * intros id Hid. apply Hres. rewrite (take_S_r _ _ _ Hsib). set_solver.
    + rewrite bool_decide_eq_false_2 by done. f_equal. simpl. lia.
Qed.

Lemma findOrder_first p b (children seen pre post : list string) :
  children = (seen ++ pre ++ BlockID b :: post)%list →
  BlockID b ∉ pre →
  findOrder p b children (List.length seen) (pre ++ BlockID b :: post)%list
  = countOrderedBack p children (List.length (seen ++ pre)%list) 1.
Proof.
  revert seen. induction pre as [|x pre IH]; intros seen Hch Hnotin; simpl.
  - rewrite decide_True by done. by rewrite app_nil_r.
  - rewrite decide_False by set_solver.
    specialize (IH (seen ++ [x])%list).
    rewrite length_app in IH. simpl in IH.
    replace (List.length seen + 1)%nat with (S (List.length seen)) in IH by lia.
    rewrite IH.
    + by rewrite <- app_assoc.
    + by rewrite <- app_assoc.
    + set_solver.
Qed.

(** C2.  The number printed for an ordered item is one plus the number of
    consecutive ordered siblings immediately before it under its parent, the
    scan stopping at the first sibling that is not ordered; the item's line is
    that number, a dot and a space, followed by the item's text.  (The block
    is at the position of its identifier in the parent's children, and the
    parent and the siblings before it resolve in the block index.) *)
Theorem ordered_item_number (p : Parser) (b parent : DocxBlock)
    (pre post : list string) :
  blockMap p !! ParentID b = Some parent →
  Children parent = (pre ++ BlockID b :: post)%list →
  BlockID b ∉ pre →
  (∀ id, id ∈ pre → is_Some (blockMap p !! id)) →
  let number := 1 + Z.of_nat (precedingOrdered p pre) in
  orderOf p b = Ok number
  ∧ ∀ rec indentLevel fs,
      ParseDocxBlockOrdered rec b indentLevel (p, fs)
      = (let* t := blockText (Ordered b) in
         let* cs := writeEach (renderChild rec (indentLevel + 1)) (Children b) in
         ret (itoa number +:+ ". " +:+ t +:+ cs)) (p, fs).
Proof.
  intros Hparent Hch Hnotin Hres number.
  assert (Horder : orderOf p b = Ok number).
  { unfold orderOf. rewrite Hparent, Hch.
    change 0%nat with (List.length (@nil string)).
    rewrite (findOrder_first p b (pre ++ BlockID b :: post)%list [] pre post) by done.
    simpl. rewrite countOrderedBack_run.
    - by rewrite take_app_length.
    - rewrite length_app. lia.
    - by rewrite take_app_length. }
  split; [done|]. intros rec indentLevel fs.
  unfold ParseDocxBlockOrdered, bind at 1, getParser. simpl.
  unfold bind at 1. unfold liftRes. by rewrite Horder.
Qed.

End OrderedNumbering.

(** * The table layout *)

Section CellKeys.

Lemma pretty_N_go_noDash (x : N) (s : string) :
  noDash s → noDash (pretty_N_go x s).
Proof.
  revert s. induction (N.lt_wf_0 x) as [x _ IH]; intros s Hs.
  assert (x = 0 ∨ 0 < x)%N as [->|Hpos] by lia.
  - by rewrite pretty_N_go_0.
  - rewrite pretty_N_go_step by done. apply IH.
    + by apply N.div_lt.
    + split; [|done]. unfold pretty_N_char. by repeat case_match.
Qed.

Lemma itoa_noDash (z : Z) : 0 ≤ z → noDash (itoa z).
Proof.
  intros Hz. unfold itoa, pretty, pretty_Z. destruct z as [|x|x]; [|..|lia].
  - by split.
  - unfold pretty, pretty_positive, pretty, pretty_N.
    rewrite decide_False by done. by apply pretty_N_go_noDash.
Qed.

Lemma split_at_dash (s1 s2 t1 t2 : string) :
  noDash s1 → noDash s2 →
  s1 +:+ "-" +:+ t1 = s2 +:+ "-" +:+ t2 → s1 = s2 ∧ t1 = t2.
Proof.
  revert s2. induction s1 as [|c s1 IH]; intros [|c' s2] H1 H2 Heq.
  - by injection Heq.
  - rewrite append_nil_l, !append_cons in Heq. injection Heq as <- _.
    by destruct H2.
  - rewrite append_nil_l, !append_cons in Heq. injection Heq as -> _.
    by destruct H1.
  - rewrite !append_cons in Heq. injection Heq as <- Heq.
    destruct H1 as [_ H1], H2 as [_ H2].
    by destruct (IH s2 H1 H2 Heq) as [-> ->].
Qed.

(** The key of a cell names one position only. *)
Lemma cellKey_inj (r c r' c' : Z) :
  0 ≤ r → 0 ≤ r' → cellKey r c = cellKey r' c' → r = r' ∧ c = c'.
Proof.
  intros Hr Hr' Heq. unfold cellKey in Heq.
  apply split_at_dash in Heq as [Hrr Hcc]; [|by apply itoa_noDash..].
  split; by apply (inj pretty).
Qed.

End CellKeys.

Section Emission.

Lemma elem_of_markCols (acc : gset string) (r : Z) (l : list Z) (k : string) :
  k ∈ foldl (fun acc c => {[cellKey r c]} ∪ acc) acc l
  ↔ k ∈ acc ∨ ∃ c, c ∈ l ∧ k = cellKey r c.
Proof.
  revert acc. induction l as [|c l IH]; intros acc; simpl.
  - set_solver.
  - rewrite IH. set_solver.
Qed.

Lemma elem_of_markRows (acc : gset string) (cs rs : list Z) (k : string) :
  k ∈ foldl (fun acc r => foldl (fun acc c => {[cellKey r c]} ∪ acc) acc cs) acc rs
  ↔ k ∈ acc ∨ ∃ r c, r ∈ rs ∧ c ∈ cs ∧ k = cellKey r c.
Proof.
  revert acc. induction rs as [|r rs IH]; intros acc; simpl.
  - set_solver.
  - rewrite IH, elem_of_markCols. set_solver.
Qed.

Lemma elem_of_markSpan processedCells rowIndex colIndex mergeInfo k :
  k ∈ markSpan processedCells rowIndex colIndex mergeInfo
  ↔ k ∈ processedCells
    ∨ ∃ r c, rowIndex ≤ r < rowIndex + RowSpan mergeInfo
             ∧ colIndex ≤ c < colIndex + ColSpan mergeInfo
             ∧ k = cellKey r c.
Proof.
  unfold markSpan. rewrite elem_of_markRows.
  setoid_rewrite elem_of_seqZ. naive_solver.
Qed.

Lemma tracksCover_empty : tracksCover ∅ [].
Proof. split; [constructor|]. intros r c _. simpl. set_solver. Qed.

Lemma tracksCover_mark processedCells anchors rowIndex colIndex mergeInfo :
  0 ≤ rowIndex →
  tracksCover processedCells anchors →
  tracksCover (markSpan processedCells rowIndex colIndex mergeInfo)
              ((rowIndex, colIndex, mergeInfo) :: anchors).
Proof.
  intros Hrow [Hnn Hcov]. split; [by constructor|].
  intros r c Hr. rewrite elem_of_markSpan. simpl.
  rewrite orb_true_iff, andb_true_iff, !bool_decide_eq_true, <- Hcov by done.
  split.
  - intros [?|(r' & c' & Hr' & Hc' & Hkey)]; [by right|].
    apply cellKey_inj in Hkey as [-> ->]; [by left|lia..].
  - intros [[Hr' Hc']|?]; [|by left]. right. by exists r, c.
Qed.

Lemma emitRow_specRow (m : MergeMap) rowIndex colIndex row processedCells anchors :
  0 ≤ rowIndex →
  tracksCover processedCells anchors →
  ∃ anchors',
    specRow (lookupMerge m) rowIndex colIndex row anchors
    = ((emitRow m rowIndex colIndex row processedCells).1, anchors')
    ∧ tracksCover (emitRow m rowIndex colIndex row processedCells).2 anchors'.
Proof.
  intros Hrow. revert colIndex processedCells anchors.
  induction row as [|cellContent rest IH]; intros colIndex processedCells anchors Hinv;
    simpl.
  - by exists anchors.
  - destruct Hinv as [Hnn Hcov].
    destruct (decide (cellKey rowIndex colIndex ∈ processedCells)) as [Hin|Hnin].
    + apply Hcov in Hin; [|done]. rewrite Hin. by apply IH.
    + assert (covered anchors rowIndex colIndex = false) as ->.
      { destruct (covered anchors rowIndex colIndex) eqn:Hc; [|done].
        apply Hcov in Hc; done. }
      destruct (lookupMerge m rowIndex colIndex) as [mergeInfo|].
      * destruct (IH (colIndex + 1)
                    (markSpan processedCells rowIndex colIndex mergeInfo)
                    ((rowIndex, colIndex, mergeInfo) :: anchors))
          as (anchors' & Hspec & Hinv'); [by apply tracksCover_mark|].
        rewrite Hspec.
        destruct (emitRow m rowIndex (colIndex + 1) rest _) as [out pc].
        exists anchors'. simpl in *. split; [|done].
        by rewrite ?append_assoc.
      * destruct (IH (colIndex + 1) processedCells anchors)
          as (anchors' & Hspec & Hinv'); [done|].
        rewrite Hspec.
        destruct (emitRow m rowIndex (colIndex + 1) rest _) as [out pc].
        exists anchors'. simpl in *. split; [|done].
        by rewrite ?append_assoc.
Qed.

Lemma emitRows_specRows (m : MergeMap) rowIndex rows processedCells anchors :
  0 ≤ rowIndex →
  tracksCover processedCells anchors →
  emitRows m rowIndex rows processedCells
  = specRows (lookupMerge m) rowIndex rows anchors.
Proof.
  revert rowIndex processedCells anchors.
  induction rows as [|row rest IH]; intros rowIndex processedCells anchors Hrow Hinv;
    simpl; [done|].
  destruct (emitRow_specRow m rowIndex 0 row processedCells anchors Hrow Hinv)
    as (anchors' & -> & Hinv').
  destruct (emitRow m rowIndex 0 row processedCells) as [out pc]. simpl in *.
  do 5 f_equal. apply IH; [lia|done].
Qed.

(** The table printed with the map of processed keys is the table of the
    specification, where a position is skipped when an earlier merge covers
    it. *)
Lemma renderHTMLTable_specTable (m : MergeMap) rows :
  renderHTMLTable m rows = specTable (lookupMerge m) rows.
Proof.
  unfold renderHTMLTable, specTable. do 2 f_equal.
  by rewrite (emitRows_specRows m 0 rows ∅ []) by (done || apply tracksCover_empty).
Qed.

End Emission.

Section Grid.

Lemma gridRows_nil cols : (0 < cols)%nat → gridRows cols [] = [].
Proof.
  intros Hc. unfold gridRows. simpl.
  rewrite Nat.div_small by lia. done.
Qed.

Lemma gridRows_short cols (l : list string) :
  (0 < List.length l < cols)%nat → gridRows cols l = [l].
Proof.
  intros Hl. unfold gridRows.
  replace ((List.length l + cols - 1) / cols)%nat with 1%nat.
  - simpl. rewrite drop_0. by rewrite take_ge by lia.
  - apply (Nat.div_unique _ _ 1 (List.length l - 1)); lia.
Qed.

Lemma gridRows_full cols (row l : list string) :
  (0 < cols)%nat → List.length row = cols →
  gridRows cols (row ++ l)%list = row :: gridRows cols l.
Proof.
  intros Hc Hrow. unfold gridRows. rewrite length_app, Hrow.
  replace (cols + List.length l + cols - 1)%nat
    with (1 * cols + (List.length l + cols - 1))%nat by lia.
  rewrite Nat.div_add_l by lia.
  rewrite <- cons_seq, fmap_cons. f_equal.
  - rewrite drop_0. by rewrite take_app_length'.
  - rewrite <- fmap_S_seq, <- list_fmap_compose. apply list_fmap_ext.
    intros _ r _. simpl.
    replace (cols + r * cols)%nat with (List.length row + r * cols)%nat by lia.
    by rewrite drop_app_add.
Qed.

Lemma gridRows_rows cols (full : list (list string)) (part : list string) :
  (0 < cols)%nat →
  Forall (fun row => List.length row = cols) full →
  (List.length part < cols)%nat →
  gridRows cols (List.concat full ++ part)%list = (full ++ tailRow part)%list.
Proof.
  intros Hc Hfull Hpart. induction Hfull as [|row full Hrow _ IH]; simpl.
  - destruct part as [|x part]; [by apply gridRows_nil|].
    apply gridRows_short. simpl in *. lia.
  - rewrite <- app_assoc, gridRows_full by done. by rewrite IH.
Qed.

Lemma quot_rem_position (cols a b : nat) :
  (b < cols)%nat →
  Z.quot (Z.of_nat (cols * a + b)) (Z.of_nat cols) = Z.of_nat a
  ∧ Z.rem (Z.of_nat (cols * a + b)) (Z.of_nat cols) = Z.of_nat b.
Proof.
  intros Hb.
  rewrite Z.quot_div_nonneg, Z.rem_mod_nonneg by lia.
  rewrite Nat2Z.inj_add, Nat2Z.inj_mul.
  split.
  - symmetry. apply (Z.div_unique _ _ _ (Z.of_nat b)); lia.
  - symmetry. apply (Z.mod_unique _ _ (Z.of_nat a)); lia.
Qed.

Lemma growTo_rows (full : list (list string)) (part : list string) :
  growTo [] (full ++ tailRow part)%list (Z.of_nat (List.length full))
  = (full ++ [part])%list.
Proof.
  unfold growTo. rewrite length_app. destruct part as [|x part]; simpl.
  - rewrite Nat.add_0_r, app_nil_r.
    replace (Z.of_nat (List.length full) + 1 - Z.of_nat (List.length full)) with 1 by lia.
    done.
  - replace (Z.to_nat _) with 0%nat by lia. simpl. by rewrite app_nil_r.
Qed.

Lemma growTo_row (part : list string) :
  growTo EmptyString part (Z.of_nat (List.length part)) = (part ++ [EmptyString])%list.
Proof.
  unfold growTo.
  replace (Z.of_nat (List.length part) + 1 - Z.of_nat (List.length part)) with 1 by lia.
  done.
Qed.

Lemma index_snoc {A} (l : list A) (x : A) :
  index (l ++ [x])%list (Z.of_nat (List.length l)) = Some x.
Proof.
  unfold index. rewrite decide_False by lia. rewrite Nat2Z.id.
  by rewrite lookup_app_r, Nat.sub_diag.
Qed.

Lemma insert_snoc {A} (l : list A) (x y : A) :
  <[List.length l := y]> (l ++ [x])%list = (l ++ [y])%list.
Proof.
  rewrite insert_app_r_alt by lia. by rewrite Nat.sub_diag.
Qed.

Variable rec : option DocxBlock -> nat -> M string.

Lemma cellLoop_grid (columnSize : Z) cells (full : list (list string))
    (part : list string) st :
  0 < columnSize →
  Forall (fun row => List.length row = Z.to_nat columnSize) full →
  (List.length part < Z.to_nat columnSize)%nat →
  cellLoop rec columnSize
    (Z.of_nat (Z.to_nat columnSize * List.length full + List.length part))
    cells (full ++ tailRow part)%list st
  = (let* contents := collect (cellContentOf rec) cells in
     ret (gridRows (Z.to_nat columnSize)
            (List.concat full ++ part ++ contents)%list)) st.
Proof.
  intros Hpos. set (cols := Z.to_nat columnSize).
  revert full part st. induction cells as [|blockId cells IH];
    intros full part st Hfull Hpart.
  - simpl. unfold bind, ret. simpl. rewrite app_nil_r.
    by rewrite gridRows_rows by (done || lia).
  - cbn [cellLoop collect]. unfold cellContentOf at 1. unfold bind.
    destruct (renderChild rec 0 blockId st) as [[rendered st1]| |]; [|done..].
    unfold ret at 1 3. cbn beta iota.
    rewrite decide_False by lia.
    destruct (quot_rem_position cols (List.length full) (List.length part) Hpart)
      as [Hq Hr].
    replace (Z.of_nat cols) with columnSize in Hq, Hr by lia.
    rewrite Hq, Hr, !Nat2Z.id.
    rewrite growTo_rows, index_snoc, growTo_row, index_snoc, !insert_snoc.
    set (x := dropNewlines rendered).
    destruct (decide (List.length (part ++ [x])%list = cols)) as [Hfullrow|Hshort].
    + specialize (IH (full ++ [part ++ [x]])%list [] st1).
      rewrite length_app in IH. simpl in IH.
      replace (Z.of_nat (cols * (List.length full + 1) + 0))
        with (Z.of_nat (cols * List.length full + List.length part) + 1) in IH
        by (rewrite length_app in Hfullrow; simpl in Hfullrow; lia).
      rewrite app_nil_r in IH. rewrite IH.
      * unfold bind.
        destruct (collect (cellContentOf rec) cells st1) as [[contents st2]| |];
          [|done..].
        unfold ret. do 3 f_equal.
        rewrite List.concat_app. simpl. rewrite app_nil_r, <- !app_assoc. done.
      * apply Forall_app. split; [done|]. by constructor.
      * lia.
    + specialize (IH full (part ++ [x])%list st1).
      assert (tailRow (part ++ [x])%list = [(part ++ [x])%list]) as Htail
        by (by destruct part).
      rewrite Htail in IH.
      replace (Z.of_nat (cols * List.length full + List.length (part ++ [x])%list))
        with (Z.of_nat (cols * List.length full + List.length part) + 1) in IH
        by (rewrite length_app; simpl; lia).
      rewrite IH.
      * unfold bind.
        destruct (collect (cellContentOf rec) cells st1) as [[contents st2]| |];
          [|done..].
        unfold ret. do 3 f_equal. by rewrite <- !app_assoc.
      * done.
      * rewrite length_app in *. simpl in *. lia.
Qed.

Lemma gridRows_lookup (cols : nat) (contents : list string) (i : nat) :
  (0 < cols)%nat → (i < List.length contents)%nat →
  gridRows cols contents !! (i / cols)%nat ≫= (.!! (i mod cols)%nat)
  = contents !! i.
Proof.
  intros Hc Hi. unfold gridRows.
  rewrite list_lookup_fmap.
  assert (i / cols < (List.length contents + cols - 1) / cols)%nat as Hlt.
  { apply Nat.Div0.div_lt_upper_bound.
    pose proof (Nat.div_mod_eq (List.length contents + cols - 1) cols) as Hd.
    pose proof (Nat.mod_upper_bound (List.length contents + cols - 1) cols).
    pose proof (Nat.div_mod_eq i cols) as Hd'.
    pose proof (Nat.mod_upper_bound i cols). nia. }
  rewrite lookup_seq_lt by done. simpl.
  pose proof (Nat.mod_upper_bound i cols).
  rewrite lookup_take_lt by lia. rewrite lookup_drop.
  f_equal. pose proof (Nat.div_mod_eq i cols). lia.
Qed.

Lemma cellLoop_gridRows (columnSize : Z) cells st :
  0 < columnSize →
  cellLoop rec columnSize 0 cells [] st
  = (let* contents := collect (cellContentOf rec) cells in
     ret (gridRows (Z.to_nat columnSize) contents)) st.
Proof.
  intros Hpos.
  pose proof (cellLoop_grid columnSize cells [] [] st Hpos) as Hgrid.
  simpl in Hgrid. rewrite Nat.mul_0_r in Hgrid. simpl in Hgrid.
  apply Hgrid; [constructor|lia].
Qed.

End Grid.

Section MergeEntries.

Lemma lookupMerge_insert (m : MergeMap) (rowIndex colIndex : Z) merge r c :
  lookupMerge
    (<[rowIndex := <[colIndex := merge]>
                     (default ∅ ((match m !! rowIndex with
                                  | Some _ => m
                                  | None => <[rowIndex := ∅]> m
                                  end) !! rowIndex))]>
       (match m !! rowIndex with
        | Some _ => m
        | None => <[rowIndex := ∅]> m
        end)) r c
  = if decide (r = rowIndex ∧ c = colIndex) then merge else lookupMerge m r c.
Proof.
  unfold lookupMerge.
  destruct (decide (r = rowIndex)) as [->|Hr].
  - rewrite lookup_insert_eq.
    destruct (decide (c = colIndex)) as [->|Hc].
    + rewrite decide_True by done. by rewrite lookup_insert_eq.
    + rewrite decide_False by naive_solver. rewrite lookup_insert_ne by done.
      destruct (m !! rowIndex) as [row|] eqn:Hrow; simpl.
      * by rewrite Hrow.
      * by rewrite lookup_insert_eq.
  - rewrite decide_False by naive_solver. rewrite lookup_insert_ne by done.
    destruct (m !! rowIndex) eqn:Hrow; [done|]. by rewrite lookup_insert_ne.
Qed.

Lemma mergeLoop_lookup (columnSize : Z) (l : list (option DocxBlockTablePropertyMergeInfo))
    (k : nat) (m0 : MergeMap) :
  0 < columnSize →
  ∃ m, mergeLoop columnSize (Z.of_nat k) l m0 = Ok m
       ∧ ∀ r c, lookupMerge m r c
                = if decide (0 ≤ r ∧ 0 ≤ c < columnSize
                             ∧ Z.of_nat k ≤ r * columnSize + c
                               < Z.of_nat k + Z.of_nat (List.length l))
                  then default None (l !! (Z.to_nat (r * columnSize + c) - k)%nat)
                  else lookupMerge m0 r c.
Proof.
  intros Hpos. revert k m0. induction l as [|merge l IH]; intros k m0.
  - exists m0. split; [done|]. intros r c. simpl.
    rewrite decide_False by lia. done.
  - simpl. rewrite decide_False by lia.
    destruct (IH (S k) (<[Z.of_nat k ÷ columnSize :=
                  <[Z.of_nat k `rem` columnSize := merge]>
                    (default ∅ ((match m0 !! (Z.of_nat k ÷ columnSize) with
                                 | Some _ => m0
                                 | None => <[Z.of_nat k ÷ columnSize := ∅]> m0
                                 end) !! (Z.of_nat k ÷ columnSize)))]>
                 (match m0 !! (Z.of_nat k ÷ columnSize) with
                  | Some _ => m0
                  | None => <[Z.of_nat k ÷ columnSize := ∅]> m0
                  end))) as (m & Hm & Hlook).
    exists m. split.
    { replace (Z.of_nat k + 1) with (Z.of_nat (S k)) by lia. exact Hm. }
    intros r c. rewrite Hlook, lookupMerge_insert.
    rewrite Z.quot_div_nonneg, Z.rem_mod_nonneg by lia.
    pose proof (Z.div_mod (Z.of_nat k) columnSize ltac:(lia)) as Hdm.
    pose proof (Z.mod_pos_bound (Z.of_nat k) columnSize Hpos) as Hmb.
    destruct (decide (r = Z.of_nat k `div` columnSize
                      ∧ c = Z.of_nat k `mod` columnSize)) as [[-> ->]|Hne].
    + rewrite (decide_False (P := _ ∧ _ ∧ Z.of_nat (S k) ≤ _ < _)) by lia.
      rewrite decide_True by (simpl; nia).
      replace (Z.to_nat _ - k)%nat with 0%nat by nia. done.
    + assert (0 ≤ r ∧ 0 ≤ c < columnSize → r * columnSize + c ≠ Z.of_nat k) as Hpos'.
      { intros Hrange Heq. apply Hne. split.
        - apply (Z.div_unique _ _ _ c); lia.
        - apply (Z.mod_unique _ _ r); lia. }
      destruct (decide (0 ≤ r ∧ 0 ≤ c < columnSize
                        ∧ Z.of_nat (S k) ≤ r * columnSize + c
                          < Z.of_nat (S k) + Z.of_nat (List.length l)))
        as [Hin|Hout].
      * rewrite decide_True by (simpl; lia).
        replace (Z.to_nat (r * columnSize + c) - k)%nat
          with (S (Z.to_nat (r * columnSize + c) - S k)) by lia. done.
      * rewrite decide_False by (simpl; lia). done.
Qed.

Lemma mergeLoop_mergeAt (prop : DocxBlockTableProperty) :
  0 < ColumnSize prop →
  ∃ m, mergeLoop (ColumnSize prop) 0 (MergeInfo prop) ∅ = Ok m
       ∧ ∀ r c, lookupMerge m r c = mergeAt prop r c.
Proof.
  intros Hpos.
  destruct (mergeLoop_lookup (ColumnSize prop) (MergeInfo prop) 0 ∅ Hpos)
    as (m & Hm & Hlook).
  exists m. split; [done|]. intros r c. rewrite Hlook. unfold mergeAt.
  destruct (decide (0 ≤ r ∧ 0 ≤ c < ColumnSize prop)) as [Hrange|Hrange].
  - destruct (decide (r * ColumnSize prop + c
                      < Z.of_nat (List.length (MergeInfo prop)))) as [Hlt|Hge].
    + rewrite decide_True by (simpl; nia). by rewrite Nat.sub_0_r.
    + rewrite decide_False by (simpl; lia).
      rewrite lookup_ge_None_2 by lia. done.
  - rewrite decide_False by (simpl; lia). done.
Qed.

Lemma specRow_ext merge merge' r c row anchors :
  (∀ r c, merge r c = merge' r c) →
  specRow merge r c row anchors = specRow merge' r c row anchors.
Proof.
  intros Hext. revert c anchors. induction row as [|x row IH]; intros c anchors;
    simpl; [done|].
  rewrite Hext. destruct (covered anchors r c); [done|].
  destruct (merge' r c); by rewrite IH.
Qed.

Lemma specTable_ext merge merge' rows :
  (∀ r c, merge r c = merge' r c) →
  specTable merge rows = specTable merge' rows.
Proof.
  intros Hext. unfold specTable.
  assert (∀ r anchors, specRows merge r rows anchors = specRows merge' r rows anchors)
    as Hrows.
  { induction rows as [|row rows IH]; intros r anchors; simpl; [done|].
    rewrite (specRow_ext merge merge') by done.
    destruct (specRow merge' r 0 row anchors). by rewrite IH. }
  by rewrite Hrows.
Qed.

End MergeEntries.

Section TableLayout.
Context `{GoRuntime}.
Variable rec : option DocxBlock -> nat -> M string.


End TableLayout.


(** * Downloading a standalone file *)

Section ContainsFacts.

Lemma Contains_unfold (s sub : string) :
  Contains s sub
  = String.prefix sub s
    || match s with
       | EmptyString => false
       | String _ r => Contains r sub
       end.
Proof. by destruct s. Qed.

Lemma Contains_prefix (s sub : string) :
  String.prefix sub s = true → Contains s sub = true.
Proof. intros Hp. by rewrite Contains_unfold, Hp. Qed.

Lemma Contains_here (sub s : string) : Contains (sub +:+ s) sub = true.
Proof. apply Contains_prefix, prefix_append. Qed.

Lemma Contains_append_r (p s sub : string) :
  Contains s sub = true → Contains (p +:+ s) sub = true.
Proof.
  intros Hs. induction p as [|c p IH]; [done|].
  rewrite append_cons, Contains_unfold, IH. apply orb_true_r.
Qed.

End ContainsFacts.

Section DownloadFileFacts.
Context `{GoRuntime}.

Lemma fileTypeDescription_name (objType : string) :
  fileTypeDescription objType = fileTypeName objType.
Proof.
  unfold fileTypeDescription, fileTypeName, fileTypeNames.
  repeat case_bool_decide; subst; try reflexivity.
  simpl. by rewrite !lookup_insert_ne, lookup_empty by done.
Qed.

Lemma fileTypeName_length (objType : string) :
  (0 < String.length (fileTypeName objType))%nat.
Proof.
  rewrite <- fileTypeDescription_name. unfold fileTypeDescription.
  repeat case_bool_decide; simpl; lia.
Qed.

(** C10.  When [DownloadDriveFile] and its fallback [DownloadDriveMedia] both
    fail, [DownloadFile] returns neither remote error: it creates the
    destination directory and writes there the file named after the title
    with the extension md, and returns that path with a nil error; the error
    it returns otherwise is that of [os.MkdirAll] or of [os.WriteFile].  The
    file has a heading with the title, a line with the name of the file type
    (never empty), a line with the token, a notice, and a line with the link
    to the original, whose address is made of the type and the token. *)
Theorem placeholder_when_both_downloads_fail (c : Client)
    (fileToken outDir objType title : string) (fs : FS) (e1 e2 : string) :
  DownloadDriveFile c fileToken = DownloadErr e1 →
  DownloadDriveMedia c fileToken = DownloadErr e2 →
  let mdPath := filepath_Join outDir (title +:+ ".md") in
  let typeName := fileTypeName objType in
  let link := "https://jinniuai.feishu.cn/" +:+ objType +:+ "/" +:+ fileToken in
  let content :=
    ("# " +:+ title +:+ nl +:+ nl)
    +:+ ("**文件类型**: " +:+ typeName +:+ nl +:+ nl)
    +:+ ("**文件Token**: `" +:+ fileToken +:+ "`" +:+ nl +:+ nl)
    +:+ ("**提示**: 这是一个" +:+ typeName +:+ "文件，无法直接转换为Markdown。"
         +:+ nl +:+ nl)
    +:+ ("请访问飞书查看原始文件: [点击打开](" +:+ link +:+ ")" +:+ nl) in
  DownloadFile c fileToken outDir objType title fs
  = match os_MkdirAll_err outDir, os_WriteFile_err mdPath with
    | None, None => ((mdPath, None), <[mdPath := content]> fs)
    | Some err, _ => ((EmptyString, Some err), fs)
    | None, Some err => ((EmptyString, Some err), fs)
    end
  ∧ (0 < String.length typeName)%nat
  ∧ Contains content typeName = true
  ∧ Contains content fileToken = true
  ∧ Contains content link = true.
Proof.
  intros Hfile Hmedia mdPath typeName link content.
  assert (Hcontent : placeholderContent fileToken objType title = content).
  { unfold placeholderContent, content, link, typeName.
    rewrite fileTypeDescription_name. by rewrite !append_assoc. }
  split; [|split; [|split; [|split]]].
  - unfold DownloadFile. rewrite Hfile, Hmedia. unfold createFilePlaceholder.
    fold mdPath. rewrite Hcontent. destruct (os_MkdirAll_err outDir); [done|].
    by destruct (os_WriteFile_err mdPath).
  - apply fileTypeName_length.
  - unfold content. rewrite !append_assoc.
    repeat first [apply Contains_here | apply Contains_append_r].
  - unfold content. rewrite !append_assoc.
    repeat first [apply Contains_here | apply Contains_append_r].
  - unfold content. rewrite !append_assoc.
    do 19 apply Contains_append_r.
    replace (link +:+ ")" +:+ nl) with (link +:+ (")" +:+ nl)) by done.
    apply Contains_here.
Qed.

End DownloadFileFacts.

(** * The crawl *)

Module CrawlFacts.
Import Crawl.

Lemma countIf_app {A} (f : A -> bool) (l1 l2 : list A) :
  countIf f (l1 ++ l2)%list = (countIf f l1 + countIf f l2)%nat.
Proof. induction l1 as [|x l1 IH]; simpl; [done|]. rewrite IH. lia. Qed.

Lemma countIf_insert {A} (f : A -> bool) (l : list A) (i : nat) (old new : A) :
  l !! i = Some old →
  (countIf f (<[i := new]> l) + (if f old then 1 else 0)
   = countIf f l + (if f new then 1 else 0))%nat.
Proof.
  revert i. induction l as [|x l IH]; intros [|i] Hi; simplify_eq/=.
  - lia.
  - specialize (IH i Hi). lia.
Qed.

Lemma countIf_zero {A} (f : A -> bool) (l : list A) :
  countIf f l = 0%nat → Forall (fun x => f x = false) l.
Proof.
  induction l as [|x l IH]; simpl; [constructor|].
  destruct (f x) eqn:Hf; [lia|]. intros Hz. constructor; [done|]. by apply IH.
Qed.

Lemma fst_insert_same (l : list (Job * Phase)) i j p p' :
  l !! i = Some (j, p) → (<[i := (j, p')]> l).*1 = l.*1.
Proof.
  intros Hi. rewrite list_fmap_insert. simpl. apply list_insert_id.
  by rewrite list_lookup_fmap, Hi.
Qed.

Section Invariant.
Variable bound : option nat.
Variable outcome : Job -> option string.
Variable listed : Listed.

Lemma settled_mono s s' t :
  disk s ⊆ disk s' → (received s ≠ [] → received s' ≠ []) →
  settled outcome s t → settled outcome s' t.
Proof.
  intros Hd Hr. unfold settled. destruct t.2; try done.
  all: intros [[? ?]|[? ?]]; [left; split; [done|by apply Hd]|right; auto].
Qed.

Lemma Inv_start disk0 : Inv bound outcome listed (start listed disk0).
Proof.
  split; simpl;
    [done|done|destruct bound; [split; [done|lia]|done]|constructor|done].
Qed.

Lemma Inv_step s s' :
  Inv bound outcome listed s → step bound outcome s s' →
  Inv bound outcome listed s'.
Proof.
  intros [Hmain Hwg Hsem Hset Hclosed] Hstep.
  destruct Hstep as
    [s j todo result Hm Hguard
    |s err Hm
    |s Hm
    |s i j Ht Hout
    |s i j err Ht Hout
    |s i j err Ht Hm
    |s i j Ht
    |s i j Ht
    |s Hc Hz
    |s Hm Hc].
  - (* dispatch *)
    rewrite Hm in Hmain. destruct Hmain as (Hjobs & Hres & Hcl & Hrecv).
    split; simpl.
    + rewrite fmap_app. simpl. rewrite <- app_assoc. done.
    + rewrite countIf_app. simpl. lia.
    + destruct bound as [cap|]; [|done]. destruct Hsem as [Hs Hle].
      rewrite countIf_app. simpl. split; lia.
    + apply Forall_app. split; [|by repeat constructor].
      eapply Forall_impl; [exact Hset|]. intros t. by apply settled_mono.
    + rewrite Hcl. done.
  - (* the listing failed *)
    rewrite Hm in Hmain. destruct Hmain as (Hjobs & Hres & Hcl & Hrecv).
    split; simpl; [left; by exists err|done|done| |by rewrite Hcl].
    eapply Forall_impl; [exact Hset|]. intros t. by apply settled_mono.
  - (* the listing is complete *)
    rewrite Hm in Hmain. destruct Hmain as (Hjobs & Hres & Hcl & Hrecv).
    split; simpl; [by rewrite app_nil_r in Hjobs|done|done| |done].
    eapply Forall_impl; [exact Hset|]. intros t. by apply settled_mono.
  - (* a task succeeds *)
    split; simpl.
    + rewrite (fst_insert_same _ _ _ _ _ Ht).
      destruct (main s); [done|done|].
      destruct Hmain as [?|(? & ? & ? & ?)]; [by left|by right].
    + pose proof (countIf_insert pending _ i _ (j, Finishing) Ht) as Hc.
      simpl in Hc. lia.
    + destruct bound as [cap|]; [|done]. destruct Hsem as [Hs Hle].
      pose proof (countIf_insert inFlight _ i _ (j, Finishing) Ht) as Hc.
      simpl in Hc. split; lia.
    + apply Forall_insert.
      * eapply Forall_impl; [exact Hset|]. intros t.
        apply settled_mono; [set_solver|done].
      * left. split; [done|]. simpl. set_solver.
    + done.
  - (* a task fails *)
    split; simpl.
    + rewrite (fst_insert_same _ _ _ _ _ Ht). done.
    + pose proof (countIf_insert pending _ i _ (j, Sending err) Ht) as Hc.
      simpl in Hc. lia.
    + destruct bound as [cap|]; [|done]. destruct Hsem as [Hs Hle].
      pose proof (countIf_insert inFlight _ i _ (j, Sending err) Ht) as Hc.
      simpl in Hc. split; lia.
    + apply Forall_insert; [|done].
      eapply Forall_impl; [exact Hset|]. intros t. by apply settled_mono.
    + done.
  - (* the main goroutine receives an error *)
    rewrite Hm in Hmain. destruct Hmain as (Hjobs & Hres & Hcl & Hrecv).
    assert (outcome j = Some err) as Hout.
    { eapply Forall_lookup_1 in Hset; [|exact Ht]. exact Hset. }
    split; simpl.
    + right. rewrite (fst_insert_same _ _ _ _ _ Ht).
      split; [done|]. split; [done|]. split; [done|]. left.
      exists err, j. rewrite Hrecv. split; [done|]. split; [done|].
      split; [|done]. rewrite <- Hjobs.
      apply list_elem_of_fmap. exists (j, Sending err). split; [done|].
      by eapply list_elem_of_lookup_2.
    + pose proof (countIf_insert pending _ i _ (j, Finishing) Ht) as Hc.
      simpl in Hc. lia.
    + destruct bound as [cap|]; [|done]. destruct Hsem as [Hs Hle].
      pose proof (countIf_insert inFlight _ i _ (j, Finishing) Ht) as Hc.
      simpl in Hc. split; lia.
    + apply Forall_insert.
      * eapply Forall_impl; [exact Hset|]. intros t.
        apply settled_mono; [done|]. intros _. by destruct (received s).
      * right. simpl. split; [by rewrite Hout|]. by destruct (received s).
    + done.
  - (* wg.Done() *)
    assert (settled outcome s (j, Finishing)) as Hj
      by (eapply Forall_lookup_1 in Hset; [|exact Ht]; exact Hset).
    split; simpl.
    + rewrite (fst_insert_same _ _ _ _ _ Ht). done.
    + destruct bound.
      * pose proof (countIf_insert pending _ i _ (j, Releasing) Ht) as Hc.
        simpl in Hc. lia.
      * pose proof (countIf_insert pending _ i _ (j, Finished) Ht) as Hc.
        simpl in Hc. lia.
    + destruct bound as [cap|]; [|done]. destruct Hsem as [Hs Hle].
      pose proof (countIf_insert inFlight _ i _ (j, Releasing) Ht) as Hc.
      simpl in Hc. split; lia.
    + apply Forall_insert; [|by destruct bound].
      eapply Forall_impl; [exact Hset|]. intros t. by apply settled_mono.
    + intros Hex. rewrite (Hclosed Hex). done.
  - (* <-semaphore *)
    assert (settled outcome s (j, Releasing)) as Hj
      by (eapply Forall_lookup_1 in Hset; [|exact Ht]; exact Hset).
    split; simpl.
    + rewrite (fst_insert_same _ _ _ _ _ Ht). done.
    + pose proof (countIf_insert pending _ i _ (j, Finished) Ht) as Hc.
      simpl in Hc. lia.
    + destruct bound as [cap|]; [|lia]. destruct Hsem as [Hs Hle].
      pose proof (countIf_insert inFlight _ i _ (j, Finished) Ht) as Hc.
      simpl in Hc. split; lia.
    + apply Forall_insert; [|done].
      eapply Forall_impl; [exact Hset|]. intros t. by apply settled_mono.
    + done.
  - (* close(errChan) *)
    split; simpl; [|done|done| |done].
    + destruct (main s) as [todo r| |r]; simpl in *.
      * destruct Hmain as (_ & _ & Hcl & _). congruence.
      * destruct Hmain as (? & ? & _ & ?). done.
      * destruct Hmain as [(err & _ & _ & _ & Hcl)|(? & ? & _ & Hr)];
          [congruence|].
        right. split; [done|]. split; [done|]. split; [done|].
        destruct Hr as [?|(? & ? & ?)]; [by left|by right].
    + eapply Forall_impl; [exact Hset|]. intros t. by apply settled_mono.
  - (* the range ends on the closed channel *)
    rewrite Hm in Hmain. destruct Hmain as (Hjobs & Hres & Hcl & Hrecv).
    split; simpl; [|done|done| |done].
    + right. split; [done|]. split; [done|]. split; [by rewrite Hc|]. by right.
    + eapply Forall_impl; [exact Hset|]. intros t. by apply settled_mono.
Qed.

Lemma Inv_reachable disk0 s :
  reachable bound outcome listed disk0 s → Inv bound outcome listed s.
Proof.
  unfold reachable. revert s. apply rtc_ind_r; [apply Inv_start|].
  intros s s' _ Hstep IH. by eapply Inv_step.
Qed.

End Invariant.
Section Outcome.
Variable bound : option nat.
Variable outcome : Job -> option string.
Variable listed : Listed.

Lemma disk_step s s' : step bound outcome s s' → disk s `prefix_of` disk s'.
Proof. destruct 1; simpl; try done. by apply prefix_app_r. Qed.

Lemma disk_reachable disk0 s :
  reachable bound outcome listed disk0 s → disk0 `prefix_of` disk s.
Proof.
  unfold reachable. revert s. apply rtc_ind_r; [done|].
  intros s s' _ Hstep IH. etrans; [exact IH|]. by eapply disk_step.
Qed.


End Outcome.

Section Bound.
Context `{GoRuntime}.

Lemma dispatch_all outcome (todo : list Job) result s :
  main s = Listing todo result →
  rtc (step None outcome) s
    {| main := Listing [] result;
       tasks := tasks s ++ ((fun j => (j, Running)) <$> todo);
       wg := (wg s + List.length todo)%nat;
       semaphore := semaphore s; closer := closer s;
       received := received s; disk := disk s |}.
Proof.
  revert s. induction todo as [|j todo IH]; intros s Hm.
  - simpl. rewrite app_nil_r, Nat.add_0_r. rewrite <- Hm. by destruct s.
  - eapply rtc_l; [by eapply (step_dispatch None outcome s j todo result)|].
    match goal with |- rtc _ ?s1 _ => specialize (IH s1 eq_refl) end.
    simpl in IH. rewrite <- app_assoc in IH. simpl in IH.
    replace (S (wg s + List.length todo)) with (wg s + S (List.length todo))%nat
      in IH by lia.
    exact IH.
Qed.


Lemma countIf_le {A} (f g : A -> bool) (l : list A) :
  (∀ x, f x = true → g x = true) → (countIf f l ≤ countIf g l)%nat.
Proof.
  intros Hfg. induction l as [|x l IH]; simpl; [done|].
  destruct (f x) eqn:Hf; [rewrite (Hfg x Hf)|destruct (g x)]; lia.
Qed.

Lemma countIf_all {A} (f : A -> bool) (l : list A) :
  Forall (fun x => f x = true) l → countIf f l = List.length l.
Proof. induction 1 as [|x l Hx _ IH]; simpl; [done|]. rewrite Hx, IH. lia. Qed.

Lemma processFolder_docs (folderPath url : string) (n : nat) :
  processFolder folderPath (ListingOk (replicate n (docFile url)))
  = (replicate n (DocJob url folderPath), None).
Proof.
  induction n as [|n IH]; [done|].
  simpl in *. rewrite IH. done.
Qed.

(** C9.  In every state that the wiki walk reaches, the leaf tasks that were
    dispatched and have not released the semaphore yet are as many as the
    semaphore holds elements, at most [maxConcurrency] = 10, so no more than
    10 leaf tasks run at the same time; the folder walk has no such bound:
    for every number there is a folder on which it reaches a state with that
    many leaf tasks running at the same time. *)
Theorem wiki_bounded_folder_unbounded (outputDir : string)
    (outcome : Job -> option string) :
  (∀ remote url disk0 s,
     wikiWalk remote outputDir outcome url disk0 s →
     semaphore s = countIf inFlight (tasks s)
     ∧ (countIf inFlight (tasks s) ≤ 10)%nat
     ∧ (countIf isRunning (tasks s) ≤ 10)%nat)
  ∧ (∀ n : nat, ∃ remote url s,
       folderWalk remote outputDir outcome url [] s
       ∧ countIf isRunning (tasks s) = n).
Proof.
  split.
  - intros remote url disk0 s Hreach.
    apply Inv_reachable in Hreach as [_ _ [Hsem Hle] _ _].
    split; [done|]. unfold maxConcurrency in Hle. split; [lia|].
    etrans; [|exact Hle]. rewrite Hsem.
    apply countIf_le. intros [j p]. unfold isRunning, inFlight. simpl.
    by destruct p.
  - intros n. exists (flatFolder "u" n), "folder".
    eexists. split.
    + unfold folderWalk, reachable.
      change (downloadDocuments (flatFolder "u" n) outputDir "folder")
        with (processFolder outputDir (ListingOk (replicate n (docFile "u")))).
      rewrite processFolder_docs.
      apply (dispatch_all outcome (replicate n (DocJob "u" outputDir)) None).
      reflexivity.
    + simpl. rewrite countIf_all, length_fmap, length_replicate; [done|].
      apply Forall_fmap, Forall_forall. by intros j _.
Qed.

End Bound.
Section Progress.
Variable bound : option nat.
Variable outcome : Job -> option string.
Variable listed : Listed.

Lemma unfinished_or_done (l : list (Job * Phase)) :
  (∃ i j p, l !! i = Some (j, p) ∧ p ≠ Finished)
  ∨ countIf pending l = 0%nat.
Proof.
  induction l as [|[j p] l IH]; [by right|].
  destruct p as [|err| | |];
    try (left; by eexists 0%nat, j, _).
  destruct IH as [(i & j' & p' & Hi & Hp')|Hz].
  - left. by exists (S i), j', p'.
  - right. done.
Qed.

(** While the main goroutine is in its range over the error channel, some
    goroutine can take a step: the walk cannot stop there. *)
Lemma ranging_progress disk0 s :
  reachable bound outcome listed disk0 s →
  main s = Ranging →
  ∃ s', step bound outcome s s'.
Proof.
  intros Hreach Hm.
  pose proof (Inv_reachable _ _ _ _ _ Hreach) as [Hmain Hwg _ _ _].
  rewrite Hm in Hmain. destruct Hmain as (_ & _ & Hcl & _).
  destruct (unfinished_or_done (tasks s)) as [(i & j & p & Hi & Hp)|Hz].
  - destruct p as [|err| | |]; [| | | |done].
    + destruct (outcome j) as [err|] eqn:Hout.
      * eexists. by eapply step_task_fails.
      * eexists. by eapply step_task_succeeds.
    + eexists. by eapply step_receive.
    + eexists. by eapply step_done.
    + eexists. by eapply step_release.
  - destruct (closer s) eqn:Hc; [done| |].
    + eexists. eapply step_close; [done|]. by rewrite Hwg.
    + eexists. by eapply step_range_closed.
Qed.

End Progress.

(** X19.  The folder walk cannot get stuck: in every state that it reaches
    and in which [downloadDocuments] has not returned yet, some goroutine
    can take a step. *)
Lemma folder_walk_progress outcome listed disk0 s :
  reachable None outcome listed disk0 s →
  (∀ r, main s ≠ Returned r) →
  ∃ s', step None outcome s s'.
Proof.
  intros Hreach Hnot. destruct (main s) as [[|j todo] [err|]| |r] eqn:Hm.
  - eexists. by eapply step_listing_failed.
  - eexists. by eapply step_listing_done.
  - eexists. by eapply (step_dispatch None outcome s j todo).
  - eexists. by eapply (step_dispatch None outcome s j todo).
  - by eapply ranging_progress.
  - by destruct (Hnot r).
Qed.

End CrawlFacts.

(** * The stack bound and well-formed documents *)

Section FuelFacts.

Lemma refines_refl {A} (m : M A) : refines m m.
Proof. by intros st _. Qed.

Lemma refines_bind {A B} (m m' : M A) (k k' : A -> M B) :
  refines m m' → (∀ a, refines (k a) (k' a)) →
  refines (bind m k) (bind m' k').
Proof.
  intros Hm Hk st Hne. unfold bind in *.
  destruct (m st) as [[a st1]| |] eqn:Hmst; [| |done].
  - rewrite (Hm st) by congruence. rewrite Hmst. by apply Hk.
  - rewrite (Hm st) by congruence. by rewrite Hmst.
Qed.

Lemma refines_writeEach {A} (f f' : A -> M string) l :
  (∀ x, refines (f x) (f' x)) → refines (writeEach f l) (writeEach f' l).
Proof.
  intros Hf. induction l as [|x l IH]; simpl; [apply refines_refl|].
  apply refines_bind; [done|]. intros s.
  apply refines_bind; [done|]. intros t. apply refines_refl.
Qed.

Section Methods.
Context `{GoRuntime}.
Variables rec rec' : option DocxBlock -> nat -> M string.
Hypothesis rec_refines : ∀ b indentLevel, refines (rec b indentLevel) (rec' b indentLevel).

Lemma refines_renderChild indentLevel id :
  refines (renderChild rec indentLevel id) (renderChild rec' indentLevel id).
Proof.
  unfold renderChild. apply refines_bind; [apply refines_refl|].
  intros p. apply rec_refines.
Qed.

Lemma refines_children indentLevel l :
  refines (writeEach (renderChild rec indentLevel) l)
          (writeEach (renderChild rec' indentLevel) l).
Proof. apply refines_writeEach. intros id. apply refines_renderChild. Qed.

Lemma refines_quoteLoop n i rest :
  refines (quoteLoop rec n i rest) (quoteLoop rec' n i rest).
Proof.
  revert i. induction rest as [|child rest IH]; intros i; simpl;
    [apply refines_refl|].
  apply refines_bind; [apply refines_renderChild|]. intros content.
  apply refines_bind; [apply IH|]. intros t. apply refines_refl.
Qed.

Lemma refines_cellLoop columnSize i cells rows :
  refines (cellLoop rec columnSize i cells rows) (cellLoop rec' columnSize i cells rows).
Proof.
  revert i rows. induction cells as [|blockId cells IH]; intros i rows; simpl;
    [apply refines_refl|].
  apply refines_bind; [apply refines_renderChild|]. intros rendered.
  destruct (decide (columnSize = 0)); [apply refines_refl|].
  destruct (index _ _); [|apply refines_refl].
  destruct (index _ _); [|apply refines_refl].
  apply IH.
Qed.

Ltac refines_step :=
  first
    [ apply refines_children
    | apply refines_renderChild
    | apply refines_quoteLoop
    | apply refines_cellLoop
    | apply refines_refl
    | apply refines_bind; [|intros ?]
    | apply refines_writeEach; intros ? ].

Lemma refines_ParseDocxBlockBody b indentLevel :
  refines (ParseDocxBlockBody rec b indentLevel) (ParseDocxBlockBody rec' b indentLevel).
Proof.
  unfold ParseDocxBlockBody.
  destruct (BlockType b);
    unfold ParseDocxBlockPage, ParseDocxBlockCallout, ParseDocxBlockHeading,
      ParseDocxBlockBullet, ParseDocxBlockOrdered, ParseDocxBlockTableCell,
      ParseDocxBlockQuoteContainer, ParseDocxBlockGrid, ParseDocxBlockTable;
    repeat refines_step.
  - (* grid *)
    destruct (blockMap _ !! _); repeat refines_step.
  - (* table *)
    destruct (Table b) as [t|]; [|apply refines_refl].
    destruct (Property t); repeat refines_step.
Qed.

End Methods.

Section Fuel.
Context `{GoRuntime}.

(** More fuel does not change a result that was reached. *)
Lemma ParseDocxBlock_fuel_S fuel b indentLevel :
  refines (ParseDocxBlock fuel b indentLevel) (ParseDocxBlock (S fuel) b indentLevel).
Proof.
  revert b indentLevel. induction fuel as [|fuel IH]; intros b indentLevel.
  - by intros st Hne.
  - change (ParseDocxBlock (S (S fuel)) b indentLevel)
      with (match b with
            | None => panic
            | Some b =>
                let* body := ParseDocxBlockBody (ParseDocxBlock (S fuel)) b indentLevel in
                ret (Repeat tab indentLevel +:+ body)
            end).
    simpl. destruct b as [b|]; [|apply refines_refl].
    apply refines_bind; [|intros; apply refines_refl].
    by apply refines_ParseDocxBlockBody.
Qed.

Lemma ParseDocxBlock_fuel_le fuel fuel' b indentLevel st r :
  (fuel ≤ fuel')%nat →
  ParseDocxBlock fuel b indentLevel st = Ok r →
  ParseDocxBlock fuel' b indentLevel st = Ok r.
Proof.
  induction 1 as [|fuel' _ IH]; [done|]. intros Hok.
  rewrite ParseDocxBlock_fuel_S; [by apply IH|]. rewrite (IH Hok). done.
Qed.

End Fuel.
End FuelFacts.

Section Succeeds.

Lemma succeeds_ret {A} cfg (a : A) : succeeds cfg (ret a).
Proof. intros toks fs. by eexists. Qed.

Lemma succeeds_liftRes {A} cfg (a : A) : succeeds cfg (liftRes (Ok a)).
Proof. intros toks fs. by eexists. Qed.

Lemma succeeds_bind {A B} cfg (m : M A) (k : A -> M B) n :
  emits cfg m n → succeeds cfg m → (∀ a, succeeds cfg (k a)) →
  succeeds cfg (bind m k).
Proof.
  intros [out Hout] Hm Hk toks fs. unfold bind.
  destruct (Hm toks fs) as [r Hr]. specialize (Hout toks fs).
  destruct out as [a| |]; [|congruence..].
  destruct Hout as [fs' Hm']. rewrite Hm'. apply Hk.
Qed.

Lemma succeeds_getParser {A} cfg (k : Parser -> M A) :
  (∀ toks, succeeds cfg (k (setImgTokens toks cfg))) →
  succeeds cfg (bind getParser k).
Proof. intros Hk toks fs. unfold bind, getParser. simpl. apply Hk. Qed.

Lemma succeeds_fmap {A B} cfg (m : M A) (h : A -> B) n :
  emits cfg m n → succeeds cfg m → succeeds cfg (let* a := m in ret (h a)).
Proof.
  intros He Hm. eapply succeeds_bind; [exact He|exact Hm|].
  intros a. apply succeeds_ret.
Qed.

Lemma succeeds_writeEach {A} cfg (f : A -> M string) (g : A -> list string) l :
  (∀ x, emits cfg (f x) (g x)) →
  Forall (fun x => succeeds cfg (f x)) l →
  succeeds cfg (writeEach f l).
Proof.
  intros He Hall. induction Hall as [|x l Hx _ IH]; simpl; [apply succeeds_ret|].
  eapply succeeds_bind; [apply He|exact Hx|]. intros s.
  eapply succeeds_fmap; [|exact IH]. by apply emits_writeEach.
Qed.

Lemma succeeds_collect {A} cfg (f : A -> M string) (g : A -> list string) l :
  (∀ x, emits cfg (f x) (g x)) →
  Forall (fun x => succeeds cfg (f x)) l →
  succeeds cfg (collect f l).
Proof.
  intros He Hall. induction Hall as [|x l Hx _ IH]; simpl; [apply succeeds_ret|].
  eapply succeeds_bind; [apply He|exact Hx|]. intros s.
  intros toks fs. unfold bind. destruct (IH toks fs) as [[t st] ->].
  by eexists.
Qed.

Lemma succeeds_ext {A} cfg (m m' : M A) :
  (∀ st, m st = m' st) → succeeds cfg m' → succeeds cfg m.
Proof. intros Heq Hm toks fs. rewrite Heq. apply Hm. Qed.

End Succeeds.

Section Total.
Context `{GoRuntime}.
Variable cfg : Parser.
Variable rec : option DocxBlock -> nat -> M string.
Variable recTok : option DocxBlock -> list string.
Variable good : DocxBlock -> Prop.
Hypothesis rec_emits : ∀ b indentLevel, emits cfg (rec b indentLevel) (recTok b).
Hypothesis rec_succeeds : ∀ b indentLevel, good b → succeeds cfg (rec (Some b) indentLevel).

Let goodId (id : string) : Prop :=
  match blockMap cfg !! id with
  | Some child => good child
  | None => False
  end.

Lemma succeeds_renderChild indentLevel id :
  goodId id → succeeds cfg (renderChild rec indentLevel id).
Proof.
  unfold goodId, renderChild. intros Hgood. apply succeeds_getParser.
  intros toks. simpl. destruct (blockMap cfg !! id); [by apply rec_succeeds|done].
Qed.

Lemma succeeds_children indentLevel l :
  Forall goodId l → succeeds cfg (writeEach (renderChild rec indentLevel) l).
Proof.
  intros Hall.
  eapply (succeeds_writeEach _ _ (fun id => recTok (blockMap cfg !! id))).
  - intros id. apply (emits_renderChild cfg rec recTok rec_emits).
  - eapply Forall_impl; [exact Hall|]. intros id. apply succeeds_renderChild.
Qed.

Lemma succeeds_blockText t : is_Some t → succeeds cfg (blockText t).
Proof.
  intros [t' ->]. unfold blockText. apply succeeds_getParser. intros toks.
  apply succeeds_liftRes.
Qed.

Lemma succeeds_text_then_children t indentLevel l (h : string -> string -> string) :
  is_Some t → Forall goodId l →
  succeeds cfg (let* s := blockText t in
                let* cs := writeEach (renderChild rec indentLevel) l in
                ret (h s cs)).
Proof.
  intros Ht Hl.
  eapply succeeds_bind; [apply emits_blockText|by apply succeeds_blockText|].
  intros s. eapply succeeds_fmap;
    [apply (emits_children cfg rec recTok rec_emits)|by apply succeeds_children].
Qed.

Lemma succeeds_quoteLoop n i rest :
  Forall goodId rest → succeeds cfg (quoteLoop rec n i rest).
Proof.
  intros Hall. revert i. induction Hall as [|child rest Hc _ IH]; intros i; simpl;
    [apply succeeds_ret|].
  eapply succeeds_bind;
    [apply (emits_renderChild cfg rec recTok rec_emits)
    |by apply succeeds_renderChild|].
  intros content. eapply succeeds_fmap;
    [apply (emits_quoteLoop cfg rec recTok rec_emits)|apply IH].
Qed.

Lemma succeeds_ParseDocxBlockTable t prop :
  Property t = Some prop → 0 < ColumnSize prop → Forall goodId (Cells t) →
  succeeds cfg (ParseDocxBlockTable rec (Some t)).
Proof.
  intros Hprop Hpos Hcells. unfold ParseDocxBlockTable. rewrite Hprop.
  destruct (mergeLoop_mergeAt prop Hpos) as (m & Hm & _). rewrite Hm.
  eapply succeeds_bind; [apply emits_liftRes|apply succeeds_liftRes|].
  intros m'.
  eapply succeeds_ext.
  { intros st. unfold bind at 1. rewrite cellLoop_gridRows by done.
    instantiate (1 := let* contents := collect (cellContentOf rec) (Cells t) in
                      ret (renderHTMLTable m' (gridRows (Z.to_nat (ColumnSize prop)) contents))).
    unfold bind. by destruct (collect _ _ st) as [[contents st1]| |]. }
  intros toks fs. unfold bind.
  destruct (succeeds_collect cfg (cellContentOf rec)
              (fun id => recTok (blockMap cfg !! id)) (Cells t)) with toks fs
    as [[contents st] Hc].
  - intros id. apply emits_fmap, (emits_renderChild cfg rec recTok rec_emits).
  - eapply Forall_impl; [exact Hcells|]. intros id Hid.
    eapply succeeds_fmap;
      [apply (emits_renderChild cfg rec recTok rec_emits)
      |by apply succeeds_renderChild].
  - rewrite Hc. by eexists.
Qed.


Lemma succeeds_suffixed indentLevel l (h : string -> string) :
  Forall goodId l →
  succeeds cfg (writeEach (fun id => let* s := renderChild rec indentLevel id in
                                     ret (h s)) l).
Proof.
  intros Hall.
  eapply (succeeds_writeEach _ _ (fun id => recTok (blockMap cfg !! id))).
  - intros id. apply emits_fmap, (emits_renderChild cfg rec recTok rec_emits).
  - eapply Forall_impl; [exact Hall|]. intros id Hid.
    eapply succeeds_fmap;
      [apply (emits_renderChild cfg rec recTok rec_emits)
      |by apply succeeds_renderChild].
Qed.

Lemma succeeds_ParseDocxBlockHeading b level t :
  headingField b level = Ok t → is_Some t → Forall goodId (Children b) →
  succeeds cfg (ParseDocxBlockHeading rec b level).
Proof.
  intros Hfield Ht Hl. unfold ParseDocxBlockHeading. rewrite Hfield.
  intros toks fs.
  apply (succeeds_text_then_children t 0 (Children b)
           (fun s cs => Repeat "#" level +:+ " " +:+ s +:+ cs) Ht Hl toks fs).
Qed.

Lemma ParseDocxBlockSheet_Ok p s : ∃ r, ParseDocxBlockSheet p (Some s) = Ok r.
Proof.
  unfold ParseDocxBlockSheet.
  destruct (client p) as [c|]; [|by eexists].
  destruct (bool_decide _); [by eexists|].
  destruct (GetSheetContent c (SheetToken s)) as [err|[|row values]]; by eexists.
Qed.

Lemma ParseDocxBlockBitable_Ok p t : ∃ r, ParseDocxBlockBitable p (Some t) = Ok r.
Proof.
  unfold ParseDocxBlockBitable.
  destruct (client p) as [c|]; [|by eexists].
  destruct (bool_decide _); [by eexists|].
  destruct (GetBitableContent c (BitableToken t)) as [err|[|row values]]; by eexists.
Qed.

Lemma findOrder_returns b children idx rest :
  (idx + List.length rest ≤ List.length children)%nat →
  Forall (fun id => is_Some (blockMap cfg !! id)) children →
  ∃ n, findOrder cfg b children idx rest = Ok n.
Proof.
  intros Hlen Hall. revert idx Hlen.
  induction rest as [|child rest IH]; intros idx Hlen; simpl; [by eexists|].
  simpl in Hlen. destruct (decide (child = BlockID b)).
  - eexists. apply countOrderedBack_run; [lia|].
    intros id Hid. rewrite Forall_forall in Hall. apply Hall.
    by eapply subseteq_take.
  - apply IH. lia.
Qed.

Lemma orderOf_returns b :
  BlockType b = DocxBlockTypeOrdered → caseNeeds cfg b → ∃ n, orderOf cfg b = Ok n.
Proof.
  unfold caseNeeds, orderOf. intros ->. intros (parent & -> & Hall).
  by apply findOrder_returns.
Qed.

Lemma succeeds_ParseDocxBlockBody b indentLevel :
  payloadPresent b →
  caseNeeds cfg b →
  Forall goodId (renderedChildren cfg b) →
  succeeds cfg (ParseDocxBlockBody rec b indentLevel).
Proof.
  intros Hpay Hneeds Hch.
  pose proof (orderOf_returns b) as Horder.
  revert Hpay Hneeds Hch Horder.
  unfold payloadPresent, caseNeeds, renderedChildren, ParseDocxBlockBody.
  destruct (BlockType b); intros Hpay Hneeds Hch Horder.
  - (* page *)
    unfold ParseDocxBlockPage.
    eapply succeeds_bind; [apply emits_blockText|by apply succeeds_blockText|].
    intros t. eapply succeeds_fmap; [|by apply succeeds_suffixed].
    apply (emits_writeEach _ _ (fun id => recTok (blockMap cfg !! id))).
    intros id. apply emits_fmap, (emits_renderChild cfg rec recTok rec_emits).
  - by apply succeeds_blockText.
  - by eapply (succeeds_ParseDocxBlockHeading b 1).
  - by eapply (succeeds_ParseDocxBlockHeading b 2).
  - by eapply (succeeds_ParseDocxBlockHeading b 3).
  - by eapply (succeeds_ParseDocxBlockHeading b 4).
  - by eapply (succeeds_ParseDocxBlockHeading b 5).
  - by eapply (succeeds_ParseDocxBlockHeading b 6).
  - by eapply (succeeds_ParseDocxBlockHeading b 7).
  - by eapply (succeeds_ParseDocxBlockHeading b 8).
  - by eapply (succeeds_ParseDocxBlockHeading b 9).
  - (* bullet *)
    by apply (succeeds_text_then_children _ _ _ (fun t cs => "- " +:+ t +:+ cs)).
  - (* ordered *)
    pose proof Hpay as Ht. destruct (Horder eq_refl Hneeds) as [n Hn].
    unfold ParseDocxBlockOrdered.
    apply succeeds_getParser. intros toks. rewrite orderOf_setImgTokens, Hn.
    intros toks' fs.
    apply (succeeds_text_then_children _ _ _
             (fun t cs => itoa n +:+ ". " +:+ t +:+ cs) Ht Hch toks' fs).
  - (* code *)
    destruct Hpay as (t & Ht & style & Hs). rewrite Ht, Hs.
    eapply succeeds_fmap; [apply emits_blockText|by apply succeeds_blockText].
  - (* quote *)
    eapply succeeds_fmap; [apply emits_blockText|by apply succeeds_blockText].
  - (* equation *)
    eapply succeeds_fmap; [apply emits_blockText|by apply succeeds_blockText].
  - (* todo *)
    destruct Hpay as (t & Ht & style & Hs). rewrite Ht, Hs.
    eapply succeeds_fmap; [apply emits_blockText|by apply succeeds_blockText].
  - (* bitable *)
    destruct Hpay as [t ->]. apply succeeds_getParser. intros toks.
    destruct (ParseDocxBlockBitable_Ok (setImgTokens toks cfg) t) as [r ->].
    apply succeeds_liftRes.
  - (* callout *)
    unfold ParseDocxBlockCallout.
    eapply succeeds_fmap;
      [apply (emits_children cfg rec recTok rec_emits)|by apply succeeds_children].
  - (* diagram *)
    destruct Hpay as [d ->]. apply succeeds_liftRes.
  - (* divider *)
    apply succeeds_ret.
  - (* file *)
    destruct Hpay as [f ->]. intros toks fs. unfold ParseDocxBlockFile.
    destruct (tryDownloadMedia _ _ _) as [[[filePath written]|] fs']; by eexists.
  - (* grid *)
    unfold ParseDocxBlockGrid.
    eapply (succeeds_writeEach _ _
              (fun column => flat_map (fun id => recTok (blockMap cfg !! id))
                 (match blockMap cfg !! column with
                  | Some columnBlock => Children columnBlock
                  | None => []
                  end))).
    + intros column. apply emits_getParser; [|done]. intros toks. simpl.
      destruct (blockMap cfg !! column);
        [apply (emits_children cfg rec recTok rec_emits)|apply emits_panic].
    + induction (Children b) as [|column cols IH]; [constructor|].
      simpl in Hch. apply Forall_app in Hch as [Hcol Hrest].
      apply Forall_cons in Hneeds as [[columnBlock Hcb] Hneeds].
      constructor; [|by apply IH].
      apply succeeds_getParser. intros toks. simpl. rewrite Hcb in *.
      by apply succeeds_children.
  - (* grid column *)
    by apply succeeds_children.
  - (* iframe *)
    destruct Hpay as [f ->]. apply succeeds_liftRes.
  - (* image *)
    destruct Hpay as [img ->]. intros toks fs. by eexists.
  - (* sheet *)
    destruct Hpay as [t ->]. apply succeeds_getParser. intros toks.
    destruct (ParseDocxBlockSheet_Ok (setImgTokens toks cfg) t) as [r ->].
    apply succeeds_liftRes.
  - (* table *)
    destruct Hpay as (t & Ht & prop & Hprop).
    pose proof (Hneeds t prop Ht Hprop) as Hpos. rewrite Ht in *.
    by eapply succeeds_ParseDocxBlockTable.
  - (* table cell *)
    unfold ParseDocxBlockTableCell. by apply succeeds_suffixed.
  - (* quote container *)
    by apply succeeds_quoteLoop.
  - (* a type without a case *)
    by apply succeeds_children.
Qed.

End Total.

Section RenderTotal.
Context `{GoRuntime}.

(** A block that is well formed down to a depth is rendered within that
    depth. *)
Lemma wellFormedWithin_succeeds fuel cfg b indentLevel :
  wellFormedWithin fuel cfg b →
  succeeds cfg (ParseDocxBlock fuel (Some b) indentLevel).
Proof.
  revert b indentLevel. induction fuel as [|fuel IH]; intros b indentLevel;
    [done|].
  intros (Hpay & Hneeds & Hch). simpl.
  eapply succeeds_fmap.
  - apply (emits_ParseDocxBlockBody cfg _ (entryTokens fuel cfg)).
    intros b' l. apply emits_ParseDocxBlock.
  - apply (succeeds_ParseDocxBlockBody cfg _ (entryTokens fuel cfg)
             (wellFormedWithin fuel cfg)); [|by auto|done|done|done].
    intros b' l. apply emits_ParseDocxBlock.
Qed.

Lemma wellFormedWithin_le depth depth' cfg b :
  (depth ≤ depth')%nat → wellFormedWithin depth cfg b → wellFormedWithin depth' cfg b.
Proof.
  revert depth' b. induction depth as [|depth IH]; intros depth' b Hle; [done|].
  destruct depth' as [|depth']; [lia|].
  intros (Hpay & Hneeds & Hch). split; [done|]. split; [done|].
  eapply Forall_impl; [exact Hch|]. intros id. simpl.
  destruct (blockMap cfg !! id); [|done]. apply IH. lia.
Qed.

(** The blocks reached from a well-formed block are within some depth. *)
Lemma WellFormed_depth cfg b :
  WellFormed cfg b → ∃ depth, wellFormedWithin depth cfg b.
Proof.
  apply (WellFormed_mut cfg
           (fun b => ∃ depth, wellFormedWithin depth cfg b)
           (fun l => ∃ depth,
              Forall (fun id => match blockMap cfg !! id with
                                | Some child => wellFormedWithin depth cfg child
                                | None => False
                                end) l)).
  - intros b' Hpay Hneeds _ [depth Hch]. by exists (S depth).
  - exists 0%nat. constructor.
  - intros id child rest Hid _ [d1 Hchild] _ [d2 Hrest].
    exists (d1 `max` d2)%nat. constructor.
    + rewrite Hid. eapply wellFormedWithin_le; [|exact Hchild]. lia.
    + eapply Forall_impl; [exact Hrest|]. intros id'. simpl.
      destruct (blockMap cfg !! id'); [|done].
      apply wellFormedWithin_le. lia.
Qed.

(** X18.  The rendering of a well-formed block returns.  When, for the block
    and every block reached from it, the payload that the block's case reads
    is there, an ordered item has its parent in the index with children that
    resolve, a table has a positive column count, the columns of a grid
    resolve and the identifiers that the case renders resolve, there is a
    call depth from which [ParseDocxBlock] neither panics nor runs out of
    depth, on every state of the parser, and its result is the same at every
    greater depth. *)
Theorem well_formed_block_renders (cfg : Parser) (b : DocxBlock) (indentLevel : nat) :
  WellFormed cfg b →
  ∃ depth : nat, ∀ (toks : list string) (fs : FS),
    ∃ r, ∀ fuel : nat, (depth ≤ fuel)%nat →
      ParseDocxBlock fuel (Some b) indentLevel (setImgTokens toks cfg, fs) = Ok r.
Proof.
  intros Hwf. destruct (WellFormed_depth cfg b Hwf) as [depth Hdepth].
  exists depth. intros toks fs.
  destruct (wellFormedWithin_succeeds depth cfg b indentLevel Hdepth toks fs)
    as [r Hr].
  exists r. intros fuel Hle. by eapply ParseDocxBlock_fuel_le.
Qed.

End RenderTotal.



(** * Paging through the remote listings *)

Section WikiPages.
Context {Node : Type}.
Variable ask : string -> option string -> option string -> string + CoreClient.Page Node.

(** X1.  [GetWikiNodeList] asks for at most two pages: the first, and when
    the first announces more pages under a page token that is not empty, the
    page of that token.  It returns their items in order, whatever the second
    page announces, or the error of the request that failed. *)
Theorem wiki_node_list_two_pages (fuel : nat) (spaceID : string)
    (parentNodeToken : option string) :
  CoreClient.GetWikiNodeList ask (S fuel) spaceID parentNodeToken
  = Ok match ask spaceID None parentNodeToken with
       | inl err => inl err
       | inr resp =>
           if CoreClient.HasMore resp
              && negb (bool_decide (CoreClient.PageToken resp = EmptyString))
           then
             match ask spaceID (Some (CoreClient.PageToken resp)) parentNodeToken with
             | inl err => inl err
             | inr resp' => inr (CoreClient.Items resp ++ CoreClient.Items resp')%list
             end
           else inr (CoreClient.Items resp)
       end.
Proof.
  unfold CoreClient.GetWikiNodeList.
  destruct (ask spaceID None parentNodeToken) as [err|resp]; [done|].
  simpl.
  destruct (CoreClient.HasMore resp) eqn:Hmore; simpl; [|by destruct fuel].
  destruct (decide (CoreClient.PageToken resp = EmptyString)) as [Hempty|Hne].
  - rewrite !bool_decide_eq_true_2 by done. simpl. done.
  - rewrite (bool_decide_eq_false_2 (EmptyString = _)) by done.
    rewrite (bool_decide_eq_false_2 (_ = EmptyString)) by done. simpl.
    destruct (ask spaceID (Some (CoreClient.PageToken resp)) parentNodeToken)
      as [err|resp']; [done|].
    destruct fuel; simpl; rewrite Hmore, bool_decide_eq_true_2 by done; done.
Qed.

End WikiPages.

Section DrivePages.
Context {File : Type}.
Variable ask : option string -> option string -> string + CoreClient.Page File.

Lemma itemsOf_cons {A} (p : CoreClient.Page A) rest :
  itemsOf (p :: rest) = (CoreClient.Items p ++ itemsOf rest)%list.
Proof. done. Qed.

Lemma fileListPages_tail folderToken tok rest e :
  pagesFrom (fun t => ask t folderToken) tok rest e →
  ∀ resp files fuel,
    CoreClient.HasMore resp = true →
    tok = Some (CoreClient.PageToken resp) →
    (List.length rest < fuel)%nat →
    CoreClient.fileListPages ask fuel folderToken resp files
    = Ok match e with
         | Some err => inl err
         | None => inr (files ++ itemsOf rest)%list
         end.
Proof.
  induction 1 as [tok err Hask|tok next Hask Hlast|tok next rest e Hask Hmore _ IH];
    intros resp files fuel Hresp -> Hfuel;
    (destruct fuel as [|fuel]; [simpl in Hfuel; lia|]); simpl; rewrite Hresp, Hask.
  - done.
  - destruct fuel; simpl; rewrite Hlast; unfold itemsOf; simpl;
      by rewrite app_nil_r.
  - rewrite (IH next _ fuel); [|done|done|simpl in Hfuel; lia].
    destruct e; [done|]. by rewrite itemsOf_cons, app_assoc.
Qed.

(** X2.  [GetDriveFolderFileList] follows the pages of the listing from the
    given page token, each page naming the next, up to the page that
    announces no more: it returns the files of all of them in order.  When a
    request fails it returns that error and none of the files. *)
Theorem drive_file_list_all_pages (fuel : nat) (pageToken folderToken : option string)
    (pages : list (CoreClient.Page File)) (e : option string) :
  pagesFrom (fun t => ask t folderToken) pageToken pages e →
  (List.length pages ≤ fuel)%nat →
  CoreClient.GetDriveFolderFileList ask fuel pageToken folderToken
  = Ok match e with
       | Some err => inl err
       | None => inr (itemsOf pages)
       end.
Proof.
  intros Hpages Hfuel. unfold CoreClient.GetDriveFolderFileList.
  inversion Hpages as [tok err Hask|tok resp Hask Hlast|tok resp rest e' Hask Hmore Hrest];
    subst; rewrite Hask.
  - done.
  - destruct fuel; simpl; rewrite Hlast; unfold itemsOf; simpl; by rewrite app_nil_r.
  - erewrite fileListPages_tail; [|done|done|done|simpl in Hfuel; lia].
    by destruct e.
Qed.

End DrivePages.

Section DocxPages.
Variable getDocument : string -> string + DocxDocument.
Variable ask : string -> option string -> string + CoreClient.Page DocxBlock.

Lemma docxBlockPages_chain documentID tok pages e :
  pagesFrom (ask documentID) tok pages e →
  ∀ blocks fuel,
    (List.length pages < fuel)%nat →
    CoreClient.docxBlockPages ask fuel documentID tok blocks
    = Ok match e with
         | Some err => inl err
         | None => inr (blocks ++ itemsOf pages)%list
         end.
Proof.
  induction 1 as [tok err Hask|tok resp Hask Hlast|tok resp rest e Hask Hmore _ IH];
    intros blocks fuel Hfuel;
    (destruct fuel as [|fuel]; [simpl in Hfuel; lia|]); simpl; rewrite Hask.
  - done.
  - rewrite Hlast. unfold itemsOf; simpl; by rewrite app_nil_r.
  - rewrite Hmore, IH by (simpl in Hfuel; lia).
    destruct e; [done|]. by rewrite itemsOf_cons, app_assoc.
Qed.

(** X3.  When the document request succeeds, [GetDocxContent] follows the
    pages of the block list of the document id of the response, from no page
    token on, and returns the document with the blocks of all pages in
    order; when a page request fails it returns the document, no blocks and
    that error. *)
Theorem docx_content_all_pages (fuel : nat) (docToken : string)
    (document : DocxDocument) (pages : list (CoreClient.Page DocxBlock))
    (e : option string) :
  getDocument docToken = inr document →
  pagesFrom (ask (DocumentID document)) None pages e →
  (List.length pages < fuel)%nat →
  CoreClient.GetDocxContent getDocument ask fuel docToken
  = Ok match e with
       | Some err => (Some document, [], Some err)
       | None => (Some document, itemsOf pages, None)
       end.
Proof.
  intros Hdoc Hpages Hfuel. unfold CoreClient.GetDocxContent. rewrite Hdoc.
  simpl. rewrite (docxBlockPages_chain _ _ _ _ Hpages) by done.
  destruct document. by destruct e.
Qed.

End DocxPages.


(** * Tokens of embedded tables *)

Section Slices.

Lemma LastIndexUnderscore_none s :
  noUnderscore s = true → LastIndexUnderscore s = -1.
Proof.
  induction s as [|c s IH]; [done|]. simpl.
  intros [Hc Hs]%andb_true_iff. rewrite IH by done.
  rewrite decide_True by done. by destruct (is_underscore c).
Qed.

Lemma LastIndexUnderscore_split a b :
  noUnderscore b = true →
  LastIndexUnderscore (a +:+ "_" +:+ b) = Z.of_nat (String.length a).
Proof.
  intros Hb. induction a as [|c a IH].
  - rewrite append_nil_l, append_cons, append_nil_l. simpl.
    rewrite LastIndexUnderscore_none by done. by rewrite decide_True.
  - rewrite append_cons. simpl LastIndexUnderscore. rewrite IH.
    rewrite decide_False by lia. simpl String.length. lia.
Qed.

Lemma takeBytes_append a r : takeBytes (String.length a) (a +:+ r) = a.
Proof.
  induction a as [|c a IH]; [by rewrite append_nil_l|].
  rewrite append_cons. simpl. by rewrite IH.
Qed.

Lemma dropBytes_append a r : dropBytes (String.length a) (a +:+ r) = r.
Proof.
  induction a as [|c a IH]; [by rewrite append_nil_l|].
  rewrite append_cons. simpl. by rewrite IH.
Qed.

Lemma dropBytes_separator a b :
  dropBytes (S (String.length a)) (a +:+ "_" +:+ b) = b.
Proof.
  induction a as [|c a IH].
  - by rewrite append_nil_l, append_cons, append_nil_l.
  - rewrite append_cons. simpl String.length. by simpl.
Qed.

End Slices.

Section SheetTokens.
Context `{GoLibrary}.
Variable batch : string -> list string -> string + list CoreClient.SheetValueRange.

Lemma GetSheetContent_split (a b : string) :
  noUnderscore b = true →
  CoreClient.GetSheetContent batch (a +:+ "_" +:+ b) = CoreClient.sheetValues batch a b.
Proof.
  intros Hb. unfold CoreClient.GetSheetContent.
  rewrite LastIndexUnderscore_split by done. rewrite decide_False by lia.
  rewrite Nat2Z.id.
  replace (Z.to_nat (Z.of_nat (String.length a) + 1)) with (S (String.length a))
    by lia.
  by rewrite takeBytes_append, dropBytes_separator.
Qed.

(** X4.  [GetSheetContent] splits its token at the last underscore: for a
    token [a_b] in which [b] has no underscore it asks for the spreadsheet
    [a] and the range [b]; a token without underscore is rejected with the
    error that quotes it, and nothing is asked. *)
Theorem sheet_token_split (a b : string) :
  noUnderscore b = true →
  CoreClient.GetSheetContent batch (a +:+ "_" +:+ b) = CoreClient.sheetValues batch a b
  ∧ CoreClient.GetSheetContent batch b
    = inl ("invalid sheet token format (missing underscore separator): " +:+ b).
Proof.
  intros Hb. split; [by apply GetSheetContent_split|].
  unfold CoreClient.GetSheetContent.
  rewrite LastIndexUnderscore_none by done. by rewrite decide_True.
Qed.

(** X5.  A sheet block whose content comes from [GetSheetContent] never
    prints the notice of an empty sheet: when the remote side answers without
    error, the block is the Markdown table of the converted values, and a
    sheet without rows, like an answer without ranges, is printed as a
    failure to fetch the content, since [GetSheetContent] turns both into
    errors. *)
Theorem sheet_block_never_empty_notice (p : Parser) (c : Client)
    (s : DocxBlockSheet) (a b : string)
    (ranges : list CoreClient.SheetValueRange) :
  client p = Some c →
  GetSheetContent c = CoreClient.GetSheetContent batch →
  SheetToken s = a +:+ "_" +:+ b →
  noUnderscore b = true →
  http_NewRequest_err ("https://open.feishu.cn/open-apis/sheets/v4/spreadsheets/"
                        +:+ a +:+ "/values:batchGet") = None →
  batch a [b] = inr ranges →
  ParseDocxBlockSheet p (Some s)
  = Ok match ranges with
       | [] =>
           placeholder "> **📊 嵌入的电子表格**" (SheetToken s)
             "> *获取电子表格内容失败: no value ranges found*"
       | range0 :: _ =>
           match CoreClient.Values range0 with
           | [] =>
               placeholder "> **📊 嵌入的电子表格**" (SheetToken s)
                 "> *获取电子表格内容失败: sheet is empty*"
           | values => markdownTable (map (map CoreClient.cellText) values)
           end
       end.
Proof.
  intros Hc Hget Htok Hb Hreq Hbatch. unfold ParseDocxBlockSheet.
  rewrite Hc, Hget, Htok.
  rewrite bool_decide_eq_false_2.
  2:{ destruct a; [rewrite append_nil_l|]; rewrite append_cons; discriminate. }
  rewrite (GetSheetContent_split a b Hb).
  unfold CoreClient.sheetValues. rewrite Hreq, Hbatch.
  destruct ranges as [|range0 ranges]; [done|].
  destruct (CoreClient.Values range0) as [|row rows]; [done|]. done.
Qed.

End SheetTokens.

Section Bitable.
Context `{GoLibrary}.
Variable fieldList : string -> string -> string + list CoreClient.BitableField.
Variable recordList : string -> string -> string + list CoreClient.BitableRecord.

(** X6.  The content that [GetBitableContent] builds for a token [a_b]
    follows the fields of the table: the header with the field names comes
    first when there are fields, then one row per record in order; every row
    has one cell per field, and the cell of a record for a field is the
    printed value stored under the field's id, or empty when the record has
    none. *)
Theorem bitable_rows_follow_fields (a b : string)
    (fields : list CoreClient.BitableField)
    (records : list CoreClient.BitableRecord) :
  noUnderscore b = true →
  fieldList a b = inr fields →
  recordList a b = inr records →
  ∃ result,
    CoreClient.GetBitableContent fieldList recordList (a +:+ "_" +:+ b) = inr result
    ∧ List.length result = (headerRows fields + List.length records)%nat
    ∧ Forall (fun row => List.length row = List.length fields) result
    ∧ (fields ≠ [] → result !! 0%nat = Some (map CoreClient.FieldName fields))
    ∧ ∀ i j record field,
        records !! i = Some record →
        fields !! j = Some field →
        result !! (headerRows fields + i)%nat ≫= (.!! j)
        = Some match CoreClient.Fields record !! CoreClient.FieldID field with
               | Some value => Sprintf_v value
               | None => EmptyString
               end.
Proof.
  intros Hb Hfields Hrecords. unfold CoreClient.GetBitableContent.
  rewrite LastIndexUnderscore_split by done. rewrite decide_False by lia.
  rewrite Nat2Z.id.
  replace (Z.to_nat (Z.of_nat (String.length a) + 1)) with (S (String.length a))
    by lia.
  rewrite takeBytes_append, dropBytes_separator, Hfields, Hrecords.
  eexists. split; [done|].
  assert (Hhead : List.length (match fields with
                               | [] => []
                               | _ => [map CoreClient.FieldName fields]
                               end) = headerRows fields) by (by destruct fields).
  split; [|split; [|split]].
  - by rewrite length_app, length_map, Hhead.
  - apply Forall_app. split.
    + destruct fields; constructor; [|done]. by rewrite length_map.
    + apply Forall_forall. intros row (record & -> & _)%list_elem_of_fmap.
      unfold CoreClient.recordRow. by rewrite length_map.
  - by destruct fields.
  - intros i j record field Hi Hj.
    rewrite lookup_app_r by lia. rewrite Hhead.
    replace (headerRows fields + i - headerRows fields)%nat with i by lia.
    rewrite list_lookup_fmap, Hi. simpl.
    unfold CoreClient.recordRow. by rewrite list_lookup_fmap, Hj.
Qed.

End Bitable.


(** * The image links of a document *)

Section ReplaceFacts.

Lemma Replace1_unfold (s old new : string) :
  Replace1 s old new
  = if String.prefix old s then new +:+ dropBytes (String.length old) s
    else match s with
         | EmptyString => EmptyString
         | String c r => String c (Replace1 r old new)
         end.
Proof. by destruct s. Qed.

(** The first occurrence is the one that is replaced. *)
Lemma Replace1_first (a old b new : string) :
  clearOf old a (old +:+ b) = true →
  Replace1 (a +:+ old +:+ b) old new = a +:+ new +:+ b.
Proof.
  induction a as [|c a IH]; intros Hclear.
  - rewrite !append_nil_l, Replace1_unfold, prefix_append.
    by rewrite dropBytes_append.
  - change (negb (String.prefix old (String c a +:+ old +:+ b))
            && clearOf old a (old +:+ b) = true) in Hclear.
    apply andb_true_iff in Hclear as [Hhere Hrest].
    apply negb_true_iff in Hhere.
    rewrite Replace1_unfold, Hhere. rewrite !append_cons. by rewrite IH.
Qed.

Lemma prefix_length (p s : string) :
  String.prefix p s = true → (String.length p ≤ String.length s)%nat.
Proof.
  revert s. induction p as [|c p IH]; intros [|d s]; simpl; try done; try lia.
  destruct (ascii_dec c d); [|done]. intros Hp%IH. lia.
Qed.

Lemma Contains_length (s sub : string) :
  Contains s sub = true → (String.length sub ≤ String.length s)%nat.
Proof.
  induction s as [|c s IH]; rewrite Contains_unfold.
  - rewrite orb_false_r. apply prefix_length.
  - intros [Hp|Hs]%orb_true_iff; [by apply prefix_length|].
    apply IH in Hs. simpl. lia.
Qed.

Lemma prefix_append_long (p s r : string) :
  (String.length p ≤ String.length s)%nat →
  String.prefix p (s +:+ r) = String.prefix p s.
Proof.
  revert s. induction p as [|c p IH]; intros [|d s] Hlen; simpl in Hlen;
    try lia.
  - by destruct r.
  - by rewrite append_cons.
  - rewrite append_cons. simpl. destruct (ascii_dec c d); [|done].
    apply IH. lia.
Qed.

Lemma dropBytes_append_long (n : nat) (s r : string) :
  (n ≤ String.length s)%nat →
  dropBytes n (s +:+ r) = dropBytes n s +:+ r.
Proof.
  revert s. induction n as [|n IH]; intros [|d s] Hlen; simpl in Hlen;
    try done; try lia.
  rewrite append_cons. simpl. apply IH. lia.
Qed.

(** What follows a string that contains [old] is out of the reach of the
    replacement. *)
Lemma Replace1_contained (s r old new : string) :
  Contains s old = true →
  Replace1 (s +:+ r) old new = Replace1 s old new +:+ r.
Proof.
  induction s as [|c s IH]; intros Hin.
  - rewrite Contains_unfold, orb_false_r in Hin. destruct old; [|done].
    rewrite append_nil_l, (Replace1_unfold r), (Replace1_unfold EmptyString).
    simpl. destruct r; simpl; by rewrite ?append_nil_r.
  - pose proof (Contains_length _ _ Hin) as Hlen.
    rewrite (Replace1_unfold (String c s +:+ r)), (Replace1_unfold (String c s)).
    rewrite prefix_append_long by done.
    destruct (String.prefix old (String c s)) eqn:Hp.
    + rewrite dropBytes_append_long by done. by rewrite append_assoc.
    + rewrite append_cons. rewrite IH; [done|].
      rewrite Contains_unfold, Hp in Hin. done.
Qed.

End ReplaceFacts.

Section ImageLoop.
Context `{GoRuntime} `{GoLibrary}.

Lemma copyToFile_writable path bytes fs :
  writable path →
  copyToFile path bytes fs
  = (inr (Z.of_nat (String.length bytes)),
     <[path := overwrite (default EmptyString (fs !! path)) bytes]> fs).
Proof. intros (Hdir & Hopen & Hcopy). unfold copyToFile. by rewrite Hdir, Hopen, Hcopy. Qed.

Lemma DownloadImage_stored c imgToken outDir fs name bytes :
  DownloadDriveMedia c imgToken = DownloadOk name bytes →
  let link := outDir +:+ "/" +:+ imgToken +:+ filepath_Ext name in
  writable link →
  CoreClient.DownloadImage c imgToken outDir fs
  = Ok ((link, None),
        <[link := overwrite (default EmptyString (fs !! link)) bytes]> fs).
Proof.
  intros Hresp link Hw. unfold CoreClient.DownloadImage. rewrite Hresp.
  fold link. by rewrite copyToFile_writable.
Qed.

Lemma localizeImages_app c imageDir pre rest markdown fs :
  localizeImages c imageDir (pre ++ rest) markdown fs
  = match localizeImages c imageDir pre markdown fs with
    | Ok (inr markdown', fs') => localizeImages c imageDir rest markdown' fs'
    | r => r
    end.
Proof.
  revert markdown fs. induction pre as [|tok pre IH]; intros markdown fs; [done|].
  simpl. destruct (CoreClient.DownloadImage c tok imageDir fs)
    as [[[localLink [err|]] fs']| |]; try done.
Qed.

(** X7.  The image loop of [downloadDocument] ends at the first image whose
    download fails: the error is returned as it is, the images before it
    stay on disk, and the tokens after it play no part. *)
Theorem image_download_failure_ends_loop (c : Client) (imageDir : string)
    (pre post : list string) (imgToken err markdown : string) (fs : FS) :
  DownloadDriveMedia c imgToken = DownloadErr err →
  localizeImages c imageDir (pre ++ imgToken :: post) markdown fs
  = match localizeImages c imageDir pre markdown fs with
    | Ok (inr _, fs') => Ok (inl err, fs')
    | r => r
    end.
Proof.
  intros Hfail. rewrite localizeImages_app.
  destruct (localizeImages c imageDir pre markdown fs) as [[[e|md] fs']| |];
    try done.
  simpl. unfold CoreClient.DownloadImage. by rewrite Hfail.
Qed.

(** X8.  For a document with one image whose token first occurs in the
    Markdown at its link, the loop stores the media under the image
    directory as the token with the extension of the remote file name, and
    replaces that occurrence of the token by this path; the rest of the
    Markdown is unchanged. *)
Theorem image_link_localized (c : Client) (imageDir imgToken name bytes : string)
    (a b : string) (fs : FS) :
  DownloadDriveMedia c imgToken = DownloadOk name bytes →
  let link := imageDir +:+ "/" +:+ imgToken +:+ filepath_Ext name in
  writable link →
  clearOf imgToken a (imgToken +:+ b) = true →
  localizeImages c imageDir [imgToken] (a +:+ imgToken +:+ b) fs
  = Ok (inr (a +:+ link +:+ b),
        <[link := overwrite (default EmptyString (fs !! link)) bytes]> fs).
Proof.
  intros Hresp link Hw Hclear. simpl.
  rewrite (DownloadImage_stored _ _ _ _ _ _ Hresp Hw). fold link.
  by rewrite Replace1_first.
Qed.

(** X9.  When the same image token is listed twice, the second replacement
    does not reach the second link: the local path written by the first
    replacement contains the token, so the second replacement acts inside or
    before that path, and the text after the first link, with the second
    link in it, keeps the raw token.  When the token first occurs in the
    rewritten Markdown inside the first path, that path ends up with the
    directory and the extension twice. *)
Theorem repeated_image_token (c : Client) (imageDir imgToken name bytes : string)
    (a b : string) (fs : FS) :
  DownloadDriveMedia c imgToken = DownloadOk name bytes →
  let ext := filepath_Ext name in
  let link := imageDir +:+ "/" +:+ imgToken +:+ ext in
  writable link →
  clearOf imgToken a (imgToken +:+ b) = true →
  ∃ fs',
    localizeImages c imageDir [imgToken; imgToken] (a +:+ imgToken +:+ b) fs
    = Ok (inr (Replace1 (a +:+ imageDir +:+ "/" +:+ imgToken) imgToken link
               +:+ ext +:+ b),
          fs')
    ∧ (clearOf imgToken (a +:+ imageDir +:+ "/") (imgToken +:+ ext +:+ b) = true →
       Replace1 (a +:+ imageDir +:+ "/" +:+ imgToken) imgToken link +:+ ext +:+ b
       = a +:+ imageDir +:+ "/" +:+ link +:+ ext +:+ b).
Proof.
  intros Hresp ext link Hw Hclear. simpl.
  rewrite (DownloadImage_stored _ _ _ _ _ _ Hresp Hw). fold ext link.
  rewrite Replace1_first by done.
  rewrite (DownloadImage_stored _ _ _ _ _ _ Hresp Hw). fold ext link.
  eexists. split.
  - f_equal. f_equal. f_equal. unfold link.
    rewrite <- (Replace1_contained (a +:+ imageDir +:+ "/" +:+ imgToken)).
    + by rewrite !append_assoc.
    + do 3 apply Contains_append_r. apply Contains_prefix.
      rewrite <- (append_nil_r imgToken) at 2. apply prefix_append.
  - intros Hclear2.
    rewrite <- (Replace1_contained (a +:+ imageDir +:+ "/" +:+ imgToken)).
    + replace ((a +:+ imageDir +:+ "/" +:+ imgToken) +:+ ext +:+ b)
        with ((a +:+ imageDir +:+ "/") +:+ imgToken +:+ ext +:+ b)
        by (by rewrite !append_assoc).
      rewrite Replace1_first by done. by rewrite !append_assoc.
    + do 3 apply Contains_append_r. apply Contains_prefix.
      rewrite <- (append_nil_r imgToken) at 2. apply prefix_append.
Qed.

End ImageLoop.


(** * The block index and its edge cases *)

Section BlockIndex.
Context `{GoRuntime}.

Lemma lastWithID_snoc id blocks x :
  lastWithID id (blocks ++ [x])
  = if decide (BlockID x = id) then Some x else lastWithID id blocks.
Proof.
  unfold lastWithID. rewrite filter_app, filter_cons, filter_nil.
  destruct (decide (BlockID x = id)); [by rewrite last_snoc|by rewrite app_nil_r].
Qed.

Lemma indexBlocks_lookup m blocks id :
  indexBlocks m blocks !! id
  = match lastWithID id blocks with
    | Some block => Some block
    | None => m !! id
    end.
Proof.
  induction blocks as [|x blocks IH] using rev_ind; [done|].
  rewrite indexBlocks_snoc, lastWithID_snoc.
  destruct (decide (BlockID x = id)) as [<-|Hne].
  - by rewrite lookup_insert_eq.
  - by rewrite lookup_insert_ne.
Qed.

(** X10.  [ParseDocxContent] adds the blocks to the index in order, over what
    the index held: an identifier resolves to the last block of the list
    that carries it, and to its earlier binding when no block of the list
    does.  The document is rendered from the block to which its id resolves
    so. *)
Theorem block_index_last_wins (fuel : nat) (doc : DocxDocument)
    (blocks : list DocxBlock) (p : Parser) (fs : FS) :
  let resolve id :=
    match lastWithID id blocks with
    | Some block => Some block
    | None => blockMap p !! id
    end in
  (∀ id, indexBlocks (blockMap p) blocks !! id = resolve id)
  ∧ ParseDocxContent fuel doc blocks (p, fs)
    = ParseDocxBlock fuel (resolve (DocumentID doc)) 0
        (setBlockMap (indexBlocks (blockMap p) blocks) p, fs).
Proof.
  intros resolve. split; [intros id; apply indexBlocks_lookup|].
  unfold ParseDocxContent. simpl. by rewrite indexBlocks_lookup.
Qed.

(** X11.  When no block of the list carries the id of the document and the
    index did not hold it before, [ParseDocxContent] does not return an empty
    document: it reads the type of a nil block.  An empty list of blocks on a
    new parser is such a case. *)
Theorem missing_entry_block_panics (fuel : nat) (doc : DocxDocument)
    (blocks : list DocxBlock) (p : Parser) (fs : FS) :
  Forall (fun block => BlockID block ≠ DocumentID doc) blocks →
  blockMap p !! DocumentID doc = None →
  ParseDocxContent (S fuel) doc blocks (p, fs) = Panic.
Proof.
  intros Hids Hold. unfold ParseDocxContent. simpl.
  rewrite indexBlocks_lookup, Hold.
  unfold lastWithID.
  replace (filter (λ block : DocxBlock, BlockID block = DocumentID doc) blocks)
    with (@nil DocxBlock); [done|].
  symmetry. induction Hids as [|x l Hx _ IH]; [done|].
  by rewrite filter_cons, decide_False.
Qed.

End BlockIndex.

Section OrderedEdge.
Context `{GoRuntime}.

Lemma findOrder_unlisted p b children idx rest :
  BlockID b ∉ rest → findOrder p b children idx rest = Ok 1.
Proof.
  revert idx. induction rest as [|x rest IH]; intros idx Hnot; [done|].
  simpl. rewrite decide_False by set_solver. apply IH. set_solver.
Qed.

(** X12.  An ordered item that its parent does not list among its children
    is numbered 1: the search for the item ends without a match and the
    number keeps its initial value. *)
Theorem unlisted_ordered_item_is_first (p : Parser) (b parent : DocxBlock) :
  blockMap p !! ParentID b = Some parent →
  BlockID b ∉ Children parent →
  orderOf p b = Ok 1
  ∧ ∀ rec indentLevel fs,
      ParseDocxBlockOrdered rec b indentLevel (p, fs)
      = (let* t := blockText (Ordered b) in
         let* cs := writeEach (renderChild rec (indentLevel + 1)) (Children b) in
         ret ("1. " +:+ t +:+ cs)) (p, fs).
Proof.
  intros Hparent Hnot.
  assert (Horder : orderOf p b = Ok 1).
  { unfold orderOf. rewrite Hparent. by apply findOrder_unlisted. }
  split; [done|]. intros rec indentLevel fs.
  unfold ParseDocxBlockOrdered, bind at 1, getParser. simpl.
  unfold bind at 1. unfold liftRes. by rewrite Horder.
Qed.

End OrderedEdge.

Section ZeroColumns.
Context `{GoRuntime}.
Variable rec : option DocxBlock -> nat -> M string.

(** X13.  A table with a column count of 0 is rendered only when it has
    neither merge entries nor cells, as the empty table.  A merge entry makes
    the position computation divide by zero before anything is rendered; with
    cells and no merge entry the first cell is rendered and then the division
    fails, so the table never returns. *)
Theorem table_without_columns (t : DocxBlockTable) (prop : DocxBlockTableProperty)
    (st : Parser * FS) :
  Property t = Some prop →
  ColumnSize prop = 0 →
  ParseDocxBlockTable rec (Some t) st
  = match MergeInfo prop, Cells t with
    | _ :: _, _ => Panic
    | [], [] => Ok ("<table>" +:+ nl +:+ "</table>" +:+ nl, st)
    | [], blockId :: _ =>
        match renderChild rec 0 blockId st with
        | OutOfFuel => OutOfFuel
        | _ => Panic
        end
    end.
Proof.
  intros Hprop Hzero. unfold ParseDocxBlockTable. rewrite Hprop, Hzero.
  destruct (MergeInfo prop) as [|merge merges]; [|done].
  destruct (Cells t) as [|blockId cells]; [done|].
  unfold bind at 1. simpl. unfold bind at 1. simpl. unfold bind at 1.
  by destruct (renderChild rec 0 blockId st) as [[s st1]| |].
Qed.

End ZeroColumns.


(** * The lines of a table *)

Section TableLines.
Context `{GoRuntime}.

Lemma countNl_append (a b : string) : countNl (a +:+ b) = (countNl a + countNl b)%nat.
Proof.
  induction a as [|c a IH]; [done|]. rewrite append_cons. simpl. rewrite IH. lia.
Qed.

Lemma countNl_dropNewlines (s : string) : countNl (dropNewlines s) = 0%nat.
Proof.
  induction s as [|c s IH]; [done|]. simpl.
  destruct (is_nl c) eqn:Hc; [done|]. simpl. by rewrite Hc.
Qed.

Lemma countNl_pretty_N_go (x : N) (s : string) :
  countNl (pretty_N_go x s) = countNl s.
Proof.
  revert s. induction (N.lt_wf_0 x) as [x _ IH]; intros s.
  assert (x = 0 ∨ 0 < x)%N as [->|Hpos] by lia.
  - by rewrite pretty_N_go_0.
  - rewrite pretty_N_go_step by done. rewrite IH by (by apply N.div_lt).
    simpl. unfold pretty_N_char. by repeat case_match.
Qed.

Lemma countNl_itoa (z : Z) : countNl (itoa z) = 0%nat.
Proof.
  unfold itoa, pretty, pretty_Z. destruct z as [|x|x]; [done|..].
  - unfold pretty, pretty_positive, pretty, pretty_N.
    rewrite decide_False by done. by rewrite countNl_pretty_N_go.
  - rewrite countNl_append. simpl.
    unfold pretty, pretty_positive, pretty, pretty_N.
    rewrite decide_False by done. by rewrite countNl_pretty_N_go.
Qed.

Lemma countNl_spanAttributes mergeInfo : countNl (spanAttributes mergeInfo) = 0%nat.
Proof.
  unfold spanAttributes. rewrite countNl_append.
  destruct (decide (1 < RowSpan mergeInfo)), (decide (1 < ColSpan mergeInfo));
    rewrite ?countNl_append, ?countNl_itoa; done.
Qed.

Lemma countNl_emitRow m rowIndex colIndex row processedCells :
  Forall (fun cellContent => countNl cellContent = 0%nat) row →
  countNl (emitRow m rowIndex colIndex row processedCells).1 = 0%nat.
Proof.
  intros Hrow. revert colIndex processedCells.
  induction Hrow as [|cellContent row Hcell _ IH]; intros colIndex processedCells;
    [done|].
  simpl. destruct (decide (cellKey rowIndex colIndex ∈ processedCells)); [apply IH|].
  destruct (lookupMerge m rowIndex colIndex) as [mergeInfo|].
  - specialize (IH (colIndex + 1) (markSpan processedCells rowIndex colIndex mergeInfo)).
    destruct (emitRow m rowIndex (colIndex + 1) row _) as [out pc]. simpl in *.
    rewrite !countNl_append, countNl_spanAttributes, Hcell, IH. done.
  - specialize (IH (colIndex + 1) processedCells).
    destruct (emitRow m rowIndex (colIndex + 1) row _) as [out pc]. simpl in *.
    rewrite !countNl_append, Hcell, IH. done.
Qed.

Lemma countNl_emitRows m rowIndex rows processedCells :
  Forall (Forall (fun cellContent => countNl cellContent = 0%nat)) rows →
  countNl (emitRows m rowIndex rows processedCells) = (2 * List.length rows)%nat.
Proof.
  intros Hrows. revert rowIndex processedCells.
  induction Hrows as [|row rows Hrow _ IH]; intros rowIndex processedCells; [done|].
  simpl. pose proof (countNl_emitRow m rowIndex 0 row processedCells Hrow) as Hout.
  destruct (emitRow m rowIndex 0 row processedCells) as [out pc]. simpl in Hout.
  rewrite !countNl_append, Hout, IH. simpl. lia.
Qed.

Variable rec : option DocxBlock -> nat -> M string.

Lemma collect_cellContentOf cells st contents st' :
  collect (cellContentOf rec) cells st = Ok (contents, st') →
  Forall (fun cellContent => countNl cellContent = 0%nat) contents.
Proof.
  revert st contents st'. induction cells as [|blockId cells IH]; intros st contents st'; simpl.
  - unfold ret. by intros [= <- _].
  - intros (s & st1 & Hs & Hk)%bind_inv.
    apply bind_inv in Hk as (rest & st2 & Hrest & Hr).
    unfold ret in Hr. injection Hr as <- _.
    constructor; [|by eapply IH].
    unfold cellContentOf in Hs.
    apply bind_inv in Hs as (rendered & st3 & _ & Hr).
    unfold ret in Hr. injection Hr as <- _. apply countNl_dropNewlines.
Qed.

Lemma gridRows_free cols contents :
  Forall (fun cellContent => countNl cellContent = 0%nat) contents →
  Forall (Forall (fun cellContent => countNl cellContent = 0%nat))
    (gridRows cols contents).
Proof.
  intros Hc. unfold gridRows. apply Forall_fmap, Forall_forall.
  intros r _. simpl. by apply Forall_take, Forall_drop.
Qed.

(** X14.  With a positive column count, the rendering of a table has two
    newlines for the table tags and two for each row of the grid, and no
    other: the content of a cell is written without its newlines, so a table
    of [n] cells in [cols] columns takes 2 + 2 * ceil(n / cols) lines,
    whatever the cells render to. *)
Theorem table_lines (t : DocxBlockTable) (prop : DocxBlockTableProperty)
    (st st' : Parser * FS) (s : string) :
  Property t = Some prop →
  0 < ColumnSize prop →
  ParseDocxBlockTable rec (Some t) st = Ok (s, st') →
  let cols := Z.to_nat (ColumnSize prop) in
  countNl s = (2 + 2 * ((List.length (Cells t) + cols - 1) / cols))%nat.
Proof.
  intros Hprop Hpos Hrun cols. unfold ParseDocxBlockTable in Hrun.
  rewrite Hprop in Hrun.
  apply bind_inv in Hrun as (m & st1 & Hm & Hrun).
  apply liftRes_inv in Hm as [_ ->].
  apply bind_inv in Hrun as (rows & st2 & Hrows & Hret).
  unfold ret in Hret. injection Hret as <- _.
  rewrite cellLoop_gridRows in Hrows by done.
  apply bind_inv in Hrows as (contents & st3 & Hcontents & Hret).
  unfold ret in Hret. injection Hret as <- _.
  unfold renderHTMLTable. rewrite !countNl_append.
  rewrite countNl_emitRows
    by (eapply gridRows_free, collect_cellContentOf; exact Hcontents).
  unfold gridRows. rewrite length_fmap, length_seq.
  rewrite (collect_length _ _ _ _ _ Hcontents). fold cols. simpl. lia.
Qed.

End TableLines.


(** * What [DownloadFile] leaves on disk *)

Section Stored.
Context `{GoRuntime} `{GoLibrary}.

Lemma length_append (a b : string) :
  String.length (a +:+ b) = (String.length a + String.length b)%nat.
Proof.
  induction a as [|c a IH]; [done|]. rewrite append_cons. simpl. by rewrite IH.
Qed.

Lemma length_dropBytes (n : nat) (s : string) :
  String.length (dropBytes n s) = (String.length s - n)%nat.
Proof.
  revert s. induction n as [|n IH]; intros [|c s]; simpl; try done; try lia.
Qed.

(** X15.  When [DownloadDriveFile] answers with a file and the operating
    system accepts the write, [DownloadFile] returns the path of the remote
    file name (of the token when the name is empty) under the output
    directory.  The file is opened without truncation: the downloaded bytes
    are written over the beginning of what the file held, and what an
    earlier, longer file held beyond them stays. *)
Theorem download_file_does_not_truncate (c : Client)
    (fileToken outDir objType title : string) (fs : FS) (name bytes : string) :
  DownloadDriveFile c fileToken = DownloadOk name bytes →
  let path :=
    filepath_Join outDir (if bool_decide (name = EmptyString) then fileToken else name) in
  writable path →
  let old := default EmptyString (fs !! path) in
  DownloadFile c fileToken outDir objType title fs
  = ((path, None), <[path := overwrite old bytes]> fs)
  ∧ HasPrefix (overwrite old bytes) bytes = true
  ∧ String.length (overwrite old bytes)
    = Nat.max (String.length old) (String.length bytes)
  ∧ dropBytes (String.length bytes) (overwrite old bytes)
    = dropBytes (String.length bytes) old.
Proof.
  intros Hresp path Hw old. split; [|split; [|split]].
  - unfold DownloadFile. rewrite Hresp. unfold saveDownloaded. fold path.
    by rewrite copyToFile_writable.
  - apply HasPrefix_append.
  - unfold overwrite. rewrite length_append, length_dropBytes. lia.
  - unfold overwrite. by rewrite dropBytes_append.
Qed.

(** X16.  [DownloadFile] never returns a path together with an error: on
    every error the path is empty.  [DownloadImage] returns the image token
    as the path with every error, the path of the stored image otherwise, and
    panics exactly on a nil response without error, which it reads without a
    test: it panics on every such response, it returns the error of the media
    call with the disk unchanged, and it returns on every response with a
    file. *)
Theorem download_error_paths (c : Client)
    (fileToken outDir objType title imgToken : string) (fs : FS) :
  (let '((path, err), _) := DownloadFile c fileToken outDir objType title fs in
   err = None ∨ path = EmptyString)
  ∧ match CoreClient.DownloadImage c imgToken outDir fs with
    | Ok ((path, Some _), _) => path = imgToken
    | Ok ((path, None), _) =>
        ∃ name bytes, DownloadDriveMedia c imgToken = DownloadOk name bytes
                      ∧ path = outDir +:+ "/" +:+ imgToken +:+ filepath_Ext name
    | Panic => DownloadDriveMedia c imgToken = DownloadNil
    | OutOfFuel => False
    end
  ∧ match DownloadDriveMedia c imgToken with
    | DownloadNil => CoreClient.DownloadImage c imgToken outDir fs = Panic
    | DownloadErr err =>
        CoreClient.DownloadImage c imgToken outDir fs = Ok ((imgToken, Some err), fs)
    | DownloadOk name bytes =>
        ∃ r, CoreClient.DownloadImage c imgToken outDir fs = Ok r
    end.
Proof.
  split; [|split].
  - unfold DownloadFile, createFilePlaceholder, saveDownloaded.
    repeat case_match; simplify_eq; auto.
  - unfold CoreClient.DownloadImage.
    destruct (DownloadDriveMedia c imgToken) as [err| |name bytes]; [done..|].
    destruct (copyToFile _ bytes fs) as [[err|w] fs']; [done|]. by exists name, bytes.
  - unfold CoreClient.DownloadImage.
    destruct (DownloadDriveMedia c imgToken) as [err| |name bytes]; [done..|].
    destruct (copyToFile _ bytes fs) as [[err|w] fs']; by eexists.
Qed.

End Stored.


(** * A parser that cannot store attachments leaves the disk alone *)

Section Keeps.
Variable I : Parser * FS → Prop.

Lemma keeps_ret {A} (a : A) : keeps I (ret a).
Proof. by intros st a' st' HI [= _ <-]. Qed.

Lemma keeps_panic {A} : keeps I (@panic A).
Proof. by intros st a st' HI. Qed.

Lemma keeps_liftRes {A} (r : Res A) : keeps I (liftRes r).
Proof. intros st a st' HI. unfold liftRes. destruct r; [|done..]. by intros [= _ <-]. Qed.

Lemma keeps_bind {A B} (m : M A) (k : A -> M B) :
  keeps I m → (∀ a, keeps I (k a)) → keeps I (bind m k).
Proof.
  intros Hm Hk st b st' HI (a & st1 & Hrun & Hrest)%bind_inv.
  eapply Hk; [|done]. by eapply Hm.
Qed.

Lemma keeps_getParser {A} (k : Parser -> M A) :
  (∀ p, keeps I (k p)) → keeps I (bind getParser k).
Proof. intros Hk. apply keeps_bind; [|done]. by intros st a st' HI [= _ <-]. Qed.

Lemma keeps_writeEach {A} (f : A -> M string) l :
  (∀ x, keeps I (f x)) → keeps I (writeEach f l).
Proof.
  intros Hf. induction l as [|x l IH]; simpl; [apply keeps_ret|].
  apply keeps_bind; [done|]. intros s. apply keeps_bind; [done|].
  intros t. apply keeps_ret.
Qed.

End Keeps.

Section KeepsMethods.
Context `{GoRuntime}.
Variable fs0 : FS.
Variable rec : option DocxBlock -> nat -> M string.
Hypothesis rec_keeps : ∀ b indentLevel, keeps (undisturbed fs0) (rec b indentLevel).

Local Notation I := (undisturbed fs0).

Lemma keeps_renderChild indentLevel id : keeps I (renderChild rec indentLevel id).
Proof. unfold renderChild. apply keeps_getParser. intros p. apply rec_keeps. Qed.

Lemma keeps_blockText t : keeps I (blockText t).
Proof. unfold blockText. apply keeps_getParser. intros p. apply keeps_liftRes. Qed.

Lemma keeps_children indentLevel l :
  keeps I (writeEach (renderChild rec indentLevel) l).
Proof. apply keeps_writeEach. intros id. apply keeps_renderChild. Qed.

Lemma keeps_ParseDocxBlockImage img : keeps I (ParseDocxBlockImage img).
Proof.
  destruct img as [img|]; [|apply keeps_panic]. simpl.
  apply keeps_bind; [|intros; apply keeps_ret].
  intros [p fs] a st' [Hoff Hfs]. unfold appendImgToken. by intros [= _ <-].
Qed.

Lemma tryDownloadMedia_offline p token fs :
  offline p → tryDownloadMedia p token fs = (None, fs).
Proof.
  intros [Hctx|[Hdir|Hclient]]; unfold tryDownloadMedia.
  - by rewrite Hctx.
  - rewrite Hdir. by destruct (ctx p).
  - rewrite Hclient. destruct (ctx p); [|done]. by destruct (bool_decide _).
Qed.

Lemma keeps_ParseDocxBlockFile file : keeps I (ParseDocxBlockFile file).
Proof.
  destruct file as [file|]; [|apply keeps_panic].
  intros [p fs] a st' [Hoff Hfs]. simpl in *.
  rewrite tryDownloadMedia_offline by done. by intros [= _ <-].
Qed.

Lemma keeps_quoteLoop n i rest : keeps I (quoteLoop rec n i rest).
Proof.
  revert i. induction rest as [|child rest IH]; intros i; simpl; [apply keeps_ret|].
  apply keeps_bind; [apply keeps_renderChild|]. intros content.
  apply keeps_bind; [apply IH|]. intros t. apply keeps_ret.
Qed.

Lemma keeps_cellLoop columnSize i cells rows :
  keeps I (cellLoop rec columnSize i cells rows).
Proof.
  revert i rows. induction cells as [|blockId cells IH]; intros i rows; simpl;
    [apply keeps_ret|].
  apply keeps_bind; [apply keeps_renderChild|]. intros rendered.
  destruct (decide (columnSize = 0)); [apply keeps_panic|].
  destruct (index _ _) as [row|]; [|apply keeps_panic].
  destruct (index _ _); [|apply keeps_panic]. apply IH.
Qed.

Ltac keeps_step :=
  first
    [ apply keeps_ret | apply keeps_panic | apply keeps_liftRes
    | apply keeps_blockText | apply keeps_children | apply keeps_renderChild
    | apply keeps_quoteLoop | apply keeps_cellLoop
    | apply keeps_ParseDocxBlockImage | apply keeps_ParseDocxBlockFile
    | apply keeps_getParser; intros ?
    | apply keeps_writeEach; intros ?
    | apply keeps_bind; [|intros ?] ].

Lemma keeps_ParseDocxBlockBody b indentLevel :
  keeps I (ParseDocxBlockBody rec b indentLevel).
Proof.
  unfold ParseDocxBlockBody.
  destruct (BlockType b);
    unfold ParseDocxBlockPage, ParseDocxBlockCallout, ParseDocxBlockHeading,
      ParseDocxBlockBullet, ParseDocxBlockOrdered, ParseDocxBlockTableCell,
      ParseDocxBlockQuoteContainer, ParseDocxBlockGrid, ParseDocxBlockTable;
    repeat first [ keeps_step | case_match ].
Qed.

End KeepsMethods.

Section OfflineParser.
Context `{GoRuntime}.

Lemma keeps_ParseDocxBlock fs0 fuel b indentLevel :
  keeps (undisturbed fs0) (ParseDocxBlock fuel b indentLevel).
Proof.
  revert b indentLevel. induction fuel as [|fuel IH]; intros b indentLevel; [done|].
  simpl. destruct b as [b|]; [|apply keeps_panic].
  apply keeps_bind; [|intros; apply keeps_ret].
  by apply keeps_ParseDocxBlockBody.
Qed.

(** X17.  A parser without context, without output directory or without
    client never writes to the disk: whatever the document holds, file blocks
    included, the disk after [ParseDocxContent] is the disk before.  A new
    parser has no output directory until [SetOutputDir] is called. *)
Theorem offline_parser_leaves_disk (fuel : nat) (doc : DocxDocument)
    (blocks : list DocxBlock) (p p' : Parser) (fs fs' : FS) (markdown : string) :
  offline p →
  ParseDocxContent fuel doc blocks (p, fs) = Ok (markdown, (p', fs')) →
  fs' = fs.
Proof.
  intros Hoff Hrun. unfold ParseDocxContent in Hrun.
  by eapply (keeps_ParseDocxBlock fs) in Hrun as [_ Hfs].
Qed.

End OfflineParser.

(** * A wiki walk that cannot return *)


Module CrawlLiveness.
Import Crawl CrawlFacts.

Section Blocked.
Variable outcome : Job -> option string.
Variable listed : Listed.
Variable disk0 : list Job.
Hypothesis more_than_slots : (maxConcurrency < List.length listed.1)%nat.
Hypothesis first_fail : ∀ j, j ∈ take maxConcurrency listed.1 → is_Some (outcome j).

Lemma listingBlocked_start : listingBlocked listed disk0 (start listed disk0).
Proof.
  exists listed.1. unfold start. simpl. repeat split; try done.
  unfold maxConcurrency. lia.
Qed.

Lemma listingBlocked_step s s' :
  listingBlocked listed disk0 s → step (Some maxConcurrency) outcome s s' →
  listingBlocked listed disk0 s'.
Proof.
  intros (todo & Hm & Hjobs & Hlen & Hsem & Hph & Hcl & Hrecv & Hdisk) Hstep.
  assert (Htodo : todo ≠ []).
  { intros ->. rewrite app_nil_r in Hjobs. rewrite <- Hjobs, length_fmap in more_than_slots.
    lia. }
  assert (Hphase : ∀ i j p, tasks s !! i = Some (j, p) →
                   (p = Running ∨ ∃ err, p = Sending err) ∧ is_Some (outcome j)).
  { intros i j p Hi. split.
    - by apply (Forall_lookup_1 _ _ _ _ Hph Hi).
    - apply first_fail. rewrite <- Hjobs.
      pose proof (lookup_lt_Some _ _ _ Hi) as Hlt.
      apply (list_elem_of_lookup_2 _ i).
      rewrite lookup_take_lt by lia.
      rewrite lookup_app_l by (rewrite length_fmap; lia).
      by rewrite list_lookup_fmap, Hi. }
  inversion Hstep as
    [s0 j todo' r Hm' Hcap|s0 err Hm'|s0 Hm'|s0 i j Hi Hout|s0 i j err Hi Hout
    |s0 i j err Hi Hm'|s0 i j Hi|s0 i j Hi|s0 Hc Hwg|s0 Hm' Hc]; subst; simpl in *.
  - rewrite Hm in Hm'. injection Hm' as -> <-.
    exists todo'. simpl. repeat split; try done.
    + rewrite fmap_app, <- app_assoc. done.
    + rewrite length_app. simpl. lia.
    + rewrite length_app. simpl. lia.
    + apply Forall_app. split; [done|]. constructor; [by left|done].
  - congruence.
  - congruence.
  - destruct (Hphase i j Running Hi) as [_ [e He]]. congruence.
  - exists todo. unfold setTask. simpl. repeat split; try done.
    + by erewrite fst_insert_same.
    + by rewrite length_insert.
    + by rewrite length_insert.
    + apply Forall_insert; [done|]. right. by exists err.
  - congruence.
  - destruct (Hphase i j Finishing Hi) as [[?|[? ?]] _]; done.
  - destruct (Hphase i j Releasing Hi) as [[?|[? ?]] _]; done.
  - congruence.
  - congruence.
Qed.

Lemma listingBlocked_reachable s :
  reachable (Some maxConcurrency) outcome listed disk0 s →
  listingBlocked listed disk0 s.
Proof.
  unfold reachable. revert s. apply rtc_ind_r; [apply listingBlocked_start|].
  intros s s' _ Hstep IH. by eapply listingBlocked_step.
Qed.

End Blocked.

Section WikiHangs.
Context `{GoRuntime}.


End WikiHangs.
End CrawlLiveness.

(** * A listing that does not advance; the lines of a sheet *)


Section DriveRepeats.
Context {File : Type}.
Variable ask : option string -> option string -> string + CoreClient.Page File.

Lemma fileListPages_repeats fuel folderToken resp files :
  CoreClient.HasMore resp = true →
  ask (Some (CoreClient.PageToken resp)) folderToken = inr resp →
  CoreClient.fileListPages ask fuel folderToken resp files = OutOfFuel.
Proof.
  intros Hmore Hself. revert files.
  induction fuel as [|fuel IH]; intros files; simpl; rewrite Hmore; [done|].
  rewrite Hself. apply IH.
Qed.

(** X21.  [GetDriveFolderFileList] has no guard against a listing that
    does not advance: when the page after the first announces more pages
    under the page token that led to it, the same page is fetched again and
    again and the method never returns. *)
Theorem drive_file_list_repeating_page (pageToken folderToken : option string)
    (first resp : CoreClient.Page File) :
  ask pageToken folderToken = inr first →
  CoreClient.HasMore first = true →
  ask (Some (CoreClient.PageToken first)) folderToken = inr resp →
  CoreClient.HasMore resp = true →
  CoreClient.PageToken resp = CoreClient.PageToken first →
  ∀ fuel,
    CoreClient.GetDriveFolderFileList ask fuel pageToken folderToken = OutOfFuel.
Proof.
  intros Hfirst Hmore Hnext Hmore' Hsame fuel.
  unfold CoreClient.GetDriveFolderFileList. rewrite Hfirst.
  destruct fuel as [|fuel]; simpl; rewrite Hmore; [done|].
  rewrite Hnext. apply fileListPages_repeats; [done|]. by rewrite Hsame.
Qed.

End DriveRepeats.

Section SheetLines.
Context `{GoLibrary}.
Variable batch : string -> list string -> string + list CoreClient.SheetValueRange.

Lemma countNl_newlinesToBr (s : string) : countNl (newlinesToBr s) = 0%nat.
Proof.
  induction s as [|c s IH]; [done|]. simpl.
  destruct (is_nl c) eqn:Hc; [by rewrite countNl_append|]. simpl. by rewrite Hc.
Qed.

Lemma countNl_concat (l : list string) :
  Forall (fun s => countNl s = 0%nat) l → countNl (GoStrings.concat l) = 0%nat.
Proof.
  induction 1 as [|s l Hs _ IH]; [done|].
  by rewrite concat_cons, countNl_append, Hs, IH.
Qed.

Lemma countNl_markdownRow (row : list string) :
  Forall (fun cell => countNl cell = 0%nat) row →
  countNl (markdownRow row) = 1%nat.
Proof.
  intros Hrow. unfold markdownRow. rewrite !countNl_append, countNl_concat; [done|].
  apply Forall_fmap. eapply Forall_impl; [exact Hrow|]. simpl.
  intros cell Hcell. by rewrite !countNl_append, Hcell.
Qed.

Lemma countNl_rows (rows : list (list string)) :
  Forall (Forall (fun cell => countNl cell = 0%nat)) rows →
  countNl (GoStrings.concat (map markdownRow rows)) = List.length rows.
Proof.
  induction 1 as [|row rows Hrow _ IH]; [done|].
  simpl map. rewrite concat_cons, countNl_append, countNl_markdownRow, IH by done.
  done.
Qed.

Lemma countNl_markdownTable (values : list (list string)) :
  values ≠ [] →
  Forall (Forall (fun cell => countNl cell = 0%nat)) values →
  countNl (markdownTable values) = (List.length values + 4)%nat.
Proof.
  intros Hne Hvalues. destruct values as [|header rows]; [done|].
  apply Forall_cons in Hvalues as [Hheader Hrows].
  unfold markdownTable. rewrite !countNl_append, countNl_markdownRow by done.
  rewrite countNl_rows by done. rewrite countNl_concat.
  - simpl. lia.
  - apply Forall_fmap, Forall_forall. by intros cell _.
Qed.

(** X22.  A sheet whose cells are all strings is printed one row per line:
    the newlines of a string cell are replaced before the table is built, so
    the block for [n] rows has n + 4 newlines, those of the blank lines
    around the table, of the separator line and of the rows. *)
Theorem sheet_table_lines (p : Parser) (c : Client) (s : DocxBlockSheet)
    (a b : string) (range0 : CoreClient.SheetValueRange)
    (ranges : list CoreClient.SheetValueRange) :
  client p = Some c →
  GetSheetContent c = CoreClient.GetSheetContent batch →
  SheetToken s = a +:+ "_" +:+ b →
  noUnderscore b = true →
  http_NewRequest_err ("https://open.feishu.cn/open-apis/sheets/v4/spreadsheets/"
                        +:+ a +:+ "/values:batchGet") = None →
  batch a [b] = inr (range0 :: ranges) →
  CoreClient.Values range0 ≠ [] →
  Forall (Forall (fun cell => is_Some (CoreClient.CellString cell)))
    (CoreClient.Values range0) →
  ∃ markdown,
    ParseDocxBlockSheet p (Some s) = Ok markdown
    ∧ countNl markdown = (List.length (CoreClient.Values range0) + 4)%nat.
Proof.
  intros Hc Hget Htok Hb Hreq Hbatch Hne Hcells. unfold ParseDocxBlockSheet.
  rewrite Hc, Hget, Htok.
  rewrite bool_decide_eq_false_2.
  2:{ destruct a; [rewrite append_nil_l|]; rewrite append_cons; discriminate. }
  rewrite (GetSheetContent_split batch a b Hb).
  unfold CoreClient.sheetValues. rewrite Hreq, Hbatch.
  destruct (CoreClient.Values range0) as [|row rows] eqn:Hvalues; [done|].
  eexists. split; [done|].
  rewrite countNl_markdownTable; [by rewrite length_map|done|].
  apply Forall_fmap. eapply Forall_impl; [exact Hcells|]. simpl.
  intros cells Hrow. apply Forall_fmap. eapply Forall_impl; [exact Hrow|]. simpl.
  intros cell [text Htext]. unfold CoreClient.cellText. rewrite Htext.
  apply countNl_newlinesToBr.
Qed.

End SheetLines.

(** * Tasks that are left behind *)


Module CrawlLeak.
Import Crawl CrawlFacts.

Section BlockedSender.
Variable bound : option nat.
Variable outcome : Job -> option string.

Lemma returned_step s s' r i j err :
  step bound outcome s s' →
  main s = Returned r →
  tasks s !! i = Some (j, Sending err) →
  main s' = Returned r ∧ tasks s' !! i = Some (j, Sending err).
Proof.
  intros Hstep Hm Hi.
  inversion Hstep as
    [s0 j' todo' r' Hm' Hcap|s0 err' Hm'|s0 Hm'|s0 i' j' Hi' Hout|s0 i' j' err' Hi' Hout
    |s0 i' j' err' Hi' Hm'|s0 i' j' Hi'|s0 i' j' Hi'|s0 Hc Hwg|s0 Hm' Hc];
    subst; simpl in *; try congruence;
    (split; [done|]);
    try (destruct (decide (i = i')) as [->|Hne];
         [congruence|by rewrite list_lookup_insert_ne]);
    done.
Qed.

Lemma returned_rtc s s' r i j err :
  rtc (step bound outcome) s s' →
  main s = Returned r →
  tasks s !! i = Some (j, Sending err) →
  main s' = Returned r ∧ tasks s' !! i = Some (j, Sending err).
Proof.
  induction 1 as [s|s s1 s' Hstep _ IH]; [done|].
  intros Hm Hi. destruct (returned_step _ _ _ _ _ _ Hstep Hm Hi). by apply IH.
Qed.

Lemma pending_sender (l : list (Job * Phase)) i j err :
  l !! i = Some (j, Sending err) → (0 < countIf pending l)%nat.
Proof.
  revert i. induction l as [|t l IH]; intros [|i] Hi; simplify_eq/=.
  - lia.
  - specialize (IH _ Hi). lia.
Qed.

(** X23.  Once a walk has returned, a task that waits in its send on the
    error channel is never received: whatever the other goroutines do from
    then on, the task stays blocked in its send, the wait group does not
    reach zero and the channel is not closed. *)
Theorem blocked_sender_is_never_received (listed : Listed) (disk0 : list Job)
    (s s' : State) (r : option string) (i : nat) (j : Job) (err : string) :
  reachable bound outcome listed disk0 s →
  main s = Returned r →
  tasks s !! i = Some (j, Sending err) →
  rtc (step bound outcome) s s' →
  main s' = Returned r
  ∧ tasks s' !! i = Some (j, Sending err)
  ∧ (0 < wg s')%nat
  ∧ closer s' ≠ Exited.
Proof.
  intros Hreach Hm Hi Hrun.
  destruct (returned_rtc _ _ _ _ _ _ Hrun Hm Hi) as [Hm' Hi'].
  assert (Hreach' : reachable bound outcome listed disk0 s')
    by (unfold reachable in *; by etrans).
  apply Inv_reachable in Hreach' as [_ Hwg _ _ Hclosed].
  assert (0 < wg s')%nat by (rewrite Hwg; by eapply pending_sender).
  repeat split; try done. intros Hex. apply Hclosed in Hex. lia.
Qed.

End BlockedSender.
End CrawlLeak.

(** * What makes [downloadFile] fail *)


Section DownloadFileErrors.
Context `{GoRuntime} `{GoLibrary}.

Lemma copyToFile_error path bytes fs err fs' :
  copyToFile path bytes fs = (inl err, fs') → localError err.
Proof.
  unfold copyToFile.
  destruct (os_MkdirAll_err (filepath_Dir path)) as [e|] eqn:Hdir.
  { intros [= <- _]. exists (filepath_Dir path). auto. }
  destruct (os_OpenFile_err path) as [e|] eqn:Hopen.
  { intros [= <- _]. exists path. auto. }
  destruct (io_Copy_err path) as [e|] eqn:Hcopy; [|done].
  intros [= <- _]. exists path. auto.
Qed.

Lemma DownloadFile_error c fileToken outDir objType title fs path err fs' :
  DownloadFile c fileToken outDir objType title fs = ((path, Some err), fs') →
  localError err.
Proof.
  assert (Hplace : createFilePlaceholder fileToken outDir objType title fs
                   = ((path, Some err), fs') → localError err).
  { unfold createFilePlaceholder.
    destruct (os_MkdirAll_err outDir) as [e|] eqn:Hdir.
    { intros [= _ <- _]. exists outDir. auto. }
    destruct (os_WriteFile_err _) as [e|] eqn:Hwrite; [|done].
    intros [= _ <- _]. eexists. eauto. }
  assert (Hsave : ∀ name bytes,
            saveDownloaded fileToken outDir name bytes fs = ((path, Some err), fs') →
            localError err).
  { intros name bytes. unfold saveDownloaded.
    destruct (copyToFile _ bytes fs) as [[e|w] fs1] eqn:Hcopy; [|done].
    intros [= _ <- _]. by eapply copyToFile_error. }
  unfold DownloadFile.
  destruct (DownloadDriveFile c fileToken) as [e1| |name bytes]; [|done|by apply Hsave].
  destruct (DownloadDriveMedia c fileToken) as [e2| |name bytes];
    [done|done|by apply Hsave].
Qed.

(** X24.  [downloadFile] fails only on local errors: the error it returns
    is the error of [os.MkdirAll], [os.OpenFile], the copy or [os.WriteFile]
    for some path, wrapped with the title; no answer of the remote side, be
    it an error or a nil response, makes it fail.  When the operating system
    accepts every call it returns nil. *)
Theorem download_file_fails_only_locally (c : Client)
    (nodeToken title outputDir objType : string) (fs : FS) :
  match (downloadFile c nodeToken title outputDir objType fs).1 with
  | None => True
  | Some msg =>
      ∃ err, msg = "failed to download file " +:+ title +:+ ": " +:+ err
             ∧ localError err
  end
  ∧ ((∀ path, os_MkdirAll_err path = None ∧ os_OpenFile_err path = None
              ∧ io_Copy_err path = None ∧ os_WriteFile_err path = None) →
     (downloadFile c nodeToken title outputDir objType fs).1 = None).
Proof.
  assert (Hmsg : match (downloadFile c nodeToken title outputDir objType fs).1 with
                 | None => True
                 | Some msg =>
                     ∃ err, msg = "failed to download file " +:+ title +:+ ": " +:+ err
                            ∧ localError err
                 end).
  { unfold downloadFile.
    destruct (DownloadFile c nodeToken outputDir objType title fs)
      as [[path [err|]] fs'] eqn:Hrun; [|done].
    simpl. exists err. split; [done|]. by eapply DownloadFile_error. }
  split; [exact Hmsg|]. intros Hos.
  destruct ((downloadFile c nodeToken title outputDir objType fs).1) as [msg|];
    [|done].
  destruct Hmsg as (err & _ & path & Herr).
  destruct (Hos path) as (Hdir & Hopen & Hcopy & Hwrite).
  destruct Herr as [?|[?|[?|?]]]; congruence.
Qed.

End DownloadFileErrors.

(** * The states in which the wiki walk stops *)

Module CrawlStuck.
Import Crawl CrawlFacts.

Section Stuck.
Variable outcome : Job -> option string.

Lemma movable_or_blocked (l : list (Job * Phase)) :
  (∃ i j p, l !! i = Some (j, p)
            ∧ (p = Running ∨ p = Finishing ∨ p = Releasing))
  ∨ Forall (fun t => t.2 = Finished ∨ ∃ err, t.2 = Sending err) l.
Proof.
  induction l as [|[j p] l IH]; [by right|].
  destruct p as [|err| | |];
    try (left; exists 0%nat, j; eexists; split; [reflexivity|auto]; fail).
  - destruct IH as [(i & j' & p' & Hi & Hp')|Hall].
    + left. by exists (S i), j', p'.
    + right. constructor; [|done]. right. by exists err.
  - destruct IH as [(i & j' & p' & Hi & Hp')|Hall].
    + left. by exists (S i), j', p'.
    + right. constructor; [|done]. by left.
Qed.

Lemma inFlight_blocked (l : list (Job * Phase)) :
  Forall (fun t => t.2 = Finished ∨ ∃ err, t.2 = Sending err) l →
  countIf inFlight l = countIf isSending l.
Proof.
  induction 1 as [|[j p] l Hp _ IH]; [done|]. simpl in *. rewrite IH.
  destruct Hp as [->|[err ->]]; done.
Qed.

Section Walk.
Context `{GoRuntime}.

(** X25.  The wiki walk can stop before [downloadWiki] has returned in one
    situation only: the main goroutine has a task left to dispatch and waits
    for a slot of the semaphore, and all ten slots are held by tasks that are
    blocked in their send on the error channel (every other task has
    finished).  In every other state that the walk reaches some goroutine
    can take a step. *)
Theorem wiki_walk_stuck_only_when_slots_blocked (remote : Remote)
    (outputDir url : string) (disk0 : list Job) (s : State) :
  wikiWalk remote outputDir outcome url disk0 s →
  (∀ r, main s ≠ Returned r) →
  (∃ s', step (Some maxConcurrency) outcome s s')
  ∨ ((∃ j todo r, main s = Listing (j :: todo) r)
     ∧ countIf isSending (tasks s) = maxConcurrency
     ∧ Forall (fun t => t.2 = Finished ∨ ∃ err, t.2 = Sending err) (tasks s)).
Proof.
  intros Hreach Hnot.
  pose proof (Inv_reachable _ _ _ _ _ Hreach) as [_ _ [Hsem Hcap] _ _].
  destruct (main s) as [[|j todo] [err|]| |r] eqn:Hm.
  - left. eexists. by eapply step_listing_failed.
  - left. eexists. by eapply step_listing_done.
  - destruct (movable_or_blocked (tasks s)) as [(i & j' & p & Hi & Hp)|Hall].
    + left. destruct Hp as [->|[->| ->]].
      * destruct (outcome j') as [e|] eqn:Hout.
        -- eexists. by eapply step_task_fails.
        -- eexists. by eapply step_task_succeeds.
      * eexists. by eapply step_done.
      * eexists. by eapply step_release.
    + destruct (decide (semaphore s < maxConcurrency)%nat) as [Hlt|Hfull].
      * left. eexists. by eapply (step_dispatch _ outcome s j todo).
      * right. split; [by eauto|]. split; [|done].
        rewrite <- inFlight_blocked by done. lia.
  - destruct (movable_or_blocked (tasks s)) as [(i & j' & p & Hi & Hp)|Hall].
    + left. destruct Hp as [->|[->| ->]].
      * destruct (outcome j') as [e|] eqn:Hout.
        -- eexists. by eapply step_task_fails.
        -- eexists. by eapply step_task_succeeds.
      * eexists. by eapply step_done.
      * eexists. by eapply step_release.
    + destruct (decide (semaphore s < maxConcurrency)%nat) as [Hlt|Hfull].
      * left. eexists. by eapply (step_dispatch _ outcome s j todo).
      * right. split; [by eauto|]. split; [|done].
        rewrite <- inFlight_blocked by done. lia.
  - left. by eapply ranging_progress.
  - by destruct (Hnot r).
Qed.

End Walk.
End Stuck.
End CrawlStuck.

(** * The bitable block *)

Section BitableBlock.
Context `{GoLibrary}.
Variable fieldList : string -> string -> string + list CoreClient.BitableField.
Variable recordList : string -> string -> string + list CoreClient.BitableRecord.

Lemma GetBitableContent_split (a b : string) fields records :
  noUnderscore b = true →
  fieldList a b = inr fields →
  recordList a b = inr records →
  CoreClient.GetBitableContent fieldList recordList (a +:+ "_" +:+ b)
  = inr (match fields with
         | [] => []
         | _ => [map CoreClient.FieldName fields]
         end ++ map (CoreClient.recordRow fields) records)%list.
Proof.
  intros Hb Hfields Hrecords. unfold CoreClient.GetBitableContent.
  rewrite LastIndexUnderscore_split by done. rewrite decide_False by lia.
  rewrite Nat2Z.id.
  replace (Z.to_nat (Z.of_nat (String.length a) + 1)) with (S (String.length a))
    by lia.
  by rewrite takeBytes_append, dropBytes_separator, Hfields, Hrecords.
Qed.

(** X26.  A bitable block whose content comes from [GetBitableContent]
    prints the notice of an empty table exactly when the table has neither
    fields nor records; with fields it prints the Markdown table of the
    header and the record rows, and without fields but with records a table
    of empty rows, one per record. *)
Theorem bitable_block_from_remote (p : Parser) (c : Client)
    (bitable : DocxBlockBitable) (a b : string)
    (fields : list CoreClient.BitableField)
    (records : list CoreClient.BitableRecord) :
  client p = Some c →
  GetBitableContent c = CoreClient.GetBitableContent fieldList recordList →
  BitableToken bitable = a +:+ "_" +:+ b →
  noUnderscore b = true →
  fieldList a b = inr fields →
  recordList a b = inr records →
  ParseDocxBlockBitable p (Some bitable)
  = Ok match fields, records with
       | [], [] =>
           placeholder "> **📊 多维表格**" (BitableToken bitable) "> *多维表格为空*"
       | [], _ :: _ =>
           markdownTable (map (fun _ => []) records)
       | _ :: _, _ =>
           markdownTable (map CoreClient.FieldName fields
                          :: map (CoreClient.recordRow fields) records)
       end.
Proof.
  intros Hc Hget Htok Hb Hfields Hrecords. unfold ParseDocxBlockBitable.
  rewrite Hc, Hget, Htok.
  rewrite bool_decide_eq_false_2.
  2:{ destruct a; [rewrite append_nil_l|]; rewrite append_cons; discriminate. }
  rewrite (GetBitableContent_split a b fields records) by done.
  destruct fields as [|field fields]; [|done].
  destruct records as [|record records]; [done|]. done.
Qed.

End BitableBlock.
(** * The properties on concrete documents *)

Module Witnesses.
Import Fixtures.
#[local] Existing Instance plainRuntime.




(** C2, witness of [ordered_item_number]: for the siblings ordered, ordered,
    bullet, ordered the numbers are 1, 2 and, after the bullet, 1 again. *)
Lemma ordered_numbers_witness :
  (blockMap (parserOf listBlocks) !! ParentID o4 = Some listPage
   ∧ Children listPage = (["o1"; "o2"; "u3"] ++ BlockID o4 :: [])%list
   ∧ (BlockID o4 ∉ ["o1"; "o2"; "u3"])
   ∧ (∀ id, id ∈ ["o1"; "o2"; "u3"] → is_Some (blockMap (parserOf listBlocks) !! id)))
  ∧ orderOf (parserOf listBlocks) o1 = Ok 1
  ∧ orderOf (parserOf listBlocks) o2 = Ok 2
  ∧ orderOf (parserOf listBlocks) o4 = Ok 1.
Proof.
  assert (Hparent : ∀ b, ParentID b = "doc" →
            blockMap (parserOf listBlocks) !! ParentID b = Some listPage)
    by (intros b ->; vm_compute; reflexivity).
  assert (Hres : ∀ pre, pre ⊆ ["o1"; "o2"; "u3"] →
            ∀ id, id ∈ pre → is_Some (blockMap (parserOf listBlocks) !! id)).
  { intros pre Hsub id Hin. apply Hsub in Hin.
    repeat (apply elem_of_cons in Hin as [->|Hin]; [vm_compute; eauto|]).
    by apply elem_of_nil in Hin. }
  assert (Hnotin4 : BlockID o4 ∉ ["o1"; "o2"; "u3"]).
  { intros Hin. repeat (apply elem_of_cons in Hin as [Heq|Hin]; [discriminate Heq|]).
    by apply elem_of_nil in Hin. }
  split; [|split; [|split]].
  - split; [by apply Hparent|]. split; [reflexivity|]. split; [exact Hnotin4|].
    by apply Hres.
  - refine (proj1 (ordered_item_number (parserOf listBlocks) o1 listPage
                     [] ["o2"; "u3"; "o4"] (Hparent o1 eq_refl) eq_refl _ _)).
    + apply not_elem_of_nil.
    + apply Hres. apply list_subseteq_nil.
  - refine (proj1 (ordered_item_number (parserOf listBlocks) o2 listPage
                     ["o1"] ["u3"; "o4"] (Hparent o2 eq_refl) eq_refl _ _)).
    + intros Hin. apply elem_of_cons in Hin as [Heq|Hin]; [discriminate Heq|].
      by apply elem_of_nil in Hin.
    + apply Hres. intros x Hx. apply elem_of_cons in Hx as [->|Hx];
        [apply list_elem_of_here|by apply elem_of_nil in Hx].
  - exact (proj1 (ordered_item_number (parserOf listBlocks) o4 listPage
                    ["o1"; "o2"; "u3"] [] (Hparent o4 eq_refl) eq_refl Hnotin4
                    (Hres _ (reflexivity _)))).
Defined.

(** The same document rendered whole: the printed numbers. *)
Example ordered_numbers_rendered :
  ParseDocxContent 5 {| DocumentID := "doc"; RevisionID := 1; Title := "T" |}
    listBlocks (NewParser {| UseHTMLTags := false |} None, ∅)
  = Ok ("# T" +:+ nl +:+ nl
        +:+ "1. one" +:+ nl +:+ nl
        +:+ "2. two" +:+ nl +:+ nl
        +:+ "- dot" +:+ nl +:+ nl
        +:+ "1. again" +:+ nl +:+ nl,
        (parserOf listBlocks, ∅)).
Proof. vm_compute. reflexivity. Qed.



(** C7, witness of [indent_prefix_and_nesting]: a bullet with one child. *)
Lemma bullet_nesting_witness :
  ParseDocxBlock 5 (Some bulletItem) 0 (parserOf nestedBlocks, ∅)
  = Ok ("- Item" +:+ nl +:+ tab +:+ "child" +:+ nl, (parserOf nestedBlocks, ∅))
  ∧ HasPrefix ("- Item" +:+ nl +:+ tab +:+ "child" +:+ nl) (Repeat tab 0) = true
  ∧ (nestsChildren (BlockType bulletItem) = true →
     ∃ line pieces,
       "- Item" +:+ nl +:+ tab +:+ "child" +:+ nl
       = Repeat tab 0 +:+ line +:+ GoStrings.concat pieces
       ∧ Forall2 (fun id piece =>
                    ∃ st1 st2,
                      ParseDocxBlock 4 (blockMap (parserOf nestedBlocks) !! id) (0 + 1) st1
                      = Ok (piece, st2))
                 (Children bulletItem) pieces
       ∧ Forall (fun piece => HasPrefix piece (Repeat tab (0 + 1)) = true) pieces).
Proof.
  assert (Hrun : ParseDocxBlock 5 (Some bulletItem) 0 (parserOf nestedBlocks, ∅)
                 = Ok ("- Item" +:+ nl +:+ tab +:+ "child" +:+ nl,
                       (parserOf nestedBlocks, ∅)))
    by (vm_compute; reflexivity).
  split; [exact Hrun|].
  exact (indent_prefix_and_nesting 4 bulletItem 0 _ _ _ Hrun).
Defined.

(** C7, counterexample: the child of a todo item is not rendered at all, at
    any indent level; and a block of a type without a case of its own,
    rendered at indent level 1, begins with two indent units, since it writes
    the prefix and then renders its child at the same level. *)
Lemma todo_child_dropped_and_prefix_repeated :
  (Children todoItem = ["c"]
   ∧ ParseDocxBlock 5 (Some todoItem) 0 (parserOf nestedBlocks, ∅)
     = Ok ("- [ ] task" +:+ nl, (parserOf nestedBlocks, ∅))
   ∧ ParseDocxBlock 4 (blockMap (parserOf nestedBlocks) !! "c") 1
       (parserOf nestedBlocks, ∅)
     = Ok (tab +:+ "child" +:+ nl, (parserOf nestedBlocks, ∅))
   ∧ Contains ("- [ ] task" +:+ nl) "child" = false)
  ∧ (ParseDocxBlock 5 (Some unknownItem) 1 (parserOf nestedBlocks, ∅)
     = Ok (tab +:+ tab +:+ "child" +:+ nl, (parserOf nestedBlocks, ∅))
     ∧ HasPrefix (tab +:+ tab +:+ "child" +:+ nl) (Repeat tab 2) = true).
Proof. repeat split; vm_compute; reflexivity. Qed.

(** C8, counterexample: the line of a quote container starts with the quote
    marker, which the pieces as the claim words them do not have. *)
Lemma quote_line_has_marker :
  collect (renderChild (ParseDocxBlock 4) 0) (Children quoteBox)
    (parserOf quoteBlocks, ∅)
  = Ok (["a" +:+ nl], (parserOf quoteBlocks, ∅))
  ∧ ParseDocxBlockQuoteContainer (ParseDocxBlock 4) quoteBox (parserOf quoteBlocks, ∅)
    = Ok ("> a  ", (parserOf quoteBlocks, ∅))
  ∧ joinStr nl (map quoteLineAsSpecified ["a" +:+ nl]) = "a  "
  ∧ "> a  " ≠ "a  ".
Proof. repeat split; try (vm_compute; reflexivity). discriminate. Qed.


(** C5, counterexample: in HTML-tag mode a run with the flags inline code and
    link is wrapped in backticks, the Markdown delimiter, and not in an HTML
    tag; and in Markdown mode a run with the flags underline and inline code
    is wrapped in the HTML tag [<u>]. *)
Lemma html_mode_keeps_backticks :
  (useHTMLTags htmlParser = true
   ∧ TextElementStyle codeLinkRun = Some codeLinkStyle
   ∧ flagsOf codeLinkStyle = [WInlineCode; WLink "u"]
   ∧ ParseDocxTextElementTextRun htmlParser codeLinkRun
     = backtick +:+ "x" +:+ backtick
   ∧ ¬ wrappedAsSpecified (useHTMLTags htmlParser)
         (ParseDocxTextElementTextRun htmlParser codeLinkRun))
  ∧ (useHTMLTags (parserOf []) = false
     ∧ flagsOf underlinedCodeStyle = [WInlineCode; WUnderline]
     ∧ ParseDocxTextElementTextRun (parserOf []) underlinedCodeRun = "<u>x</u>"
     ∧ ¬ wrappedAsSpecified (useHTMLTags (parserOf []))
           (ParseDocxTextElementTextRun (parserOf []) underlinedCodeRun)).
Proof.
  repeat split; try (vm_compute; reflexivity); vm_compute; discriminate.
Qed.

(** The six wrappers in Markdown mode and in HTML-tag mode: the last three
    are the same in both. *)
Example each_wrapper_rendered :
  (fun w => ParseDocxTextElementTextRun (parserOf []) (runWith w))
    <$> [WBold; WItalic; WStrikethrough; WUnderline; WInlineCode; WLink "u"]
  = ["**x**"; "_x_"; "~~x~~"; "<u>x</u>"; "`x`"; "[x](u)"]
  ∧ (fun w => ParseDocxTextElementTextRun htmlParser (runWith w))
      <$> [WBold; WItalic; WStrikethrough; WUnderline; WInlineCode; WLink "u"]
    = ["<strong>x</strong>"; "<em>x</em>"; "<del>x</del>"; "<u>x</u>"; "`x`";
       "[x](u)"].
Proof. split; vm_compute; reflexivity. Qed.



(** C10, witness of [placeholder_when_both_downloads_fail]: the placeholder
    of a mind map. *)
Lemma placeholder_witness :
  DownloadDriveFile failingClient "tok" = DownloadErr "403 forbidden"
  ∧ DownloadDriveMedia failingClient "tok" = DownloadErr "404 not found"
  ∧ DownloadFile failingClient "tok" "out" "mindnote" "Plan" ∅
    = (("out/Plan.md", None),
       {[ "out/Plan.md" :=
            "# Plan" +:+ nl +:+ nl
            +:+ "**文件类型**: 思维导图" +:+ nl +:+ nl
            +:+ "**文件Token**: `tok`" +:+ nl +:+ nl
            +:+ "**提示**: 这是一个思维导图文件，无法直接转换为Markdown。"
            +:+ nl +:+ nl
            +:+ "请访问飞书查看原始文件: [点击打开](https://jinniuai.feishu.cn/mindnote/tok)"
            +:+ nl ]}).
Proof.
  split; [reflexivity|]. split; [reflexivity|].
  rewrite (proj1 (placeholder_when_both_downloads_fail failingClient
                    "tok" "out" "mindnote" "Plan" ∅
                    "403 forbidden" "404 not found" eq_refl eq_refl)).
  vm_compute. reflexivity.
Defined.


End Witnesses.

Module CrawlWitnesses.
Import Fixtures Crawl CrawlFacts.
#[local] Existing Instance plainRuntime.

Tactic Notation "run_step" uconstr(c) :=
  eapply rtc_l;
    [eapply c; first [reflexivity | unfold maxConcurrency; simpl; lia | exact I]|];
    simpl.

Lemma five_jobs_run :
  folderWalk fiveDocs "out" thirdFails "folder" [] afterFive.
Proof.
  unfold folderWalk, reachable.
  change (downloadDocuments fiveDocs "out" "folder") with (fiveJobs, @None string).
  unfold start; simpl.
  do 5 run_step step_dispatch.
  run_step step_listing_done.
  run_step (step_task_succeeds None thirdFails _ 0%nat).
  run_step (step_task_succeeds None thirdFails _ 1%nat).
  run_step (step_task_succeeds None thirdFails _ 3%nat).
  run_step (step_task_succeeds None thirdFails _ 4%nat).
  run_step (step_done None thirdFails _ 0%nat).
  run_step (step_done None thirdFails _ 1%nat).
  run_step (step_done None thirdFails _ 3%nat).
  run_step (step_done None thirdFails _ 4%nat).
  run_step (step_task_fails None thirdFails _ 2%nat).
  run_step (step_receive None thirdFails _ 2%nat).
  apply rtc_refl.
Defined.



(** The wiki walk can stop for ever: ten tasks that failed wait in their send
    for the main goroutine, which waits for a slot of the semaphore before
    it dispatches the eleventh task, and no step is possible. *)
Example wiki_walk_deadlock :
  wikiWalk (flatWiki 11) "out" (fun _ => Some "download failed") "wiki" [] stuck
  ∧ ∀ s', ¬ step (Some maxConcurrency) (fun _ => Some "download failed") stuck s'.
Proof.
  split.
  - unfold wikiWalk, reachable.
    change (downloadWiki (flatWiki 11) "out" "wiki")
      with (replicate 11 wikiJob, @None string).
    unfold start; simpl.
    do 10 run_step step_dispatch.
    run_step (step_task_fails _ _ _ 0%nat).
    run_step (step_task_fails _ _ _ 1%nat).
    run_step (step_task_fails _ _ _ 2%nat).
    run_step (step_task_fails _ _ _ 3%nat).
    run_step (step_task_fails _ _ _ 4%nat).
    run_step (step_task_fails _ _ _ 5%nat).
    run_step (step_task_fails _ _ _ 6%nat).
    run_step (step_task_fails _ _ _ 7%nat).
    run_step (step_task_fails _ _ _ 8%nat).
    run_step (step_task_fails _ _ _ 9%nat).
    apply rtc_refl.
  - intros s' Hstep. inversion Hstep; simplify_eq/=;
      try (unfold maxConcurrency in *; lia);
      repeat (match goal with
              | H : _ !! ?i = Some _ |- _ => destruct i; simplify_eq/=
              end).
Qed.

End CrawlWitnesses.


(** * The further properties on concrete inputs *)

Module MoreWitnesses.
Import Fixtures Samples.
#[local] Existing Instance plainRuntime.
#[local] Existing Instance plainLibrary.

(** X1 on a listing of three pages: the items of the third page are not
    returned. *)
Example wiki_third_page_dropped :
  CoreClient.GetWikiNodeList askWiki 5 "space" None = Ok (inr ["a"; "b"; "c"]).
Proof. reflexivity. Qed.

(** X2, witness of [drive_file_list_all_pages]: the same three pages through
    the drive listing. *)
Lemma drive_three_pages_witness :
  pagesFrom (fun t => askDrive t (Some "folder")) None
    [ listingPage ["a"; "b"] true "p2"; listingPage ["c"] true "p3";
      listingPage ["d"] false EmptyString ] None
  ∧ CoreClient.GetDriveFolderFileList askDrive 3 None (Some "folder")
    = Ok (inr ["a"; "b"; "c"; "d"]).
Proof.
  assert (Hpages : pagesFrom (fun t => askDrive t (Some "folder")) None
            [ listingPage ["a"; "b"] true "p2"; listingPage ["c"] true "p3";
              listingPage ["d"] false EmptyString ] None).
  { apply pages_more; [reflexivity..|]. apply pages_more; [reflexivity..|].
    apply pages_last; reflexivity. }
  split; [exact Hpages|].
  exact (drive_file_list_all_pages askDrive 3 None (Some "folder") _ None Hpages
           (le_n 3)).
Defined.

(** X3, witness of [docx_content_all_pages]. *)
Lemma docx_two_pages_witness :
  pagesFrom (askBlocks "doc") None
    [ {| CoreClient.Items := [listPage; o1]; CoreClient.HasMore := true;
         CoreClient.PageToken := "next" |};
      {| CoreClient.Items := [o2; u3; o4]; CoreClient.HasMore := false;
         CoreClient.PageToken := EmptyString |} ] None
  ∧ CoreClient.GetDocxContent askDocument askBlocks 3 "token"
    = Ok (Some theDocument, listBlocks, None).
Proof.
  assert (Hpages : pagesFrom (askBlocks "doc") None
            [ {| CoreClient.Items := [listPage; o1]; CoreClient.HasMore := true;
                 CoreClient.PageToken := "next" |};
              {| CoreClient.Items := [o2; u3; o4]; CoreClient.HasMore := false;
                 CoreClient.PageToken := EmptyString |} ] None).
  { apply pages_more; [reflexivity..|]. apply pages_last; reflexivity. }
  split; [exact Hpages|].
  exact (docx_content_all_pages askDocument askBlocks 3 "token" theDocument _ None
           eq_refl Hpages (le_n 3)).
Defined.

(** X4, witness of [sheet_token_split]. *)
Lemma sheet_token_witness :
  noUnderscore "id1" = true
  ∧ CoreClient.GetSheetContent (sheetBatch twoRows) "sht_id1"
    = CoreClient.sheetValues (sheetBatch twoRows) "sht" "id1"
  ∧ CoreClient.GetSheetContent (sheetBatch twoRows) "id1"
    = inl "invalid sheet token format (missing underscore separator): id1".
Proof.
  split; [reflexivity|].
  exact (sheet_token_split (sheetBatch twoRows) "sht" "id1" eq_refl).
Defined.

(** X5, witness of [sheet_block_never_empty_notice]: a sheet without rows. *)
Lemma empty_sheet_witness :
  CoreClient.Values {| CoreClient.Values := [] |} = []
  ∧ ParseDocxBlockSheet (sheetParser []) (Some theSheet)
    = Ok (placeholder "> **📊 嵌入的电子表格**" "sht_id1"
            "> *获取电子表格内容失败: sheet is empty*").
Proof.
  split; [reflexivity|].
  exact (sheet_block_never_empty_notice (sheetBatch []) (sheetParser [])
           (sheetClient []) theSheet "sht" "id1" _
           eq_refl eq_refl eq_refl eq_refl eq_refl eq_refl).
Defined.

(** X6, witness of [bitable_rows_follow_fields]. *)
Lemma bitable_witness :
  ∃ result,
    CoreClient.GetBitableContent (fun _ _ => inr twoFields) (fun _ _ => inr oneRecord)
      "app_tbl" = inr result
    ∧ List.length result = 2%nat
    ∧ Forall (fun row => List.length row = 2%nat) result
    ∧ (twoFields ≠ [] → result !! 0%nat = Some ["Name"; "Age"])
    ∧ ∀ i j record field,
        oneRecord !! i = Some record →
        twoFields !! j = Some field →
        result !! (1 + i)%nat ≫= (.!! j)
        = Some match CoreClient.Fields record !! CoreClient.FieldID field with
               | Some value => value
               | None => EmptyString
               end.
Proof.
  exact (bitable_rows_follow_fields (fun _ _ => inr twoFields)
           (fun _ _ => inr oneRecord) "app" "tbl" twoFields oneRecord
           eq_refl eq_refl eq_refl).
Defined.

(** The content of that bitable. *)
Example bitable_content :
  CoreClient.GetBitableContent (fun _ _ => inr twoFields) (fun _ _ => inr oneRecord)
    "app_tbl" = inr [ ["Name"; "Age"]; ["Ann"; EmptyString] ].
Proof. vm_compute. reflexivity. Qed.


Lemma plain_writable (path : string) : writable path.
Proof. by repeat split. Qed.

(** X26, witness of [bitable_block_from_remote]: a table without fields and
    without records. *)
Lemma empty_bitable_witness :
  ParseDocxBlockBitable
    (NewParser {| UseHTMLTags := false |} (Some (bitableClient [] [])))
    (Some theBitable)
  = Ok (placeholder "> **📊 多维表格**" "app_tbl" "> *多维表格为空*").
Proof.
  exact (bitable_block_from_remote (fun _ _ => inr []) (fun _ _ => inr [])
           (NewParser {| UseHTMLTags := false |} (Some (bitableClient [] [])))
           (bitableClient [] []) theBitable "app" "tbl" [] []
           eq_refl eq_refl eq_refl eq_refl eq_refl eq_refl).
Defined.

(** The block for the bitable with two fields and one record. *)
Example bitable_rendered :
  ParseDocxBlockBitable
    (NewParser {| UseHTMLTags := false |} (Some (bitableClient twoFields oneRecord)))
    (Some theBitable)
  = Ok (nl +:+ nl +:+ "| Name | Age |" +:+ nl +:+ "| --- | --- |" +:+ nl
        +:+ "| Ann |  |" +:+ nl +:+ nl).
Proof. vm_compute. reflexivity. Qed.

(** X7, witness of [image_download_failure_ends_loop]: the second of three
    images cannot be downloaded; the first is on disk, the third is not
    asked for. *)
Lemma second_image_fails_witness :
  DownloadDriveMedia imageClient "U" = DownloadErr "no such media"
  ∧ localizeImages imageClient "img" (["T"] ++ "U" :: ["T"]) "![](T)![](U)" ∅
    = Ok (inl "no such media", {[ "img/T.png" := "PNG" ]}).
Proof.
  split; [reflexivity|].
  exact (image_download_failure_ends_loop imageClient "img" ["T"] ["T"] "U"
           "no such media" "![](T)![](U)" ∅ eq_refl).
Defined.

(** X8, witness of [image_link_localized]. *)
Lemma one_image_witness :
  DownloadDriveMedia imageClient "T" = DownloadOk "photo.png" "PNG"
  ∧ clearOf "T" "![](" ("T" +:+ ")") = true
  ∧ localizeImages imageClient "img" ["T"] "![](T)" ∅
    = Ok (inr "![](img/T.png)", {[ "img/T.png" := "PNG" ]}).
Proof.
  split; [reflexivity|]. split; [reflexivity|].
  exact (image_link_localized imageClient "img" "T" "photo.png" "PNG" "![](" ")" ∅
           eq_refl (plain_writable _) eq_refl).
Defined.

(** X9, witness of [repeated_image_token]: two links to the same image; the
    first link gets the directory and the extension twice, the second keeps
    the token. *)
Lemma same_image_twice_witness :
  clearOf "T" "![](" ("T" +:+ ")" +:+ nl +:+ "![](T)" +:+ nl) = true
  ∧ ∃ fs',
      localizeImages imageClient "img" ["T"; "T"]
        ("![](T)" +:+ nl +:+ "![](T)" +:+ nl) ∅
      = Ok (inr ("![](img/img/T.png.png)" +:+ nl +:+ "![](T)" +:+ nl), fs')
      ∧ (clearOf "T" ("![](" +:+ "img" +:+ "/")
           ("T" +:+ ".png" +:+ ")" +:+ nl +:+ "![](T)" +:+ nl) = true →
         "![](img/img/T.png.png)" +:+ nl +:+ "![](T)" +:+ nl
         = "![](" +:+ "img" +:+ "/" +:+ ("img" +:+ "/" +:+ "T" +:+ ".png")
           +:+ ".png" +:+ ")" +:+ nl +:+ "![](T)" +:+ nl).
Proof.
  split; [reflexivity|].
  exact (repeated_image_token imageClient "img" "T" "photo.png" "PNG" "![]("
           (")" +:+ nl +:+ "![](T)" +:+ nl) ∅ eq_refl (plain_writable _) eq_refl).
Defined.

(** X10 on the list of blocks of the numbering example read twice: the
    later copy of a block is the one that counts. *)
Example later_block_wins :
  indexBlocks ∅ [o1; mkBlock "o1" "doc" [] DocxBlockTypeText (txt "later")] !! "o1"
  = Some (mkBlock "o1" "doc" [] DocxBlockTypeText (txt "later")).
Proof. vm_compute. reflexivity. Qed.

(** X11, witness of [missing_entry_block_panics]: no blocks at all. *)
Lemma empty_document_witness :
  Forall (fun block => BlockID block ≠ DocumentID theDocument) []
  ∧ ParseDocxContent 1 theDocument []
      (NewParser {| UseHTMLTags := false |} None, ∅) = Panic.
Proof.
  split; [apply Forall_nil_2|].
  exact (missing_entry_block_panics 0 theDocument []
           (NewParser {| UseHTMLTags := false |} None) ∅
           (Forall_nil_2 _) (lookup_empty _)).
Defined.

(** X12, witness of [unlisted_ordered_item_is_first]. *)
Lemma stray_item_witness :
  blockMap (parserOf listBlocks) !! ParentID strayItem = Some listPage
  ∧ BlockID strayItem ∉ Children listPage
  ∧ orderOf (parserOf listBlocks) strayItem = Ok 1.
Proof.
  assert (Hparent : blockMap (parserOf listBlocks) !! ParentID strayItem
                    = Some listPage) by (vm_compute; reflexivity).
  assert (Hnot : BlockID strayItem ∉ Children listPage).
  { intros Hin. repeat (apply elem_of_cons in Hin as [Heq|Hin]; [discriminate Heq|]).
    by apply elem_of_nil in Hin. }
  split; [exact Hparent|]. split; [exact Hnot|].
  exact (proj1 (unlisted_ordered_item_is_first (parserOf listBlocks) strayItem
                  listPage Hparent Hnot)).
Defined.

(** X13, witness of [table_without_columns]. *)
Lemma no_columns_witness :
  ParseDocxBlockTable (ParseDocxBlock 3) (Some noColumns) (parserOf tableBlocks, ∅)
  = Panic.
Proof.
  exact (table_without_columns (ParseDocxBlock 3) noColumns
           {| ColumnSize := 0; MergeInfo := [span 1 1] |}
           (parserOf tableBlocks, ∅) eq_refl eq_refl).
Defined.

(** X14, witness of [table_lines]: four cells in two columns, six lines. *)
Lemma table_lines_witness :
  ParseDocxBlockTable (ParseDocxBlock 3) (Some table22) (parserOf tableBlocks, ∅)
  = Ok (table22Expected, (parserOf tableBlocks, ∅))
  ∧ countNl table22Expected = 6%nat.
Proof.
  assert (Hrun : ParseDocxBlockTable (ParseDocxBlock 3) (Some table22)
                   (parserOf tableBlocks, ∅)
                 = Ok (table22Expected, (parserOf tableBlocks, ∅)))
    by (vm_compute; reflexivity).
  split; [exact Hrun|].
  exact (table_lines (ParseDocxBlock 3) table22 table22Property
           (parserOf tableBlocks, ∅) (parserOf tableBlocks, ∅) table22Expected
           eq_refl eq_refl Hrun).
Defined.

(** X15, witness of [download_file_does_not_truncate]: three bytes written
    over a file of five. *)
Lemma shorter_download_witness :
  DownloadFile fileClient "tok" "out" "file" "Title" {[ "out/a.bin" := "OLDER" ]}
  = (("out/a.bin", None), <[ "out/a.bin" := "NEWER" ]> {[ "out/a.bin" := "OLDER" ]})
  ∧ HasPrefix "NEWER" "NEW" = true
  ∧ String.length "NEWER" = Nat.max 5 3
  ∧ dropBytes 3 "NEWER" = dropBytes 3 "OLDER".
Proof.
  exact (download_file_does_not_truncate fileClient "tok" "out" "file" "Title"
           {[ "out/a.bin" := "OLDER" ]} "a.bin" "NEW" eq_refl (plain_writable _)).
Defined.

(** X17, witness of [offline_parser_leaves_disk]: a file block rendered by
    a new parser with a client, before [SetOutputDir]. *)
Lemma new_parser_offline_witness :
  offline (NewParser {| UseHTMLTags := false |} (Some fileClient))
  ∧ match ParseDocxContent 2 theDocument [attachment]
            (NewParser {| UseHTMLTags := false |} (Some fileClient),
             {[ "out/a.bin" := "OLDER" ]}) with
    | Ok (_, (_, fs')) => fs' = {[ "out/a.bin" := "OLDER" ]}
    | _ => False
    end.
Proof.
  assert (Hoff : offline (NewParser {| UseHTMLTags := false |} (Some fileClient)))
    by (right; left; reflexivity).
  split; [exact Hoff|].
  destruct (ParseDocxContent 2 theDocument [attachment]
              (NewParser {| UseHTMLTags := false |} (Some fileClient),
               {[ "out/a.bin" := "OLDER" ]}))
    as [[markdown [p' fs']]| |] eqn:Hrun.
  - exact (offline_parser_leaves_disk 2 theDocument [attachment] _ p' _ fs' markdown
             Hoff Hrun).
  - vm_compute in Hrun. discriminate Hrun.
  - vm_compute in Hrun. discriminate Hrun.
Defined.

(** With the output directory set, the same block stores the attachment. *)
Example attachment_stored :
  (ParseDocxContent 2 theDocument [attachment]
     (SetOutputDir "out" (NewParser {| UseHTMLTags := false |} (Some fileClient)),
      ∅)) = Ok (nl +:+ "**附件**: a.bin (文件)" +:+ nl +:+ nl
                +:+ "**下载成功**: 文件已保存到 `out/a.bin` (大小: 3 bytes)" +:+ nl +:+ nl,
                (setBlockMap {[ "doc" := attachment ]}
                   (SetOutputDir "out"
                      (NewParser {| UseHTMLTags := false |} (Some fileClient))),
                 {[ "out/a.bin" := "NEW" ]})).
Proof. vm_compute. reflexivity. Qed.

(** X24 on a client whose download calls both fail: the placeholder is
    written and [downloadFile] returns nil. *)
Example failed_download_is_no_error :
  (downloadFile failingClient "tok" "Plan" "out" "mindnote" ∅).1 = None.
Proof. reflexivity. Qed.

(** X16 on three responses of the media call: none at all, an error, and a
    file. *)
Lemma nil_response_panics :
  CoreClient.DownloadImage silentClient "T" "out" ∅ = Panic
  ∧ CoreClient.DownloadImage imageClient "U" "out" ∅
    = Ok (("U", Some "no such media"), ∅)
  ∧ ∃ r, CoreClient.DownloadImage imageClient "T" "out" ∅ = Ok r.
Proof.
  split; [|split].
  - exact (proj2 (proj2 (download_error_paths silentClient
                           "f" "out" "file" "t" "T" ∅))).
  - exact (proj2 (proj2 (download_error_paths imageClient
                           "f" "out" "file" "t" "U" ∅))).
  - exact (proj2 (proj2 (download_error_paths imageClient
                           "f" "out" "file" "t" "T" ∅))).
Defined.

(** Well-formedness of a concrete document, block by block. *)
Ltac well_formed :=
  repeat first
    [ apply AllWellFormed_nil
    | eapply AllWellFormed_cons; [vm_compute; reflexivity| |]
    | apply WellFormed_block;
      [ vm_compute; by eauto
      | first [ exact I
              | eexists; split; [vm_compute; reflexivity|];
                repeat constructor; vm_compute; by eexists
              | intros t prop [= <-] [= <-]; vm_compute; reflexivity
              | repeat constructor; vm_compute; by eexists ]
      | vm_compute (renderedChildren _ _) ] ].

(** X18, witness of [well_formed_block_renders]: a page with the items
    ordered, ordered, bullet, ordered. *)
Lemma list_page_renders_witness :
  WellFormed (parserOf listBlocks) listPage
  ∧ ∃ depth : nat, ∀ (toks : list string) (fs : FS),
      ∃ r, ∀ fuel : nat, (depth ≤ fuel)%nat →
        ParseDocxBlock fuel (Some listPage) 0
          (setImgTokens toks (parserOf listBlocks), fs) = Ok r.
Proof.
  assert (Hwf : WellFormed (parserOf listBlocks) listPage) by well_formed.
  split; [exact Hwf|].
  exact (well_formed_block_renders (parserOf listBlocks) listPage 0 Hwf).
Defined.

(** The table with a merged cell and the bullet with a child are well formed
    too. *)
Example table_well_formed :
  WellFormed (parserOf tableBlocks) (tableBlock "tbl" "doc" table22).
Proof. well_formed. Qed.

Example bullet_well_formed : WellFormed (parserOf nestedBlocks) bulletItem.
Proof. well_formed. Qed.

(** An ordered item with its payload and without children whose parent is
    not in the index is not well formed, and its rendering panics. *)
Example orphan_item_panics :
  ParseDocxBlock 5 (Some (mkBlock "o" "gone" [] DocxBlockTypeOrdered (txt "one"))) 0
    (parserOf [mkBlock "o" "gone" [] DocxBlockTypeOrdered (txt "one")], ∅)
  = Panic.
Proof. vm_compute. reflexivity. Qed.

(** X22, witness of [sheet_table_lines]: two rows, one of them with a
    newline in a cell. *)
Lemma sheet_lines_witness :
  ∃ markdown,
    ParseDocxBlockSheet (sheetParser twoRows) (Some theSheet) = Ok markdown
    ∧ countNl markdown = 6%nat.
Proof.
  refine (sheet_table_lines (sheetBatch twoRows) (sheetParser twoRows)
            (sheetClient twoRows) theSheet "sht" "id1" _ []
            eq_refl eq_refl eq_refl eq_refl eq_refl eq_refl _ _).
  - discriminate.
  - repeat constructor; by eexists.
Defined.

(** The table that is printed for those rows. *)
Example sheet_rendered :
  ParseDocxBlockSheet (sheetParser twoRows) (Some theSheet)
  = Ok (nl +:+ nl +:+ "| h1 | h2 |" +:+ nl +:+ "| --- | --- |" +:+ nl
        +:+ "| a<br>b | c |" +:+ nl +:+ nl).
Proof. vm_compute. reflexivity. Qed.

End MoreWitnesses.

Module MoreCrawlWitnesses.
Import Fixtures Samples WalkSamples Crawl CrawlFacts CrawlLiveness CrawlStuck.
#[local] Existing Instance plainRuntime.

Tactic Notation "walk_step" uconstr(c) :=
  eapply rtc_l; [eapply c; first [reflexivity | exact I]|]; simpl.

(** The three states are reached. *)
Lemma sender_waits_for_listing_reached :
  folderWalk fiveDocs "out" thirdFails "folder" [] senderWaitsForListing.
Proof.
  unfold folderWalk, reachable.
  change (downloadDocuments fiveDocs "out" "folder") with (fiveJobs, @None string).
  unfold start; simpl.
  do 3 walk_step step_dispatch.
  walk_step (step_task_succeeds None thirdFails _ 0%nat).
  walk_step (step_task_fails None thirdFails _ 2%nat).
  apply rtc_refl.
Qed.

Lemma sender_waits_for_range_reached :
  folderWalk fiveDocs "out" thirdFails "folder" [] senderWaitsForRange.
Proof.
  unfold folderWalk, reachable.
  change (downloadDocuments fiveDocs "out" "folder") with (fiveJobs, @None string).
  unfold start; simpl.
  do 5 walk_step step_dispatch.
  walk_step step_listing_done.
  walk_step (step_task_succeeds None thirdFails _ 0%nat).
  walk_step (step_task_succeeds None thirdFails _ 1%nat).
  walk_step (step_task_succeeds None thirdFails _ 3%nat).
  walk_step (step_task_succeeds None thirdFails _ 4%nat).
  walk_step (step_done None thirdFails _ 0%nat).
  walk_step (step_done None thirdFails _ 1%nat).
  walk_step (step_done None thirdFails _ 3%nat).
  walk_step (step_done None thirdFails _ 4%nat).
  walk_step (step_task_fails None thirdFails _ 2%nat).
  apply rtc_refl.
Qed.

Lemma all_done_reached :
  folderWalk fiveDocs "out" (fun _ => None) "folder" [] allDone.
Proof.
  unfold folderWalk, reachable.
  change (downloadDocuments fiveDocs "out" "folder") with (fiveJobs, @None string).
  unfold start; simpl.
  do 5 walk_step step_dispatch.
  walk_step step_listing_done.
  walk_step (step_task_succeeds None (fun _ => None) _ 0%nat).
  walk_step (step_task_succeeds None (fun _ => None) _ 1%nat).
  walk_step (step_task_succeeds None (fun _ => None) _ 2%nat).
  walk_step (step_task_succeeds None (fun _ => None) _ 3%nat).
  walk_step (step_task_succeeds None (fun _ => None) _ 4%nat).
  walk_step (step_done None (fun _ => None) _ 0%nat).
  walk_step (step_done None (fun _ => None) _ 1%nat).
  walk_step (step_done None (fun _ => None) _ 2%nat).
  walk_step (step_done None (fun _ => None) _ 3%nat).
  walk_step (step_done None (fun _ => None) _ 4%nat).
  apply rtc_refl.
Qed.

(** X19, witness of [folder_walk_progress], in three states of the walk over
    five documents: a failed task waits in its send while the listing still
    has documents to dispatch (the listing dispatches the next); the failed
    task waits in its send, the others are done and the main goroutine is in
    its range (the error is received); and, when no task fails, every task
    is done and the channel is still open (the closer closes it). *)
Lemma folder_walk_moves_witness :
  (folderWalk fiveDocs "out" thirdFails "folder" [] senderWaitsForListing
   ∧ (∀ r, main senderWaitsForListing ≠ Returned r)
   ∧ ∃ s', step None thirdFails senderWaitsForListing s')
  ∧ (folderWalk fiveDocs "out" thirdFails "folder" [] senderWaitsForRange
     ∧ (∀ r, main senderWaitsForRange ≠ Returned r)
     ∧ ∃ s', step None thirdFails senderWaitsForRange s')
  ∧ (folderWalk fiveDocs "out" (fun _ => None) "folder" [] allDone
     ∧ (∀ r, main allDone ≠ Returned r)
     ∧ ∃ s', step None (fun _ => None) allDone s').
Proof.
  assert (H1 : ∀ r, main senderWaitsForListing ≠ Returned r) by done.
  assert (H2 : ∀ r, main senderWaitsForRange ≠ Returned r) by done.
  assert (H3 : ∀ r, main allDone ≠ Returned r) by done.
  split; [|split].
  - split; [exact sender_waits_for_listing_reached|]. split; [exact H1|].
    exact (folder_walk_progress thirdFails _ [] _
             sender_waits_for_listing_reached H1).
  - split; [exact sender_waits_for_range_reached|]. split; [exact H2|].
    exact (folder_walk_progress thirdFails _ [] _
             sender_waits_for_range_reached H2).
  - split; [exact all_done_reached|]. split; [exact H3|].
    exact (folder_walk_progress (fun _ => None) _ [] _ all_done_reached H3).
Defined.


(** X21, witness of [drive_file_list_repeating_page]. *)
Lemma repeating_page_witness :
  CoreClient.GetDriveFolderFileList askAgain 100 None (Some "folder") = OutOfFuel.
Proof.
  exact (drive_file_list_repeating_page askAgain None (Some "folder")
           (listingPage ["a"] true "again") (listingPage ["a"] true "again")
           eq_refl eq_refl eq_refl eq_refl eq_refl 100%nat).
Defined.

(** X23, witness of [blocked_sender_is_never_received]: the walk over the
    folder with a sub-folder that cannot be listed returns while the task of
    the first document waits in its send. *)
Lemma blocked_sender_witness :
  folderWalk brokenFolder "out" (fun _ => Some "download failed") "folder" []
    afterBroken
  ∧ main afterBroken = Returned (Some "listing failed")
  ∧ tasks afterBroken !! 0%nat = Some (job "a", Sending "download failed")
  ∧ (0 < wg afterBroken)%nat
  ∧ closer afterBroken ≠ Exited.
Proof.
  assert (Hreach : folderWalk brokenFolder "out" (fun _ => Some "download failed")
                     "folder" [] afterBroken).
  { unfold folderWalk, reachable.
    change (downloadDocuments brokenFolder "out" "folder")
      with ([job "a"], Some "listing failed").
    unfold start; simpl.
    eapply rtc_l; [by eapply step_dispatch|]; simpl.
    eapply rtc_l; [by eapply (step_task_fails None _ _ 0%nat)|]; simpl.
    eapply rtc_l; [by eapply step_listing_failed|]; simpl.
    apply rtc_refl. }
  split; [exact Hreach|].
  pose proof (CrawlLeak.blocked_sender_is_never_received None _ _ [] afterBroken
                afterBroken (Some "listing failed") 0%nat (job "a")
                "download failed" Hreach eq_refl eq_refl (rtc_refl _ _)) as Hleak.
  exact (conj (proj1 Hleak) (proj2 Hleak)).
Defined.

(** X25, witness of [wiki_walk_stuck_only_when_slots_blocked], in the state
    with ten tasks waiting in their send. *)
Lemma stuck_state_witness :
  wikiWalk (flatWiki 11) "out" (fun _ => Some "download failed") "wiki" [] stuck
  ∧ ((∃ s', step (Some maxConcurrency) (fun _ => Some "download failed") stuck s')
     ∨ ((∃ j todo r, main stuck = Listing (j :: todo) r)
        ∧ countIf isSending (tasks stuck) = maxConcurrency
        ∧ Forall (fun t => t.2 = Finished ∨ ∃ err, t.2 = Sending err)
            (tasks stuck))).
Proof.
  assert (Hreach : wikiWalk (flatWiki 11) "out" (fun _ => Some "download failed")
                     "wiki" [] stuck)
    by exact (proj1 CrawlWitnesses.wiki_walk_deadlock).
  split; [exact Hreach|].
  refine (wiki_walk_stuck_only_when_slots_blocked (fun _ => Some "download failed")
            (flatWiki 11) "out" "wiki" [] stuck Hreach _).
  intros r Hr. discriminate Hr.
Defined.

End MoreCrawlWitnesses.
